(** * The 2048 rules engine of [src/app/(tabs)/index.tsx]

    A shallow embedding of the board transformation (line collapse, move
    orchestration, tile spawning, board queries and the game session) and
    the proofs of its specified properties.

    Conventions of the embedding.
    - A JavaScript [number] that holds an integer is a [Z]; tile values,
      scores and ids stay far below 2^53, where the two agree.
    - The two-dimensional arrays [grid] and [occupancy] are finite maps
      keyed by [(row, col)].  A write [grid[r][c] = x] with [r] outside
      [0..BOARD_SIZE-1] dereferences [undefined] and throws a [TypeError]:
      the embedding returns [None].  A write with [r] in range and [c]
      outside it only adds a property that no loop ever reads; storing it
      under the key [(r, c)] has the same observable behaviour.
    - [slideRow] and [slideColumn] mutate the tiles they are given.  Those
      are the clones made by [moveTiles], every clone sits in at most one
      line and at most once in it, and the clones are not read again once
      the line has been copied out, so explicit value passing is faithful.
    - [Math.random] is replaced by the draw it produces (see [Draw]).
    - One call of [handleMove] is one transition of the session: the state
      updaters it queues run once each, on the state the call started from. *)

From stdpp Require Import base option list sorting gmap strings.
From Stdlib Require Import ZArith Lia QArith Qabs Lqa.

Local Open Scope Z_scope.

(** ** Data model *)

Inductive Direction := up | down | left | right.

Record Tile := mkTile {
  id : Z;
  value : Z;
  row : Z;
  col : Z;
  isNew : bool;
  justMerged : bool;
}.

Definition BOARD_SIZE : Z := 4.
Definition INITIAL_TILES : nat := 2.

(** The values taken by [for (let i = 0; i < BOARD_SIZE; i += 1)]. *)
Definition indices : list Z := seqZ 0 BOARD_SIZE.

Definition coords (t : Tile) : Z * Z := (row t, col t).

(** [0 <= i < BOARD_SIZE]: the indices at which a row of a grid exists. *)
Definition in_board (i : Z) : bool := (0 <=? i) && (i <? BOARD_SIZE).

(** [{ ...tile, isNew: false, justMerged: false }] *)
Definition clear_flags (t : Tile) : Tile :=
  mkTile (id t) (value t) (row t) (col t) false false.

(** ** Array.prototype.sort

    The sort is stable; for a consistent comparator its result is the
    stable sorted arrangement, which insertion from the right computes. *)

Fixpoint insert_by (cmp : Tile → Tile → Z) (x : Tile) (l : list Tile) : list Tile :=
  match l with
  | [] => [x]
  | y :: l' => if cmp x y <=? 0 then x :: y :: l' else y :: insert_by cmp x l'
  end.

Definition sort_by (cmp : Tile → Tile → Z) (l : list Tile) : list Tile :=
  foldr (insert_by cmp) [] l.

(** ** Line collapse *)

(** The result of [slideRow] and [slideColumn]: [{ tiles, moved, score }],
    together with the loop variable [targetIndex] while the scan runs. *)
Record Line := mkLine {
  line_tiles : list Tile;
  line_moved : bool;
  line_score : Z;
  targetIndex : Z;
}.

Definition line_start : Line := mkLine [] false 0 0.

Definition is_left (d : Direction) : bool :=
  match d with left => true | _ => false end.
Definition is_up (d : Direction) : bool :=
  match d with up => true | _ => false end.

(** One iteration of the loop of [slideRow] on [tile]; [merge] tells
    whether [nextTile] exists and has the value of [tile]. *)
Definition slideRow_step (r : Z) (direction : Direction)
    (tile : Tile) (merge : bool) (acc : Line) : Line :=
  let targetCol :=
    if is_left direction then targetIndex acc else BOARD_SIZE - 1 - targetIndex acc in
  let value' := if merge then value tile * 2 else value tile in
  let score' := if merge then line_score acc + value' else line_score acc in
  let moved' := line_moved acc || merge in
  let moved'' := moved' || (negb (col tile =? targetCol) || negb (row tile =? r)) in
  mkLine (line_tiles acc ++ [mkTile (id tile) value' r targetCol (isNew tile) merge])
         moved'' score' (targetIndex acc + 1).

Fixpoint slideRow_loop (r : Z) (direction : Direction)
    (sorted : list Tile) (acc : Line) : Line :=
  match sorted with
  | [] => acc
  | tile :: rest =>
      match rest with
      | nextTile :: rest' =>
          if value nextTile =? value tile
          then slideRow_loop r direction rest' (slideRow_step r direction tile true acc)
          else slideRow_loop r direction rest (slideRow_step r direction tile false acc)
      | [] => slideRow_loop r direction rest (slideRow_step r direction tile false acc)
      end
  end.

Definition slideRow_sorted (direction : Direction) (rowTiles : list Tile) : list Tile :=
  if is_left direction
  then sort_by (λ a b, col a - col b) rowTiles
  else sort_by (λ a b, col b - col a) rowTiles.

Definition slideRow (rowTiles : list Tile) (r : Z) (direction : Direction) : Line :=
  slideRow_loop r direction (slideRow_sorted direction rowTiles) line_start.

(** One iteration of the loop of [slideColumn]. *)
Definition slideColumn_step (c : Z) (direction : Direction)
    (tile : Tile) (merge : bool) (acc : Line) : Line :=
  let targetRow :=
    if is_up direction then targetIndex acc else BOARD_SIZE - 1 - targetIndex acc in
  let value' := if merge then value tile * 2 else value tile in
  let score' := if merge then line_score acc + value' else line_score acc in
  let moved' := line_moved acc || merge in
  let moved'' := moved' || (negb (row tile =? targetRow) || negb (col tile =? c)) in
  mkLine (line_tiles acc ++ [mkTile (id tile) value' targetRow c (isNew tile) merge])
         moved'' score' (targetIndex acc + 1).

Fixpoint slideColumn_loop (c : Z) (direction : Direction)
    (sorted : list Tile) (acc : Line) : Line :=
  match sorted with
  | [] => acc
  | tile :: rest =>
      match rest with
      | nextTile :: rest' =>
          if value nextTile =? value tile
          then slideColumn_loop c direction rest' (slideColumn_step c direction tile true acc)
          else slideColumn_loop c direction rest (slideColumn_step c direction tile false acc)
      | [] => slideColumn_loop c direction rest (slideColumn_step c direction tile false acc)
      end
  end.

Definition slideColumn_sorted (direction : Direction) (columnTiles : list Tile) : list Tile :=
  if is_up direction
  then sort_by (λ a b, row a - row b) columnTiles
  else sort_by (λ a b, row b - row a) columnTiles.

Definition slideColumn (columnTiles : list Tile) (c : Z) (direction : Direction) : Line :=
  slideColumn_loop c direction (slideColumn_sorted direction columnTiles) line_start.

(** ** Move orchestrator *)

Record MoveResult := mkMoveResult {
  tiles : list Tile;
  moved : bool;
  scoreGained : Z;
}.

(** [grid[tile.row][tile.col] = tile] *)
Definition grid_set (g : gmap (Z * Z) Tile) (tile : Tile) : option (gmap (Z * Z) Tile) :=
  if in_board (row tile) then Some (<[coords tile := tile]> g) else None.

(** [clones.forEach((tile) => { grid[tile.row][tile.col] = tile; })] *)
Fixpoint grid_fill (ts : list Tile) (g : gmap (Z * Z) Tile) : option (gmap (Z * Z) Tile) :=
  match ts with
  | [] => Some g
  | tile :: ts' =>
      match grid_set g tile with
      | Some g' => grid_fill ts' g'
      | None => None
      end
  end.

(** The tiles found in row [r], scanning the columns upwards. *)
Definition rowTiles_of (g : gmap (Z * Z) Tile) (r : Z) : list Tile :=
  omap (λ c, g !! (r, c)) indices.

(** The tiles found in column [c], scanning the rows upwards. *)
Definition columnTiles_of (g : gmap (Z * Z) Tile) (c : Z) : list Tile :=
  omap (λ r, g !! (r, c)) indices.

(** The three accumulators of [moveTiles]: [updatedTiles], [moved] and
    [scoreGained]. *)
Definition move_start : MoveResult := mkMoveResult [] false 0.

Definition add_line (acc : MoveResult) (l : Line) : MoveResult :=
  mkMoveResult (tiles acc ++ line_tiles l)
               (moved acc || line_moved l)
               (scoreGained acc + line_score l).

Definition move_rows (g : gmap (Z * Z) Tile) (direction : Direction) : MoveResult :=
  foldl (λ acc r,
           let rowTiles := rowTiles_of g r in
           match rowTiles with
           | [] => acc
           | _ => add_line acc (slideRow rowTiles r direction)
           end) move_start indices.

Definition move_columns (g : gmap (Z * Z) Tile) (direction : Direction) : MoveResult :=
  foldl (λ acc c,
           let columnTiles := columnTiles_of g c in
           match columnTiles with
           | [] => acc
           | _ => add_line acc (slideColumn columnTiles c direction)
           end) move_start indices.

(** The comparator of the final sort: row, then column, then id. *)
Definition canonical (a b : Tile) : Z :=
  if negb (row a =? row b) then row a - row b
  else if negb (col a =? col b) then col a - col b
  else id a - id b.

Definition is_horizontal (d : Direction) : bool :=
  match d with left | right => true | _ => false end.

Definition moveTiles (ts : list Tile) (direction : Direction) : option MoveResult :=
  let clones := clear_flags <$> ts in
  match grid_fill clones ∅ with
  | None => None
  | Some g =>
      let acc := if is_horizontal direction
                 then move_rows g direction else move_columns g direction in
      if negb (moved acc)
      then Some (mkMoveResult (clear_flags <$> ts) false 0)
      else Some (mkMoveResult (sort_by canonical (tiles acc)) true (scoreGained acc))
  end.

(** ** Board queries *)

(** [occupancy[tile.row][tile.col] = true], for every tile in turn. *)
Fixpoint occupancy_fill (ts : list Tile) (occ : gset (Z * Z)) : option (gset (Z * Z)) :=
  match ts with
  | [] => Some occ
  | tile :: ts' =>
      if in_board (row tile) then occupancy_fill ts' ({[coords tile]} ∪ occ) else None
  end.

(** A [Coordinates] record [{ row, col }] is the pair [(row, col)]. *)
Definition getEmptyPositions (ts : list Tile) : option (list (Z * Z)) :=
  match occupancy_fill ts ∅ with
  | None => None
  | Some occ =>
      Some (r ← indices; c ← indices;
            if decide ((r, c) ∈ occ) then [] else [(r, c)])
  end.

Definition containsTargetTile (ts : list Tile) (target : Z) : bool :=
  existsb (λ tile, value tile >=? target) ts.

(** [other && other.value === tile.value] *)
Definition same_value (other : option Tile) (tile : Tile) : bool :=
  match other with
  | Some n => value n =? value tile
  | None => false
  end.

(** The body of the double loop of [hasAvailableMoves] at one cell: does
    it reach [return true]? *)
Definition cell_has_move (g : gmap (Z * Z) Tile) (r c : Z) : bool :=
  match g !! (r, c) with
  | None => false
  | Some tile =>
      let right_n := if c + 1 <? BOARD_SIZE then g !! (r, c + 1) else None in
      let down_n := if r + 1 <? BOARD_SIZE then g !! (r + 1, c) else None in
      same_value right_n tile || same_value down_n tile
  end.

Definition hasAvailableMoves (ts : list Tile) : option bool :=
  if Z.of_nat (length ts) <? BOARD_SIZE * BOARD_SIZE then Some true
  else
    match grid_fill ts ∅ with
    | None => None
    | Some g =>
        Some (existsb (λ r, existsb (λ c, cell_has_move g r c) indices) indices)
    end.

(** ** Tile spawner *)

(** What the two calls of [Math.random] of one spawn come to:
    [pick] is [Math.floor(Math.random() * emptyPositions.length)] and
    [small] is [Math.random() < 0.9]. *)
Record Draw := mkDraw { pick : nat; small : bool }.

Definition spawn_value (d : Draw) : Z := if small d then 2 else 4.

(** [getId] is [getNextTileId]: it increments the counter [tileIdRef] and
    returns the new value.  The counter is threaded explicitly. *)
Definition addRandomTile (ts : list Tile) (counter : Z) (d : Draw)
    : option (list Tile * Z) :=
  match getEmptyPositions ts with
  | None => None
  | Some [] => Some (ts, counter)
  | Some emptyPositions =>
      match emptyPositions !! pick d with
      | None => None
      | Some choice =>
          Some (ts ++ [mkTile (counter + 1) (spawn_value d) choice.1 choice.2 true false],
                counter + 1)
      end
  end.

(** The loop of [generateInitialTiles], [n] iterations from iteration [i];
    [draws i] is the draw of iteration [i]. *)
Fixpoint initial_loop (n : nat) (i : nat) (draws : nat → Draw)
    (ts : list Tile) (counter : Z) : option (list Tile * Z) :=
  match n with
  | O => Some (ts, counter)
  | S n' =>
      match getEmptyPositions ts with
      | None => None
      | Some [] => Some (ts, counter)
      | Some emptyPositions =>
          match emptyPositions !! pick (draws i) with
          | None => None
          | Some choice =>
              initial_loop n' (S i) draws
                (ts ++ [mkTile (counter + 1) (spawn_value (draws i))
                               choice.1 choice.2 true false])
                (counter + 1)
          end
      end
  end.

Definition generateInitialTiles (counter : Z) (draws : nat → Draw)
    : option (list Tile * Z) :=
  initial_loop INITIAL_TILES 0 draws [] counter.

(** ** Game session

    The state of [HomeScreen] that the rules engine reads and writes. *)
Record Session := mkSession {
  s_tiles : list Tile;
  score : Z;
  bestScore : Z;
  gameOver : bool;
  hasWon : bool;
  tileIdRef : Z;
}.

Definition handleMove (s : Session) (direction : Direction) (d : Draw)
    : option Session :=
  if gameOver s then Some s
  else
    match moveTiles (s_tiles s) direction with
    | None => None
    | Some mr =>
        if negb (moved mr) then Some s
        else
          match addRandomTile (tiles mr) (tileIdRef s) d with
          | None => None
          | Some (withNewTile, counter') =>
              let nextScore := score s + scoreGained mr in
              let reached2048 := containsTargetTile withNewTile 2048 in
              match hasAvailableMoves withNewTile with
              | None => None
              | Some available =>
                  Some (mkSession withNewTile nextScore
                          (Z.max (bestScore s) nextScore)
                          (negb available)
                          (hasWon s || reached2048)
                          counter')
              end
          end
    end.

(** [handleNewGame], without the run history and the notification. *)
Definition handleNewGame (s : Session) (draws : nat → Draw) : option Session :=
  match generateInitialTiles 0 draws with
  | None => None
  | Some (ts, counter') => Some (mkSession ts 0 (bestScore s) false false counter')
  end.

(** The first render: [useState] initialisers with a counter at 0. *)
Definition initialSession (draws : nat → Draw) : option Session :=
  match generateInitialTiles 0 draws with
  | None => None
  | Some (ts, counter') => Some (mkSession ts 0 0 false false counter')
  end.


(** ** Notions used by the properties *)

Definition sum_values (ts : list Tile) : Z :=
  foldr (λ t acc, value t + acc) 0 ts.

(** Every cell of the board, row by row. *)
Definition cells : list (Z * Z) := r ← indices; c ← indices; [(r, c)].

(** The occupancy invariant: coordinates in range and pairwise distinct. *)
Definition occupancy (ts : list Tile) : Prop :=
  Forall (λ t, in_board (row t) = true ∧ in_board (col t) = true) ts
  ∧ NoDup (coords <$> ts).

(** Orthogonal neighbours. *)
Definition adjacent (a b : Tile) : Prop :=
  (row a = row b ∧ Z.abs (col a - col b) = 1)
  ∨ (col a = col b ∧ Z.abs (row a - row b) = 1).

(** The loop shared by [slideRow] and [slideColumn], over its body. *)
Fixpoint scan (step : Tile → bool → Line → Line) (sorted : list Tile) (acc : Line) : Line :=
  match sorted with
  | [] => acc
  | tile :: rest =>
      match rest with
      | nextTile :: rest' =>
          if value nextTile =? value tile
          then scan step rest' (step tile true acc)
          else scan step rest (step tile false acc)
      | [] => scan step rest (step tile false acc)
      end
  end.

(** The slot that receives the tile number [ti] of a line, and the distance
    of a tile from the edge the line moves to. *)
Definition target (low : bool) (ti : Z) : Z :=
  if low then ti else BOARD_SIZE - 1 - ti.
Definition pos (low : bool) (along : Tile → Z) (t : Tile) : Z :=
  if low then along t else BOARD_SIZE - 1 - along t.

(** [collapsed sorted out]: [out] arises from [sorted] by keeping a tile
    or by merging a tile with its equal-valued successor, never both. *)
Inductive collapsed : list Tile → list Tile → Prop :=
  | collapsed_nil : collapsed [] []
  | collapsed_keep pre outs t t' :
      collapsed pre outs →
      id t' = id t → value t' = value t → justMerged t' = false →
      collapsed (pre ++ [t]) (outs ++ [t'])
  | collapsed_merge pre outs t n t' :
      collapsed pre outs →
      id t' = id t → value n = value t → value t' = value t * 2 →
      justMerged t' = true →
      collapsed (pre ++ [t; n]) (outs ++ [t']).

(** Boards that the game can show: the initial setup, then moves and
    spawns in any order. *)
Inductive reachable : list Tile → Prop :=
  | reachable_initial counter draws ts counter' :
      generateInitialTiles counter draws = Some (ts, counter') → reachable ts
  | reachable_move ts direction mr :
      reachable ts → moveTiles ts direction = Some mr → reachable (tiles mr)
  | reachable_spawn ts counter d ts' counter' :
      reachable ts → addRandomTile ts counter d = Some (ts', counter') →
      reachable ts'.

(** Sessions that the game can be in. *)
Inductive reachable_session : Session → Prop :=
  | session_initial draws s :
      initialSession draws = Some s → reachable_session s
  | session_move s direction d s' :
      reachable_session s → handleMove s direction d = Some s' →
      reachable_session s'
  | session_new s draws s' :
      reachable_session s → handleNewGame s draws = Some s' →
      reachable_session s'.

(** ** Notions used by the proofs *)

(** What one iteration does, said once for both kinds of line: [along] is
    the coordinate that changes ([col] in a row), [across] the one that
    names the line, [low] tells whether the line moves to index 0. *)
Record step_spec (along across : Tile → Z) (low : bool) (idx : Z)
    (step : Tile → bool → Line → Line) : Prop := {
  step_out : ∀ t m acc, ∃ t',
    line_tiles (step t m acc) = line_tiles acc ++ [t']
    ∧ id t' = id t
    ∧ value t' = (if m then value t * 2 else value t)
    ∧ justMerged t' = m
    ∧ isNew t' = isNew t
    ∧ along t' = target low (targetIndex acc)
    ∧ across t' = idx;
  step_score : ∀ t m acc,
    line_score (step t m acc) =
    if m then line_score acc + value t * 2 else line_score acc;
  step_index : ∀ t m acc, targetIndex (step t m acc) = targetIndex acc + 1;
  step_moved : ∀ t m acc,
    line_moved (step t m acc) =
    line_moved acc || m
    || (negb (along t =? target low (targetIndex acc)) || negb (across t =? idx));
}.

(** Tiles in strict order of distance from the destination edge, none
    nearer than [ti], all on the line [idx]. *)
Definition ordered (along across : Tile → Z) (low : bool) (idx : Z)
    (ti : Z) (l : list Tile) : Prop :=
  StronglySorted (λ a b, pos low along a < pos low along b) l
  ∧ Forall (λ t, ti <= pos low along t < BOARD_SIZE ∧ across t = idx) l.

(** A grid built from a board stores every tile under its coordinates. *)
Definition grid_ok (g : gmap (Z * Z) Tile) : Prop :=
  ∀ k t, g !! k = Some t → coords t = k.

(** The tiles of line [idx], read off the grid: [cell idx j] is the key of
    the [j]-th cell of the line. *)
Definition extract (g : gmap (Z * Z) Tile) (cell : Z → Z → Z * Z) (idx : Z)
    : list Tile :=
  omap (λ j, g !! cell idx j) indices.

(** The loop over the lines, for a given way to collapse one. *)
Definition sweep (line : list Tile → Z → Line) (g : gmap (Z * Z) Tile)
    (cell : Z → Z → Z * Z) : MoveResult :=
  foldl (λ acc idx, add_line acc (line (extract g cell idx) idx)) move_start indices.

(** A line collapsed by the body [step] after sorting with [cmp]. *)
Definition line_of (step : Z → Tile → bool → Line → Line) (cmp : Tile → Tile → Z)
    (l : list Tile) (idx : Z) : Line :=
  scan (step idx) (sort_by cmp l) line_start.

(** The keys read by the lines [seen], and the slots these lines can fill. *)
Definition keys_of (cell : Z → Z → Z * Z) (seen : list Z) : list (Z * Z) :=
  idx ← seen; cell idx <$> indices.
Definition slots_of (low : bool) (cell : Z → Z → Z * Z) (seen : list Z)
    : list (Z * Z) :=
  idx ← seen; (λ j, cell idx (target low j)) <$> indices.

(** The comparators and the cells of rows and of columns. *)
Definition row_cmp (d : Direction) (a b : Tile) : Z :=
  if is_left d then col a - col b else col b - col a.
Definition column_cmp (d : Direction) (a b : Tile) : Z :=
  if is_up d then row a - row b else row b - row a.

Definition row_cell (r c : Z) : Z * Z := (r, c).
Definition column_cell (c r : Z) : Z * Z := (r, c).

(** The lines of a move, before the final sort. *)
Definition move_lines (g : gmap (Z * Z) Tile) (d : Direction) : MoveResult :=
  if is_horizontal d then move_rows g d else move_columns g d.

(** The tile added by a spawn. *)
Definition spawned (counter : Z) (d : Draw) (choice : Z * Z) : Tile :=
  mkTile (counter + 1) (spawn_value d) choice.1 choice.2 true false.

(** * Further properties of the engine and of its callers *)

(** ** The run history, the shake trigger and the swipe

    More of [HomeScreen] and of [GameProvider] (src/app/leaderboard.tsx).
    [Date.now()] and the formatted time are inputs; so is the outcome of
    the floating-point test [magnitude > SHAKE_THRESHOLD].  The offsets
    [dx] and [dy] of a gesture are finite numbers, compared exactly: they
    are rationals here. *)

Inductive GameResetReason := manual | sensor | menu.

Record RecentRun := mkRecentRun {
  run_id : Z;
  run_score : Z;
  run_timestamp : string;
  triggeredBy : GameResetReason;
}.

(** The updater that [handleNewGame] of [HomeScreen] passes to
    [setRecentRuns]; [previousScore] is [scoreRef.current]. *)
Definition handleNewGame_runs (previousScore : Z) (reason : GameResetReason)
    (now : Z) (timestamp : string) (runs : list RecentRun) : list RecentRun :=
  if previousScore <=? 0 then runs
  else take 5 (mkRecentRun now previousScore timestamp reason :: runs).

(** [addRecentRun] of [GameProvider], as a function of the history. *)
Definition addRecentRun (score_ : Z) (reason : GameResetReason)
    (now : Z) (timestamp : string) (runs : list RecentRun) : list RecentRun :=
  if score_ <=? 0 then runs
  else take 10 (mkRecentRun now score_ timestamp reason :: runs).

Definition SHAKE_DEBOUNCE_MS : Z := 2200.

(** The accelerometer listener: [strong] is [magnitude > SHAKE_THRESHOLD],
    [now] is [Date.now()]; the result tells whether a new game is started,
    with the new value of [lastShakeTimeRef]. *)
Definition shake_listener (strong : bool) (now : Z) (lastShakeTime : Z) : bool * Z :=
  if strong && (SHAKE_DEBOUNCE_MS <? now - lastShakeTime)
  then (true, now) else (false, lastShakeTime).

(** The times at which a sequence of readings starts a new game. *)
Fixpoint shakes (readings : list (bool * Z)) (lastShakeTime : Z) : list Z :=
  match readings with
  | [] => []
  | (strong, now) :: rest =>
      let '(fired, last') := shake_listener strong now lastShakeTime in
      if fired then now :: shakes rest last' else shakes rest last'
  end.

(** [a < b] on numbers. *)
Definition Qlt_b (a b : Q) : bool := negb (Qle_bool b a).

(** [onPanResponderRelease]: the direction handed to [handleMove], if any. *)
Definition swipe (dx dy : Q) : option Direction :=
  if Qlt_b (Qabs dx) 12 && Qlt_b (Qabs dy) 12 then None
  else if Qlt_b (Qabs dy) (Qabs dx)
       then Some (if Qlt_b 0 dx then right else left)
       else Some (if Qlt_b 0 dy then down else up).

(** ** Notions *)

(** A line that a collapse leaves as it is: the tiles sit in the slots
    [ti], [ti + 1], ... counted from the destination edge and no tile has
    the value of its successor. *)
Fixpoint settled (low : bool) (along : Tile → Z) (l : list Tile) (ti : Z) : bool :=
  match l with
  | [] => true
  | t :: rest =>
      (pos low along t =? ti)
      && match rest with
         | n :: _ => negb (value n =? value t)
         | [] => true
         end
      && settled low along rest (ti + 1)
  end.

(** The values of the tiles marked [justMerged], added up. *)
Definition merged_sum (ts : list Tile) : Z :=
  sum_values (filter (λ t, justMerged t = true) ts).

(** The cell next to a tile on the side a move goes to, and the tiles on
    the edge of that side. *)
Definition toward (d : Direction) (t : Tile) : Z * Z :=
  match d with
  | left => (row t, col t - 1)
  | right => (row t, col t + 1)
  | up => (row t - 1, col t)
  | down => (row t + 1, col t)
  end.

Definition at_edge (d : Direction) (t : Tile) : Prop :=
  match d with
  | left => col t = 0
  | right => col t = BOARD_SIZE - 1
  | up => row t = 0
  | down => row t = BOARD_SIZE - 1
  end.

(** A tile that a move cannot change: it is on the edge, or the next cell
    holds a tile of another value. *)
Definition stuck (d : Direction) (ts : list Tile) (t : Tile) : Prop :=
  at_edge d t ∨ ∃ u, u ∈ ts ∧ coords u = toward d t ∧ value u ≠ value t.

(** The cell [n] steps from a tile on the side a move goes to. *)
Definition shifted (d : Direction) (n : Z) (t : Tile) : Z * Z :=
  match d with
  | left => (row t, col t - n)
  | right => (row t, col t + n)
  | up => (row t - n, col t)
  | down => (row t + n, col t)
  end.

(** Tile values of the game: 2, 4, 8, ... *)
Definition power_of_two (v : Z) : Prop :=
  ∃ k : nat, (0 < k)%nat ∧ v = 2 ^ Z.of_nat k.

(** What holds of every session that the game can be in. *)
Record session_ok (s : Session) : Prop := {
  ok_occupancy : occupancy (s_tiles s);
  ok_nonempty : s_tiles s ≠ [];
  ok_ids : NoDup (id <$> s_tiles s);
  ok_id_range : Forall (λ t, 0 < id t <= tileIdRef s) (s_tiles s);
  ok_values : Forall (λ t, power_of_two (value t)) (s_tiles s);
  ok_score : 0 <= score s <= bestScore s;
  ok_gameOver : hasAvailableMoves (s_tiles s) = Some (negb (gameOver s));
  ok_hasWon : hasWon s = false → Forall (λ t, value t < 2048) (s_tiles s);
}.

(** A session to try things on: the first render when every draw picks
    the first empty cell and the value 2. *)
Definition sample_session : Session :=
  mkSession [mkTile 1 2 0 0 true false; mkTile 2 2 0 1 true false] 0 0 false false 2.

(** Row first, then column. *)
Definition before (a b : Tile) : Prop :=
  row a < row b ∨ (row a = row b ∧ col a < col b).

(** What a tile of value [v] has earned when it was built from spawned
    2s only: [v * (log2 v - 1)], that is 0 for a 2, 4 for a 4, 16 for an 8. *)
Definition earned (v : Z) : Z := v * (Z.log2 v - 1).

Definition earned_sum (ts : list Tile) : Z :=
  foldr (λ t acc, earned (value t) + acc) 0 ts.

(** The board seen in a mirror (columns reversed) and across the diagonal
    (rows and columns exchanged), with the directions that correspond. *)
Definition mirror (t : Tile) : Tile :=
  mkTile (id t) (value t) (row t) (BOARD_SIZE - 1 - col t) (isNew t) (justMerged t).

Definition transpose (t : Tile) : Tile :=
  mkTile (id t) (value t) (col t) (row t) (isNew t) (justMerged t).

Definition opposite (d : Direction) : Direction :=
  match d with left => right | right => left | up => down | down => up end.

Definition turn (d : Direction) : Direction :=
  match d with left => up | up => left | right => down | down => right end.

Definition map_line (f : Tile → Tile) (l : Line) : Line :=
  mkLine (f <$> line_tiles l) (line_moved l) (line_score l) (targetIndex l).

Definition map_result (f : Tile → Tile) (r : MoveResult) : MoveResult :=
  mkMoveResult (f <$> tiles r) (moved r) (scoreGained r).

(** The scan of a line, by the states it goes through: [stands_at sorted k]
    when the loop over [sorted] comes to a point where the tiles [k] are
    left to scan, the first of them being the current tile. *)
Inductive stands_at (sorted : list Tile) : list Tile → Prop :=
  | stands_first : stands_at sorted sorted
  | stands_after_merge t n rest :
      stands_at sorted (t :: n :: rest) → value n = value t →
      stands_at sorted rest
  | stands_after_keep t rest :
      stands_at sorted (t :: rest) →
      (∀ n rest', rest = n :: rest' → value n ≠ value t) →
      stands_at sorted rest.

(** Two games written down move by move, to have sessions at hand in which
    the game is over and in which it is won.  An entry packs the direction,
    the empty cell picked for the spawn and whether a 2 is spawned. *)
Definition decode_move (code : nat) : Direction * Draw :=
  (match ((code / 2) mod 4)%nat with
   | 0%nat => up | 1%nat => down | 2%nat => left | _ => right
   end,
   mkDraw (code / 8) (Nat.eqb (code mod 2) 1)).

Fixpoint play (s : Session) (codes : list nat) : option Session :=
  match codes with
  | [] => Some s
  | code :: rest =>
      match handleMove s (decode_move code).1 (decode_move code).2 with
      | Some s' => play s' rest
      | None => None
      end
  end.

Definition lost_moves : list nat :=
  [
   34; 71; 68; 27; 74; 39; 12; 37; 15; 30; 5; 23; 4; 6
  ]%nat.

Definition won_moves : list nat :=
  [
   12; 4; 4; 4; 12; 4; 4; 4; 12; 4; 4; 4; 36; 24; 0; 12;
   4; 4; 12; 4; 4; 4; 28; 16; 38; 0; 28; 16; 38; 0; 22; 0;
   4; 4; 12; 4; 4; 4; 28; 16; 38; 0; 28; 16; 38; 0; 22; 0;
   4; 4; 28; 16; 38; 0; 22; 0; 28; 16; 24; 78; 0; 6; 6; 14;
   0; 12; 4; 4; 12; 4; 4; 4; 28; 16; 0; 12; 12; 4; 20; 8;
   30; 62; 8; 8; 4; 4; 20; 8; 30; 62; 8; 8; 20; 8; 16; 70;
   0; 6; 12; 14; 6; 0; 4; 0; 20; 8; 16; 70; 0; 6; 6; 14;
   0; 12; 4; 20; 40; 0; 6; 0; 6; 0; 6; 6; 6; 6; 6; 6;
   6; 0; 4; 4; 12; 4; 4; 4; 28; 16; 0; 12; 12; 4; 20; 8;
   30; 62; 8; 8; 4; 4; 20; 8; 30; 62; 8; 8; 20; 8; 16; 70;
   0; 6; 12; 14; 6; 0; 4; 0; 20; 8; 16; 70; 0; 6; 6; 14;
   0; 12; 4; 20; 40; 0; 6; 0; 6; 0; 6; 6; 6; 6; 6; 6;
   6; 0; 4; 4; 28; 16; 0; 12; 26; 0; 0; 30; 0; 20; 8; 0;
   8; 62; 8; 12; 6; 0; 4; 0; 20; 22; 6; 22; 22; 22; 0; 8;
   8; 22; 6; 0; 20; 8; 4; 0; 6; 8; 62; 0; 6; 6; 6; 6;
   6; 0; 6; 6; 6; 6; 6; 6; 6; 6; 6; 6; 14; 0; 0; 12;
   6; 38; 0; 14; 4; 4; 12; 4; 4; 12; 24; 16; 38; 0; 22; 0;
   4; 4; 28; 16; 38; 0; 22; 0; 28; 16; 24; 78; 0; 6; 6; 14;
   0; 12; 4; 4; 28; 16; 0; 12; 26; 0; 0; 30; 0; 20; 8; 0;
   8; 62; 8; 12; 6; 0; 4; 0; 20; 22; 6; 22; 22; 22; 0; 8;
   8; 22; 6; 0; 4; 4; 20; 8; 0; 12; 0; 6; 26; 8; 16; 78;
   0; 28; 0; 20; 40; 0; 6; 0; 6; 0; 6; 6; 6; 6; 6; 6;
   6; 0; 4; 20; 40; 0; 6; 0; 6; 0; 6; 6; 6; 6; 6; 6;
   6; 0; 6; 6; 6; 6; 6; 6; 6; 6; 6; 6; 14; 0; 0; 12;
   6; 38; 0; 14; 12; 4; 20; 8; 0; 12; 0; 6; 26; 8; 16; 78;
   0; 28; 0; 20; 40; 0; 6; 0; 6; 0; 6; 6; 6; 6; 6; 6;
   6; 0; 4; 20; 40; 0; 6; 0; 6; 0; 6; 6; 6; 6; 6; 6;
   6; 0; 6; 6; 6; 6; 6; 6; 6; 6; 6; 6; 14; 0; 0; 12;
   6; 38; 0; 28; 16; 8; 4; 0; 6; 8; 62; 0; 6; 6; 6; 6;
   6; 0; 6; 6; 6; 6; 6; 6; 6; 6; 6; 6; 14; 0; 0; 12;
   6; 38; 0; 6; 6; 6; 6; 6; 6; 6; 6; 6; 14; 0; 0; 12;
   6; 6; 6; 6; 6; 6; 14; 0; 20; 0; 14; 0; 20; 0; 4; 0;
   6; 6; 6; 0; 4; 4; 12
  ]%nat.

Definition lost_first (i : nat) : Draw :=
  match i with 0%nat => mkDraw 2 true | _ => mkDraw 3 false end.

Definition won_first (i : nat) : Draw := mkDraw 0 false.

(** The sessions these games end in. *)
Definition lost_session : Session :=
  mkSession
    [mkTile 11 2 0 0 false false; mkTile 9 4 0 1 false false;
     mkTile 13 2 0 2 false false; mkTile 15 4 0 3 false false;
     mkTile 8 2 1 1 false false; mkTile 3 4 1 2 false false;
     mkTile 10 2 1 3 false false; mkTile 14 2 2 0 false false;
     mkTile 12 4 2 1 false false; mkTile 4 2 2 2 false false;
     mkTile 7 4 2 3 false false; mkTile 2 4 3 0 false false;
     mkTile 1 2 3 1 false false; mkTile 5 4 3 2 false false;
     mkTile 6 2 3 3 false false; mkTile 16 4 1 0 true false]
    0 0 true false 16.

Definition won_session : Session :=
  mkSession
    [mkTile 1 2048 0 0 false true; mkTile 519 8 0 1 false true;
     mkTile 517 8 1 0 false false; mkTile 515 16 1 1 false false;
     mkTile 521 4 0 3 true false]
    18480 18480 false true 521.

(** A full history of the game context, newest first. *)
Definition sample_runs : list RecentRun :=
  (λ i, mkRecentRun (1700000000010 - i) (8 + i) "earlier" manual) <$> seqZ 0 10.

(** * Proofs *)

(** ** Sorting *)

Lemma insert_by_perm cmp x l : insert_by cmp x l ≡ₚ x :: l.
Proof.
  induction l as [|y l IH]; simpl; [done|].
  destruct (cmp x y <=? 0); [done|].
  rewrite IH. apply Permutation_swap.
Qed.

Lemma sort_by_perm cmp l : sort_by cmp l ≡ₚ l.
Proof.
  induction l as [|x l IH]; simpl; [done|].
  unfold sort_by in *. simpl. by rewrite insert_by_perm, IH.
Qed.

Section SortKey.
Variables (cmp : Tile → Tile → Z) (key : Tile → Z).
Hypothesis cmp_key : ∀ a b, cmp a b <= 0 ↔ key a <= key b.

Lemma insert_by_sorted x l :
  StronglySorted (λ a b, key a <= key b) l →
  StronglySorted (λ a b, key a <= key b) (insert_by cmp x l).
Proof.
  induction 1 as [|y l Hs IH Hy]; simpl.
  - repeat constructor.
  - destruct (Z.leb_spec (cmp x y) 0) as [Hle|Hgt].
    + apply cmp_key in Hle. constructor; [by constructor|].
      constructor; [done|].
      eapply Forall_impl; [exact Hy|]. simpl. intros; lia.
    + assert (key y <= key x) as Hyx.
      { destruct (Z.le_gt_cases (key x) (key y)) as [Hxy|Hxy]; [|lia].
        apply cmp_key in Hxy. lia. }
      constructor; [done|].
      rewrite insert_by_perm. by constructor.
Qed.

Lemma sort_by_sorted l :
  StronglySorted (λ a b, key a <= key b) (sort_by cmp l).
Proof.
  induction l as [|x l IH]; [constructor|].
  unfold sort_by in *. simpl. by apply insert_by_sorted.
Qed.

(** With distinct keys the order is strict. *)
Lemma sort_by_strict l :
  NoDup (key <$> l) →
  StronglySorted (λ a b, key a < key b) (sort_by cmp l).
Proof.
  intros Hnd.
  assert (NoDup (key <$> sort_by cmp l)) as Hnd'
    by (by rewrite sort_by_perm).
  pose proof (sort_by_sorted l) as Hs.
  induction Hs as [|x k Hs IH Hx]; [constructor|].
  rewrite fmap_cons, NoDup_cons in Hnd'. destruct Hnd' as [Hx' Hk].
  constructor; [by apply IH|].
  rewrite Forall_forall in Hx |- *. intros y Hy.
  assert (key x ≠ key y).
  { intros Heq. apply Hx'. rewrite Heq. by apply list_elem_of_fmap_2. }
  specialize (Hx y Hy). lia.
Qed.
End SortKey.

(** ** The scan *)

Lemma scan_cons2 step t n rest acc :
  scan step (t :: n :: rest) acc =
  if value n =? value t then scan step rest (step t true acc)
  else scan step (n :: rest) (step t false acc).
Proof. reflexivity. Qed.

Lemma slideRow_loop_cons2 r d t n rest acc :
  slideRow_loop r d (t :: n :: rest) acc =
  if value n =? value t then slideRow_loop r d rest (slideRow_step r d t true acc)
  else slideRow_loop r d (n :: rest) (slideRow_step r d t false acc).
Proof. reflexivity. Qed.

Lemma slideColumn_loop_cons2 c d t n rest acc :
  slideColumn_loop c d (t :: n :: rest) acc =
  if value n =? value t then slideColumn_loop c d rest (slideColumn_step c d t true acc)
  else slideColumn_loop c d (n :: rest) (slideColumn_step c d t false acc).
Proof. reflexivity. Qed.

Lemma slideRow_loop_scan r d l acc :
  slideRow_loop r d l acc = scan (slideRow_step r d) l acc.
Proof.
  remember (length l) as k eqn:Hk. revert l acc Hk.
  induction (lt_wf k) as [k _ IH]. intros [|t [|n rest]] acc Hk; try done.
  rewrite scan_cons2, slideRow_loop_cons2.
  destruct (value n =? value t).
  - apply (IH (length rest)); [subst k; simpl; lia|done].
  - apply (IH (length (n :: rest))); [subst k; simpl; lia|done].
Qed.

Lemma slideColumn_loop_scan c d l acc :
  slideColumn_loop c d l acc = scan (slideColumn_step c d) l acc.
Proof.
  remember (length l) as k eqn:Hk. revert l acc Hk.
  induction (lt_wf k) as [k _ IH]. intros [|t [|n rest]] acc Hk; try done.
  rewrite scan_cons2, slideColumn_loop_cons2.
  destruct (value n =? value t).
  - apply (IH (length rest)); [subst k; simpl; lia|done].
  - apply (IH (length (n :: rest))); [subst k; simpl; lia|done].
Qed.

(** The proof rule of the loop: a property of the pair (tiles still to
    scan, accumulators) kept by every kind of iteration holds at exit. *)
Section ScanRule.
Variable step : Tile → bool → Line → Line.
Variable P : list Tile → Line → Prop.
Hypothesis P_last : ∀ t acc, P [t] acc → P [] (step t false acc).
Hypothesis P_merge : ∀ t n rest acc,
  P (t :: n :: rest) acc → value n = value t → P rest (step t true acc).
Hypothesis P_keep : ∀ t n rest acc,
  P (t :: n :: rest) acc → value n ≠ value t → P (n :: rest) (step t false acc).

Lemma scan_rule l acc : P l acc → P [] (scan step l acc).
Proof.
  remember (length l) as k eqn:Hk. revert l acc Hk.
  induction (lt_wf k) as [k _ IH]. intros [|t [|n rest]] acc Hk HP.
  - done.
  - by apply P_last.
  - rewrite scan_cons2.
    destruct (Z.eqb_spec (value n) (value t)) as [Heq|Hne].
    + apply (IH (length rest)); [subst k; simpl; lia|done|by eapply P_merge].
    + apply (IH (length (n :: rest))); [subst k; simpl; lia|done|by eapply P_keep].
Qed.
End ScanRule.

Lemma slideRow_step_spec r d : step_spec col row (is_left d) r (slideRow_step r d).
Proof.
  split; intros t m acc; unfold slideRow_step, target; simpl.
  - eexists; split; [reflexivity|]. by destruct m.
  - by destruct m.
  - done.
  - done.
Qed.

Lemma slideColumn_step_spec c d : step_spec row col (is_up d) c (slideColumn_step c d).
Proof.
  split; intros t m acc; unfold slideColumn_step, target; simpl.
  - eexists; split; [reflexivity|]. by destruct m.
  - by destruct m.
  - done.
  - done.
Qed.

Section LineFacts.
Variables (along across : Tile → Z) (low : bool) (idx : Z).
Variable step : Tile → bool → Line → Line.
Hypothesis Hstep : step_spec along across low idx step.

Lemma scan_collapsed_from L l pre acc :
  L = pre ++ l → collapsed pre (line_tiles acc) →
  collapsed L (line_tiles (scan step l acc)).
Proof.
  intros HL Hc.
  cut (∃ pre', L = pre' ++ [] ∧ collapsed pre' (line_tiles (scan step l acc))).
  { intros (pre' & -> & ?). by rewrite app_nil_r. }
  apply (scan_rule step (λ l acc, ∃ pre, L = pre ++ l ∧ collapsed pre (line_tiles acc))).
  - intros t a (p & -> & Hp).
    destruct (step_out _ _ _ _ _ Hstep t false a) as (t' & -> & ? & ? & ? & _).
    exists (p ++ [t]). split; [by rewrite app_nil_r|]. by constructor.
  - intros t n rest a (p & -> & Hp) Hv.
    destruct (step_out _ _ _ _ _ Hstep t true a) as (t' & -> & ? & ? & ? & _).
    exists (p ++ [t; n]). split; [by rewrite <- app_assoc|]. by constructor.
  - intros t n rest a (p & -> & Hp) Hv.
    destruct (step_out _ _ _ _ _ Hstep t false a) as (t' & -> & ? & ? & ? & _).
    exists (p ++ [t]). split; [by rewrite <- app_assoc|]. by constructor.
  - eauto.
Qed.

Lemma scan_collapsed l : collapsed l (line_tiles (scan step l line_start)).
Proof. apply (scan_collapsed_from l l []); [done|constructor]. Qed.

(** The ids emitted by a scan are ids of the scanned tiles, in order. *)
Lemma scan_ids l acc :
  ∃ o, id <$> line_tiles (scan step l acc) = (id <$> line_tiles acc) ++ o
       ∧ o `sublist_of` (id <$> l).
Proof.
  cut (∃ pre o, l = pre ++ []
         ∧ id <$> line_tiles (scan step l acc) = (id <$> line_tiles acc) ++ o
         ∧ o `sublist_of` (id <$> pre)).
  { intros (pre & o & E & ? & ?). rewrite app_nil_r in E. subst pre. by exists o. }
  apply (scan_rule step (λ k a, ∃ pre o, l = pre ++ k
           ∧ id <$> line_tiles a = (id <$> line_tiles acc) ++ o
           ∧ o `sublist_of` (id <$> pre))).
  - intros t a (p & o & -> & Ha & Hsub).
    destruct (step_out _ _ _ _ _ Hstep t false a) as (t' & -> & Hi & _).
    exists (p ++ [t]), (o ++ [id t']). split; [by rewrite app_nil_r|].
    rewrite !fmap_app, Ha, app_assoc. split; [done|].
    apply sublist_app; [done|]. simpl. by rewrite Hi.
  - intros t n rest a (p & o & -> & Ha & Hsub) _.
    destruct (step_out _ _ _ _ _ Hstep t true a) as (t' & -> & Hi & _).
    exists (p ++ [t; n]), (o ++ [id t']). split; [by rewrite <- app_assoc|].
    rewrite !fmap_app, Ha, app_assoc. split; [done|].
    apply sublist_app; [done|]. simpl. rewrite Hi.
    apply sublist_skip, sublist_cons, sublist_nil_l.
  - intros t n rest a (p & o & -> & Ha & Hsub) _.
    destruct (step_out _ _ _ _ _ Hstep t false a) as (t' & -> & Hi & _).
    exists (p ++ [t]), (o ++ [id t']). split; [by rewrite <- app_assoc|].
    rewrite !fmap_app, Ha, app_assoc. split; [done|].
    apply sublist_app; [done|]. simpl. by rewrite Hi.
  - exists [], []. split; [done|]. by rewrite app_nil_r.
Qed.

Lemma scan_score_nonneg l acc :
  Forall (λ t, 0 <= value t) l → line_score acc <= line_score (scan step l acc).
Proof.
  intros Hl.
  apply (scan_rule step
    (λ l a, Forall (λ t, 0 <= value t) l ∧ line_score acc <= line_score a));
    [| | |done].
  - intros t a [Hf Hs]. rewrite (step_score _ _ _ _ _ Hstep). by split.
  - intros t n rest a [Hf Hs] _. rewrite (step_score _ _ _ _ _ Hstep).
    inversion Hf as [|?? Ht Hf']; subst. inversion Hf'; subst.
    split; [done|lia].
  - intros t n rest a [Hf Hs] _. rewrite (step_score _ _ _ _ _ Hstep).
    inversion Hf; subst. by split.
Qed.

(** The output fills the slots [0 .. k-1] from the destination edge, in
    this order, for some [k] not above the number of tiles scanned. *)
Lemma scan_targets l :
  let res := scan step l line_start in
  0 <= targetIndex res <= Z.of_nat (length l)
  ∧ (λ t, (along t, across t)) <$> line_tiles res
    = (λ j, (target low j, idx)) <$> seqZ 0 (targetIndex res).
Proof.
  set (P := λ (k : list Tile) (a : Line),
    0 <= targetIndex a ∧ targetIndex a + Z.of_nat (length k) <= Z.of_nat (length l)
    ∧ (λ t, (along t, across t)) <$> line_tiles a
      = (λ j, (target low j, idx)) <$> seqZ 0 (targetIndex a)).
  assert (∀ t m a, P [] a ∨ 0 <= targetIndex a →
    0 <= targetIndex a →
    (λ t, (along t, across t)) <$> line_tiles a
      = (λ j, (target low j, idx)) <$> seqZ 0 (targetIndex a) →
    (λ t, (along t, across t)) <$> line_tiles (step t m a)
      = (λ j, (target low j, idx)) <$> seqZ 0 (targetIndex (step t m a))) as Hpush.
  { intros t m a _ Hti Heq.
    destruct (step_out _ _ _ _ _ Hstep t m a) as (t' & -> & _ & _ & _ & _ & Hal & Hac).
    rewrite (step_index _ _ _ _ _ Hstep).
    rewrite seqZ_app by lia. rewrite !fmap_app, Heq. simpl.
    by rewrite Hal, Hac. }
  cut (P [] (scan step l line_start)).
  { unfold P. simpl. intros (? & ? & ?). split; [lia|done]. }
  apply (scan_rule step P).
  - intros t a (Hti & Hlen & Heq). unfold P.
    rewrite (step_index _ _ _ _ _ Hstep) at 1 2.
    simpl in *. split; [lia|]. split; [lia|]. by apply Hpush; auto.
  - intros t n rest a (Hti & Hlen & Heq) _. unfold P.
    rewrite (step_index _ _ _ _ _ Hstep) at 1 2.
    simpl in *. split; [lia|]. split; [lia|]. by apply Hpush; auto.
  - intros t n rest a (Hti & Hlen & Heq) _. unfold P.
    rewrite (step_index _ _ _ _ _ Hstep) at 1 2.
    simpl in *. split; [lia|]. split; [lia|]. by apply Hpush; auto.
  - unfold P. simpl. split; [lia|]. split; [lia|]. done.
Qed.

Lemma ordered_tail ti t l :
  ordered along across low idx ti (t :: l) →
  ordered along across low idx (pos low along t + 1) l.
Proof.
  intros [Hs Hf].
  apply StronglySorted_inv in Hs as [Hs Ht]. apply Forall_cons in Hf as [_ Hf].
  split; [done|].
  rewrite Forall_forall in Hf, Ht |- *. intros x Hx.
  specialize (Hf x Hx). specialize (Ht x Hx). lia.
Qed.

Lemma ordered_weaken ti ti' l :
  ti' <= ti → ordered along across low idx ti l →
  ordered along across low idx ti' l.
Proof.
  intros Hle [Hs Hf]. split; [done|].
  eapply Forall_impl; [exact Hf|]. simpl. intros; lia.
Qed.

Lemma ordered_length ti t l :
  ordered along across low idx ti (t :: l) →
  ti + 1 + Z.of_nat (length l) <= BOARD_SIZE.
Proof.
  revert ti t. induction l as [|n l IH]; intros ti t Ho.
  - destruct Ho as [_ Hf]. apply Forall_cons in Hf as [Hf _]. simpl. lia.
  - pose proof (ordered_tail _ _ _ Ho) as Ho'.
    destruct Ho as [_ Hf]. apply Forall_cons in Hf as [Hf _].
    specialize (IH _ _ Ho'). simpl length. lia.
Qed.

(** A line that reports a move leaves a slot free. *)
Lemma scan_moved_room l :
  ordered along across low idx 0 l →
  line_moved (scan step l line_start) = true →
  targetIndex (scan step l line_start) < BOARD_SIZE.
Proof.
  intros Ho.
  set (P := λ (k : list Tile) (a : Line),
    ordered along across low idx (targetIndex a) k
    ∧ (line_moved a = true → targetIndex a + Z.of_nat (length k) < BOARD_SIZE)).
  cut (P [] (scan step l line_start)).
  { unfold P. simpl. intros [_ H] Hm. specialize (H Hm). lia. }
  assert (∀ t a, (along t =? target low (targetIndex a)) = false →
                 pos low along t ≠ targetIndex a) as Hoff.
  { intros t a H%Z.eqb_neq. unfold pos, target in *. destruct low; lia. }
  assert (∀ t a, (along t =? target low (targetIndex a)) = true →
                 pos low along t = targetIndex a) as Hon.
  { intros t a H%Z.eqb_eq. unfold pos, target in *. destruct low; lia. }
  apply (scan_rule step P); unfold P.
  - intros t a [Ho1 Hm1].
    rewrite (step_index _ _ _ _ _ Hstep), (step_moved _ _ _ _ _ Hstep).
    split; [split; constructor|]. simpl length in *.
    destruct Ho1 as [_ Hf]. apply Forall_cons in Hf as [[Hpos Hac] _].
    destruct (line_moved a); [specialize (Hm1 eq_refl); lia|].
    simpl. rewrite Hac, Z.eqb_refl. simpl. rewrite orb_false_r.
    destruct (along t =? _) eqn:E; [done|]. apply Hoff in E. lia.
  - intros t n rest a [Ho1 Hm1] _.
    rewrite (step_index _ _ _ _ _ Hstep). 
    pose proof (ordered_length _ _ _ Ho1) as Hlen. simpl length in *.
    pose proof (ordered_tail _ _ _ Ho1) as Ho2.
    pose proof (ordered_tail _ _ _ Ho2) as Ho3.
    destruct Ho1 as [_ Hf]. apply Forall_cons in Hf as [[Hpos _] _].
    destruct Ho2 as [_ Hf]. apply Forall_cons in Hf as [[Hpos' _] _].
    split; [|lia].
    eapply ordered_weaken; [|exact Ho3]. lia.
  - intros t n rest a [Ho1 Hm1] _.
    rewrite (step_index _ _ _ _ _ Hstep), (step_moved _ _ _ _ _ Hstep).
    pose proof (ordered_tail _ _ _ Ho1) as Ho2.
    pose proof (ordered_length _ _ _ Ho2) as Hlen. simpl length in *.
    destruct Ho1 as [_ Hf]. apply Forall_cons in Hf as [[Hpos Hac] _].
    split; [eapply ordered_weaken; [|exact Ho2]; lia|].
    destruct (line_moved a); [specialize (Hm1 eq_refl); lia|].
    simpl. rewrite Hac, Z.eqb_refl. simpl. rewrite orb_false_r.
    destruct (along t =? _) eqn:E; [done|]. apply Hoff in E. lia.
  - split; [done|]. done.
Qed.
End LineFacts.

(** ** Sums of values *)

Lemma sum_values_app l k : sum_values (l ++ k) = sum_values l + sum_values k.
Proof. induction l as [|x l IH]; simpl; [done|]. rewrite IH. lia. Qed.

Lemma sum_values_perm l k : l ≡ₚ k → sum_values l = sum_values k.
Proof. induction 1; simpl; lia. Qed.

Lemma sum_values_clear l : sum_values (clear_flags <$> l) = sum_values l.
Proof. induction l as [|x l IH]; simpl; [done|]. f_equal. exact IH. Qed.

(** ** What a collapsed line keeps *)

Lemma collapsed_sum l out : collapsed l out → sum_values out = sum_values l.
Proof.
  induction 1 as [|pre outs t t' _ IH _ Hv _|pre outs t n t' _ IH _ Hn Hv _].
  - done.
  - rewrite !sum_values_app, IH. simpl. lia.
  - rewrite !sum_values_app, IH. simpl. lia.
Qed.

(** Every merge uses up one more tile: a tile is kept, or survives one
    merge, or is consumed by one merge. *)
Lemma collapsed_count l out :
  collapsed l out →
  length l = (length out + length (filter (λ t, justMerged t = true) out))%nat.
Proof.
  induction 1 as [|pre outs t t' _ IH _ _ Hj|pre outs t n t' _ IH _ _ _ Hj].
  - done.
  - rewrite filter_app, !length_app, IH. simpl.
    rewrite filter_cons_False by (rewrite Hj; done). simpl. lia.
  - rewrite filter_app, !length_app, IH. simpl.
    rewrite filter_cons_True by done. simpl. lia.
Qed.

Lemma collapsed_ids l out : collapsed l out → (id <$> out) `sublist_of` (id <$> l).
Proof.
  induction 1 as [|pre outs t t' _ IH Hi _ _|pre outs t n t' _ IH Hi _ _ _].
  - done.
  - rewrite !fmap_app. apply sublist_app; [done|]. simpl. by rewrite Hi.
  - rewrite !fmap_app. apply sublist_app; [done|]. simpl. rewrite Hi.
    apply sublist_skip, sublist_cons, sublist_nil_l.
Qed.

(** An output tile is an input tile, at its value when it did not merge
    and at twice its value when it did. *)
Lemma collapsed_origin l out :
  collapsed l out →
  Forall (λ t', ∃ t, t ∈ l ∧ id t' = id t
                ∧ (justMerged t' = false ∧ value t' = value t
                   ∨ justMerged t' = true ∧ value t' = value t * 2)) out.
Proof.
  induction 1 as [|pre outs t t' _ IH Hi Hv Hj|pre outs t n t' _ IH Hi Hn Hv Hj].
  - constructor.
  - apply Forall_app. split.
    + eapply Forall_impl; [exact IH|]. simpl. intros x (y & Hy & ?).
      exists y. split; [|done]. apply elem_of_app. by left.
    + constructor; [|constructor]. exists t. split; [|by auto].
      apply elem_of_app. right. by apply list_elem_of_singleton.
  - apply Forall_app. split.
    + eapply Forall_impl; [exact IH|]. simpl. intros x (y & Hy & ?).
      exists y. split; [|done]. apply elem_of_app. by left.
    + constructor; [|constructor]. exists t. split; [|by auto].
      apply elem_of_app. right. by left.
Qed.

(** A merged output tile comes from two neighbours of the scan order; it
    has the id of the first, and the id of the second is gone. *)
Lemma collapsed_merged l out :
  collapsed l out →
  ∀ t', t' ∈ out → justMerged t' = true →
    ∃ pre t n post, l = pre ++ t :: n :: post
      ∧ value n = value t ∧ id t' = id t ∧ value t' = value t * 2
      ∧ (NoDup (id <$> l) → id n ∉ id <$> out).
Proof.
  induction 1 as [|pre outs t t' Hc IH Hi Hv Hj|pre outs t n t' Hc IH Hi Hn Hv Hj];
    intros x Hx Hjx.
  - by apply elem_of_nil in Hx.
  - apply elem_of_app in Hx as [Hx|Hx].
    + destruct (IH x Hx Hjx) as (p & a & b & q & -> & ? & ? & ? & Hab).
      exists p, a, b, (q ++ [t]). split; [by rewrite <- app_assoc|].
      do 3 (split; [done|]). intros Hnd.
      rewrite fmap_app in Hnd. apply NoDup_app in Hnd as (Hnd & Hdis & _).
      rewrite fmap_app, elem_of_app. intros [Hin|Hin]; [by apply Hab|].
      simpl in Hin. apply list_elem_of_singleton in Hin.
      apply (Hdis (id b)); [|rewrite Hin, Hi; simpl; by left].
      rewrite fmap_app, elem_of_app. right. simpl. right. by left.
    + apply list_elem_of_singleton in Hx. subst x. congruence.
  - apply elem_of_app in Hx as [Hx|Hx].
    + destruct (IH x Hx Hjx) as (p & a & b & q & -> & ? & ? & ? & Hab).
      exists p, a, b, (q ++ [t; n]). split; [by rewrite <- app_assoc|].
      do 3 (split; [done|]). intros Hnd.
      rewrite fmap_app in Hnd. apply NoDup_app in Hnd as (Hnd & Hdis & _).
      rewrite fmap_app, elem_of_app. intros [Hin|Hin]; [by apply Hab|].
      simpl in Hin. apply list_elem_of_singleton in Hin.
      apply (Hdis (id b)); [|rewrite Hin, Hi; simpl; by left].
      rewrite fmap_app, elem_of_app. right. simpl. right. by left.
    + apply list_elem_of_singleton in Hx. subst x.
      exists pre, t, n, []. do 4 (split; [done|]). intros Hnd.
      rewrite fmap_app in Hnd. apply NoDup_app in Hnd as (Hnd & Hdis & Htn).
      simpl in Htn. apply NoDup_cons in Htn as [Htn _].
      rewrite fmap_app, elem_of_app. intros [Hin|Hin].
      * pose proof (collapsed_ids _ _ Hc) as Hsub.
        apply (Hdis (id n)); [|simpl; right; by left].
        eapply elem_of_sublist; [exact Hin|done].
      * simpl in Hin. apply list_elem_of_singleton in Hin.
        apply Htn. rewrite Hin, Hi. by left.
Qed.

Lemma collapsed_positive l out :
  collapsed l out → Forall (λ t, 0 < value t) l → Forall (λ t, 0 < value t) out.
Proof.
  intros Hc Hl. pose proof (collapsed_origin _ _ Hc) as Ho.
  eapply Forall_impl; [exact Ho|]. simpl.
  intros x (y & Hy & _ & Hv). rewrite Forall_forall in Hl. specialize (Hl y Hy).
  destruct Hv as [[_ ->]|[_ ->]]; lia.
Qed.

(** ** The grid *)

Lemma in_board_spec i : in_board i = true ↔ 0 <= i < BOARD_SIZE.
Proof. unfold in_board. rewrite andb_true_iff, Z.leb_le, Z.ltb_lt. done. Qed.

Lemma elem_of_indices i : i ∈ indices ↔ 0 <= i < BOARD_SIZE.
Proof. unfold indices. rewrite elem_of_seqZ. lia. Qed.

Lemma grid_fill_cons (t : Tile) (ts : list Tile) (g : gmap (Z * Z) Tile) :
  grid_fill (t :: ts) g =
  if in_board (row t) then grid_fill ts (<[coords t := t]> g) else None.
Proof. simpl. unfold grid_set. by destruct (in_board (row t)). Qed.

Lemma grid_fill_total (ts : list Tile) (g0 : gmap (Z * Z) Tile) :
  Forall (λ t, in_board (row t) = true) ts ↔ is_Some (grid_fill ts g0).
Proof.
  revert g0. induction ts as [|t ts IH]; intros g0.
  - split; [by eexists|constructor].
  - rewrite grid_fill_cons, Forall_cons. destruct (in_board (row t)).
    + rewrite (IH (<[coords t := t]> g0)). tauto.
    + split; [by intros [? _]|by intros [? ?]].
Qed.

(** A cell of the grid holds a tile of the board, the last one written
    with these coordinates. *)
Lemma grid_fill_lookup (ts : list Tile) (g0 g : gmap (Z * Z) Tile) k (t : Tile) :
  grid_fill ts g0 = Some g → g !! k = Some t →
  (t ∈ ts ∧ coords t = k) ∨ g0 !! k = Some t.
Proof.
  revert g0. induction ts as [|x ts IH]; intros g0 Hg Hk.
  - simpl in Hg. right. congruence.
  - rewrite grid_fill_cons in Hg. destruct (in_board (row x)); [|done].
    destruct (IH _ Hg Hk) as [[Hin Hc]|Hl].
    + left. split; [by right|done].
    + rewrite lookup_insert in Hl. case_decide as Hd.
      * left. injection Hl as <-. split; [by left|done].
      * by right.
Qed.

Lemma grid_fill_other (ts : list Tile) (g0 g : gmap (Z * Z) Tile) k :
  grid_fill ts g0 = Some g → k ∉ coords <$> ts → g !! k = g0 !! k.
Proof.
  revert g0. induction ts as [|x ts IH]; intros g0 Hg Hk.
  - simpl in Hg. congruence.
  - rewrite grid_fill_cons in Hg. destruct (in_board (row x)); [|done].
    rewrite fmap_cons, not_elem_of_cons in Hk. destruct Hk as [Hx Hk].
    rewrite (IH _ Hg Hk). by apply lookup_insert_ne.
Qed.

Lemma grid_fill_elem (ts : list Tile) (g0 g : gmap (Z * Z) Tile) (t : Tile) :
  grid_fill ts g0 = Some g → NoDup (coords <$> ts) → t ∈ ts →
  g !! coords t = Some t.
Proof.
  revert g0. induction ts as [|x ts IH]; intros g0 Hg Hnd Ht.
  - by apply elem_of_nil in Ht.
  - rewrite grid_fill_cons in Hg. destruct (in_board (row x)); [|done].
    rewrite fmap_cons, NoDup_cons in Hnd. destruct Hnd as [Hx Hnd].
    apply elem_of_cons in Ht as [->|Ht].
    + rewrite (grid_fill_other _ _ _ _ Hg Hx). apply lookup_insert_eq.
    + by eapply IH.
Qed.

Lemma grid_fill_ok (ts : list Tile) (g : gmap (Z * Z) Tile) :
  grid_fill ts ∅ = Some g → grid_ok g.
Proof.
  intros Hg k t Hk.
  destruct (grid_fill_lookup _ _ _ _ _ Hg Hk) as [[_ ?]|Hl]; [done|].
  by rewrite lookup_empty in Hl.
Qed.

(** Reading a grid at a duplicate-free list of keys that covers the board
    finds every tile once. *)
Lemma grid_read_all (ts : list Tile) (g : gmap (Z * Z) Tile) (keys : list (Z * Z)) :
  grid_fill ts ∅ = Some g → NoDup (coords <$> ts) → NoDup keys →
  (∀ t, t ∈ ts → coords t ∈ keys) →
  omap (λ k, g !! k) keys ≡ₚ ts.
Proof.
  intros Hg Hnd Hkeys Hcover.
  apply NoDup_Permutation.
  - clear Hcover. induction Hkeys as [|k keys Hk _ IH]; simpl; [constructor|].
    destruct (g !! k) as [t|] eqn:E; [|done].
    constructor; [|done]. intros Hin.
    apply list_elem_of_omap in Hin as (k' & Hk' & E').
    apply (grid_fill_ok _ _ Hg) in E, E'. congruence.
  - by eapply NoDup_fmap_1.
  - intros t. rewrite list_elem_of_omap. split.
    + intros (k & _ & E).
      destruct (grid_fill_lookup _ _ _ _ _ Hg E) as [[? _]|Hl]; [done|].
      by rewrite lookup_empty in Hl.
    + intros Ht. exists (coords t). split; [by apply Hcover|].
      by eapply grid_fill_elem.
Qed.

Lemma occupancy_fill_spec (ts : list Tile) (occ0 : gset (Z * Z)) :
  Forall (λ t, in_board (row t) = true) ts →
  ∃ occ, occupancy_fill ts occ0 = Some occ
         ∧ ∀ k, k ∈ occ ↔ k ∈ coords <$> ts ∨ k ∈ occ0.
Proof.
  revert occ0. induction ts as [|t ts IH]; intros occ0 Hf.
  - exists occ0. split; [done|]. intros k. rewrite fmap_nil, elem_of_nil. tauto.
  - apply Forall_cons in Hf as [Ht Hf].
    destruct (IH ({[coords t]} ∪ occ0) Hf) as (occ & Hfill & Hocc).
    exists occ. split; [simpl; by rewrite Ht|]. intros k.
    rewrite Hocc, fmap_cons, elem_of_cons, elem_of_union, elem_of_singleton. tauto.
Qed.

Lemma occupancy_fill_rows (ts : list Tile) (occ0 : gset (Z * Z)) :
  is_Some (occupancy_fill ts occ0) → Forall (λ t, in_board (row t) = true) ts.
Proof.
  revert occ0. induction ts as [|t ts IH]; intros occ0 Hs; [constructor|].
  simpl in Hs. destruct (in_board (row t)) eqn:E; [|by destruct Hs].
  constructor; [done|]. by eapply IH.
Qed.

(** ** The sweep over the lines *)

Lemma add_line_start acc : add_line acc line_start = acc.
Proof.
  destruct acc as [ts m s]. unfold add_line. simpl.
  by rewrite app_nil_r, orb_false_r, Z.add_0_r.
Qed.

Lemma slideRow_nil r d : slideRow [] r d = line_start.
Proof. unfold slideRow, slideRow_sorted. by destruct (is_left d). Qed.

Lemma slideColumn_nil c d : slideColumn [] c d = line_start.
Proof. unfold slideColumn, slideColumn_sorted. by destruct (is_up d). Qed.

Lemma foldl_same {A B} (f h : A → B → A) (l : list B) (a : A) :
  (∀ a x, f a x = h a x) → foldl f a l = foldl h a l.
Proof.
  intros E. revert a. induction l as [|x l IH]; intros a; simpl; [done|].
  by rewrite E, IH.
Qed.

(** Skipping the empty lines changes nothing. *)
Lemma move_rows_sweep g d :
  move_rows g d = sweep (λ l r, slideRow l r d) g (λ r c, (r, c)).
Proof.
  unfold move_rows, sweep. apply foldl_same. intros acc r.
  change (rowTiles_of g r) with (extract g (λ r c, (r, c)) r).
  destruct (extract g (λ r c, (r, c)) r) eqn:E; [|done].
  by rewrite slideRow_nil, add_line_start.
Qed.

Lemma move_columns_sweep g d :
  move_columns g d = sweep (λ l c, slideColumn l c d) g (λ c r, (r, c)).
Proof.
  unfold move_columns, sweep. apply foldl_same. intros acc c.
  change (columnTiles_of g c) with (extract g (λ c r, (r, c)) c).
  destruct (extract g (λ c r, (r, c)) c) eqn:E; [|done].
  by rewrite slideColumn_nil, add_line_start.
Qed.

(** The proof rule of the loop over the lines. *)
Lemma sweep_rule line g cell (Q : list Z → MoveResult → Prop) :
  Q [] move_start →
  (∀ seen idx acc, idx ∈ indices → Q seen acc →
     Q (seen ++ [idx]) (add_line acc (line (extract g cell idx) idx))) →
  Q indices (sweep line g cell).
Proof.
  intros Q0 Qstep. unfold sweep.
  cut (∀ todo seen acc, (∀ i, i ∈ todo → i ∈ indices) → Q seen acc →
         Q (seen ++ todo)
           (foldl (λ acc idx, add_line acc (line (extract g cell idx) idx)) acc todo)).
  { intros H. by apply (H indices [] move_start). }
  induction todo as [|i todo IH]; intros seen acc Hin HQ; simpl.
  - by rewrite app_nil_r.
  - rewrite (cons_middle i seen todo), app_assoc. apply IH.
    + intros j Hj. apply Hin. by right.
    + apply Qstep; [|done]. apply Hin. by left.
Qed.

Lemma bind_one {A B} (f : A → list B) (x : A) : [x] ≫= f = f x.
Proof. simpl. apply app_nil_r. Qed.

Lemma length_omap_le {A B} (f : A → option B) (l : list A) :
  (length (omap f l) <= length l)%nat.
Proof.
  induction l as [|x l IH]; simpl; [done|].
  destruct (f x); simpl; [apply le_n_S|apply le_S]; exact IH.
Qed.

Lemma omap_key_sublist {B} (f : Z → option B) (key : B → Z) (l : list Z) :
  (∀ j t, f j = Some t → key t = j) → (key <$> omap f l) `sublist_of` l.
Proof.
  intros Hk. induction l as [|x l IH]; simpl; [done|].
  destruct (f x) as [t|] eqn:E.
  - rewrite fmap_cons, (Hk _ _ E). by apply sublist_skip.
  - by apply sublist_cons.
Qed.

Section Sweep.
Variables (along across : Tile → Z) (low : bool).
Variable step : Z → Tile → bool → Line → Line.
Variable cmp : Tile → Tile → Z.
Variable cell : Z → Z → Z * Z.
Variable g : gmap (Z * Z) Tile.
Hypothesis Hstep : ∀ idx, step_spec along across low idx (step idx).
Hypothesis Hcmp : ∀ a b, cmp a b <= 0 ↔ pos low along a <= pos low along b.
Hypothesis Hcell : ∀ t, coords t = cell (across t) (along t).
Hypothesis Hinj : ∀ i j i' j', cell i j = cell i' j' → i = i' ∧ j = j'.

Lemma line_of_collapsed l idx :
  collapsed (sort_by cmp l) (line_tiles (line_of step cmp l idx)).
Proof. by eapply scan_collapsed. Qed.

Lemma line_of_sum l idx : sum_values (line_tiles (line_of step cmp l idx)) = sum_values l.
Proof.
  rewrite (collapsed_sum _ _ (line_of_collapsed l idx)).
  apply sum_values_perm, sort_by_perm.
Qed.

(** The coordinates of a collapsed line: the first [k] cells from the
    destination edge. *)
Lemma line_of_coords l idx :
  ∃ k, 0 <= k <= Z.of_nat (length l)
    ∧ Z.of_nat (length (line_tiles (line_of step cmp l idx))) = k
    ∧ targetIndex (line_of step cmp l idx) = k
    ∧ coords <$> line_tiles (line_of step cmp l idx)
      = (λ j, cell idx (target low j)) <$> seqZ 0 k.
Proof.
  destruct (scan_targets _ _ _ _ _ (Hstep idx) (sort_by cmp l)) as [Hk Heq].
  fold (line_of step cmp l idx) in Hk, Heq.
  rewrite (Permutation_length (sort_by_perm cmp l)) in Hk.
  exists (targetIndex (line_of step cmp l idx)). split; [done|].
  assert (coords <$> line_tiles (line_of step cmp l idx)
          = (λ j, cell idx (target low j)) <$> seqZ 0 (targetIndex (line_of step cmp l idx)))
    as Hc.
  { transitivity ((λ p : Z * Z, cell p.2 p.1)
                    <$> ((λ t, (along t, across t)) <$> line_tiles (line_of step cmp l idx))).
    - rewrite <- list_fmap_compose. apply list_fmap_ext. intros _ t _. apply Hcell.
    - rewrite Heq, <- list_fmap_compose. done. }
  split; [|done].
  apply (f_equal length) in Hc. rewrite !length_fmap, length_seqZ in Hc. lia.
Qed.

Lemma extract_ordered idx :
  grid_ok g → ordered along across low idx 0 (sort_by cmp (extract g cell idx)).
Proof.
  intros Hok.
  assert (∀ j t, g !! cell idx j = Some t → along t = j ∧ across t = idx) as Hkey.
  { intros j t E. apply Hok in E. rewrite Hcell in E. apply Hinj in E. tauto. }
  pose proof (omap_key_sublist (λ j, g !! cell idx j) along indices
                (λ j t E, proj1 (Hkey j t E))) as Hsub.
  fold (extract g cell idx) in Hsub.
  split.
  - apply (sort_by_strict cmp _ Hcmp).
    assert (NoDup (along <$> extract g cell idx)) as Hnd
      by (eapply sublist_NoDup; [apply NoDup_seqZ|exact Hsub]).
    unfold pos. destruct low; [done|].
    rewrite (list_fmap_compose along (λ x, BOARD_SIZE - 1 - x)).
    apply NoDup_fmap_2; [|done]. intros x y ?; lia.
  - rewrite (sort_by_perm cmp). apply Forall_forall. intros t Ht.
    assert (along t ∈ indices) as Hin.
    { eapply elem_of_sublist; [|exact Hsub]. by apply list_elem_of_fmap_2. }
    apply elem_of_indices in Hin.
    unfold extract in Ht. apply list_elem_of_omap in Ht as (j & _ & E).
    split; [|by apply (Hkey j)].
    unfold pos, BOARD_SIZE in *. destruct low; lia.
Qed.

Lemma line_of_moved idx :
  grid_ok g → line_moved (line_of step cmp (extract g cell idx) idx) = true →
  Z.of_nat (length (line_tiles (line_of step cmp (extract g cell idx) idx))) < BOARD_SIZE.
Proof.
  intros Hok Hm.
  destruct (line_of_coords (extract g cell idx) idx) as (k & _ & -> & <- & _).
  eapply scan_moved_room; [apply Hstep|by apply extract_ordered|done].
Qed.

Lemma extract_length idx : Z.of_nat (length (extract g cell idx)) <= BOARD_SIZE.
Proof.
  pose proof (length_omap_le (λ j, g !! cell idx j) indices) as H.
  unfold extract. unfold indices in H at 2. rewrite length_seqZ in H.
  unfold BOARD_SIZE in *. lia.
Qed.

Lemma extract_keys idx : extract g cell idx = omap (λ k, g !! k) (cell idx <$> indices).
Proof.
  unfold extract. generalize indices. intros l.
  induction l as [|j l IH]; [done|]. rewrite fmap_cons. simpl.
  destruct (g !! cell idx j); simpl; [f_equal|]; exact IH.
Qed.

Lemma sweep_sum :
  sum_values (tiles (sweep (line_of step cmp) g cell))
  = sum_values (omap (λ k, g !! k) (keys_of cell indices)).
Proof.
  apply (sweep_rule (line_of step cmp) g cell
    (λ seen acc, sum_values (tiles acc)
                 = sum_values (omap (λ k, g !! k) (keys_of cell seen)))); [done|].
  intros seen idx acc _ IH. unfold add_line, keys_of in *. simpl tiles.
  rewrite bind_app, omap_app, !sum_values_app, IH, line_of_sum.
  by rewrite bind_one, extract_keys.
Qed.

Lemma sweep_slots :
  (coords <$> tiles (sweep (line_of step cmp) g cell)) `sublist_of` slots_of low cell indices.
Proof.
  apply (sweep_rule (line_of step cmp) g cell
    (λ seen acc, (coords <$> tiles acc) `sublist_of` slots_of low cell seen)); [done|].
  intros seen idx acc _ IH. unfold add_line, slots_of in *. simpl tiles.
  rewrite bind_app, fmap_app. apply sublist_app; [done|].
  rewrite bind_one.
  destruct (line_of_coords (extract g cell idx) idx) as (k & Hk & _ & _ & ->).
  pose proof (extract_length idx) as Hlen.
  apply fmap_sublist. unfold indices.
  replace BOARD_SIZE with (k + (BOARD_SIZE - k)) at 1 by lia.
  rewrite seqZ_app by lia. apply sublist_inserts_r. done.
Qed.

Lemma sweep_room :
  grid_ok g →
  moved (sweep (line_of step cmp) g cell) = true →
  Z.of_nat (length (tiles (sweep (line_of step cmp) g cell))) < BOARD_SIZE * BOARD_SIZE.
Proof.
  intros Hok.
  cut (Z.of_nat (length (tiles (sweep (line_of step cmp) g cell)))
         <= BOARD_SIZE * Z.of_nat (length indices)
       ∧ (moved (sweep (line_of step cmp) g cell) = true →
          Z.of_nat (length (tiles (sweep (line_of step cmp) g cell)))
            < BOARD_SIZE * Z.of_nat (length indices))).
  { unfold indices. rewrite length_seqZ. unfold BOARD_SIZE. intros [_ H] Hm.
    specialize (H Hm). lia. }
  apply (sweep_rule (line_of step cmp) g cell
    (λ seen acc,
       Z.of_nat (length (tiles acc)) <= BOARD_SIZE * Z.of_nat (length seen)
       ∧ (moved acc = true →
          Z.of_nat (length (tiles acc)) < BOARD_SIZE * Z.of_nat (length seen)))).
  { split; [done|]. simpl. done. }
  intros seen idx acc _ [IH1 IH2]. unfold add_line. simpl tiles. simpl moved.
  rewrite !length_app. simpl length.
  destruct (line_of_coords (extract g cell idx) idx) as (k & Hk & Hlen & _ & _).
  pose proof (extract_length idx) as Hle.
  pose proof (line_of_moved idx Hok) as Hm.
  split; [lia|]. intros [Ha|Hl]%orb_true_iff.
  - specialize (IH2 Ha). lia.
  - specialize (Hm Hl). lia.
Qed.

Lemma sweep_score :
  (∀ k t, g !! k = Some t → 0 <= value t) →
  0 <= scoreGained (sweep (line_of step cmp) g cell).
Proof.
  intros Hpos.
  apply (sweep_rule (line_of step cmp) g cell (λ _ acc, 0 <= scoreGained acc)); [done|].
  intros _ idx acc _ IH. unfold add_line. simpl.
  assert (0 <= line_score (line_of step cmp (extract g cell idx) idx)); [|lia].
  apply (scan_score_nonneg _ _ _ _ _ (Hstep idx) _ line_start).
  rewrite (sort_by_perm cmp). apply Forall_forall. intros t Ht.
  unfold extract in Ht. apply list_elem_of_omap in Ht as (j & _ & E). eauto.
Qed.

Lemma sweep_positive :
  (∀ k t, g !! k = Some t → 0 < value t) →
  Forall (λ t, 0 < value t) (tiles (sweep (line_of step cmp) g cell)).
Proof.
  intros Hpos.
  apply (sweep_rule (line_of step cmp) g cell
           (λ _ acc, Forall (λ t, 0 < value t) (tiles acc))); [constructor|].
  intros _ idx acc _ IH. unfold add_line. simpl. apply Forall_app. split; [done|].
  eapply collapsed_positive; [apply line_of_collapsed|].
  rewrite (sort_by_perm cmp). apply Forall_forall. intros t Ht.
  unfold extract in Ht. apply list_elem_of_omap in Ht as (j & _ & E). eauto.
Qed.
End Sweep.

(** ** Rows and columns as lines *)

Lemma slideRow_line_of l r d :
  slideRow l r d = line_of (λ r, slideRow_step r d) (row_cmp d) l r.
Proof.
  unfold slideRow, line_of, slideRow_sorted, row_cmp.
  rewrite slideRow_loop_scan. by destruct (is_left d).
Qed.

Lemma slideColumn_line_of l c d :
  slideColumn l c d = line_of (λ c, slideColumn_step c d) (column_cmp d) l c.
Proof.
  unfold slideColumn, line_of, slideColumn_sorted, column_cmp.
  rewrite slideColumn_loop_scan. by destruct (is_up d).
Qed.

Lemma move_rows_line_of g d :
  move_rows g d = sweep (line_of (λ r, slideRow_step r d) (row_cmp d)) g row_cell.
Proof.
  rewrite move_rows_sweep. unfold sweep. apply foldl_same. intros acc r.
  by rewrite slideRow_line_of.
Qed.

Lemma move_columns_line_of g d :
  move_columns g d
  = sweep (line_of (λ c, slideColumn_step c d) (column_cmp d)) g column_cell.
Proof.
  rewrite move_columns_sweep. unfold sweep. apply foldl_same. intros acc c.
  by rewrite slideColumn_line_of.
Qed.

Lemma row_cmp_key d a b :
  row_cmp d a b <= 0 ↔ pos (is_left d) col a <= pos (is_left d) col b.
Proof. unfold row_cmp, pos. destruct (is_left d); lia. Qed.

Lemma column_cmp_key d a b :
  column_cmp d a b <= 0 ↔ pos (is_up d) row a <= pos (is_up d) row b.
Proof. unfold column_cmp, pos. destruct (is_up d); lia. Qed.

Lemma row_cell_inj i j i' j' : row_cell i j = row_cell i' j' → i = i' ∧ j = j'.
Proof. unfold row_cell. intros [= -> ->]. done. Qed.

Lemma column_cell_inj i j i' j' : column_cell i j = column_cell i' j' → i = i' ∧ j = j'.
Proof. unfold column_cell. intros [= -> ->]. done. Qed.

Lemma coords_clear t : coords (clear_flags t) = coords t.
Proof. done. Qed.

Lemma coords_clear_list (ts : list Tile) : coords <$> (clear_flags <$> ts) = coords <$> ts.
Proof. rewrite <- list_fmap_compose. by apply list_fmap_ext. Qed.

Lemma occupancy_clear (ts : list Tile) : occupancy (clear_flags <$> ts) ↔ occupancy ts.
Proof.
  unfold occupancy. rewrite coords_clear_list, Forall_fmap. done.
Qed.

Lemma occupancy_perm (ts ts' : list Tile) : ts ≡ₚ ts' → occupancy ts → occupancy ts'.
Proof. intros Hp [Hf Hnd]. split; by rewrite <- Hp. Qed.

Lemma occupancy_rows (ts : list Tile) : occupancy ts → Forall (λ t, in_board (row t) = true) ts.
Proof. intros [Hf _]. eapply Forall_impl; [exact Hf|]. simpl. tauto. Qed.

Lemma cells_spec r c : (r, c) ∈ cells ↔ 0 <= r < BOARD_SIZE ∧ 0 <= c < BOARD_SIZE.
Proof.
  unfold cells. rewrite list_elem_of_bind. split.
  - intros (r' & Hin & Hr%elem_of_indices).
    apply list_elem_of_bind in Hin as (c' & Hin & Hc%elem_of_indices).
    apply list_elem_of_singleton in Hin. injection Hin as -> ->. done.
  - intros [Hr Hc]. exists r. split; [|by apply elem_of_indices].
    apply list_elem_of_bind. exists c. split; [|by apply elem_of_indices].
    by apply list_elem_of_singleton.
Qed.

Lemma occupancy_cells (ts : list Tile) (t : Tile) : occupancy ts → t ∈ ts → coords t ∈ cells.
Proof.
  intros [Hf _] Ht. rewrite Forall_forall in Hf. destruct (Hf t Ht) as [Hr Hc].
  apply cells_spec. by rewrite <- !in_board_spec.
Qed.

(** A board whose coordinates are taken one each from a duplicate-free
    list of cells satisfies the occupancy invariant. *)
Lemma occupancy_sublist (ts : list Tile) (ks : list (Z * Z)) :
  (coords <$> ts) `sublist_of` ks → NoDup ks → (∀ k, k ∈ ks → k ∈ cells) →
  occupancy ts.
Proof.
  intros Hsub Hnd Hin. split; [|by eapply sublist_NoDup].
  apply Forall_forall. intros t Ht.
  assert (coords t ∈ cells) as Hc.
  { apply Hin. eapply elem_of_sublist; [|exact Hsub]. by apply list_elem_of_fmap_2. }
  apply cells_spec in Hc. by rewrite !in_board_spec.
Qed.

(** ** The lines of a move *)

Lemma move_lines_sum (ts : list Tile) g d :
  grid_fill ts ∅ = Some g → occupancy ts →
  sum_values (tiles (move_lines g d)) = sum_values ts.
Proof.
  intros Hg Hocc. unfold move_lines.
  assert (NoDup (coords <$> ts)) as Hnd by apply Hocc.
  destruct (is_horizontal d).
  - rewrite move_rows_line_of.
    rewrite (sweep_sum col row (is_left d) _ _ _ _ (λ r, slideRow_step_spec r d)).
    apply sum_values_perm, (grid_read_all ts); [done|done| |].
    + apply (bool_decide_unpack _). by vm_compute.
    + intros t Ht. by apply (occupancy_cells ts).
  - rewrite move_columns_line_of.
    rewrite (sweep_sum row col (is_up d) _ _ _ _ (λ c, slideColumn_step_spec c d)).
    apply sum_values_perm, (grid_read_all ts); [done|done| |].
    + apply (bool_decide_unpack _). by vm_compute.
    + intros t Ht.
      assert (Forall (λ k, k ∈ keys_of column_cell indices) cells) as Hall
        by (apply (bool_decide_unpack _); by vm_compute).
      rewrite Forall_forall in Hall. by apply Hall, (occupancy_cells ts).
Qed.

(** The lines of a move never overlap, whatever the grid holds. *)
Lemma move_lines_occupancy g d : occupancy (tiles (move_lines g d)).
Proof.
  unfold move_lines. destruct (is_horizontal d).
  - rewrite move_rows_line_of.
    pose proof (sweep_slots col row (is_left d) _ (row_cmp d) row_cell g
                  (λ r, slideRow_step_spec r d) (λ t, eq_refl)) as Hsub.
    eapply occupancy_sublist; [exact Hsub| |].
    + apply (bool_decide_unpack _). by destruct (is_left d); vm_compute.
    + apply Forall_forall, (bool_decide_unpack _).
      by destruct (is_left d); vm_compute.
  - rewrite move_columns_line_of.
    pose proof (sweep_slots row col (is_up d) _ (column_cmp d) column_cell g
                  (λ c, slideColumn_step_spec c d) (λ t, eq_refl)) as Hsub.
    eapply occupancy_sublist; [exact Hsub| |].
    + apply (bool_decide_unpack _). by destruct (is_up d); vm_compute.
    + apply Forall_forall, (bool_decide_unpack _).
      by destruct (is_up d); vm_compute.
Qed.

(** A move that changes the board leaves fewer than sixteen tiles. *)
Lemma move_lines_room g d :
  grid_ok g → moved (move_lines g d) = true →
  Z.of_nat (length (tiles (move_lines g d))) < BOARD_SIZE * BOARD_SIZE.
Proof.
  unfold move_lines. destruct (is_horizontal d).
  - rewrite move_rows_line_of.
    apply (sweep_room col row (is_left d)).
    + intros r. apply slideRow_step_spec.
    + apply row_cmp_key.
    + done.
    + apply row_cell_inj.
  - rewrite move_columns_line_of.
    apply (sweep_room row col (is_up d)).
    + intros c. apply slideColumn_step_spec.
    + apply column_cmp_key.
    + done.
    + apply column_cell_inj.
Qed.

Lemma move_lines_score g d :
  (∀ k t, g !! k = Some t → 0 <= value t) → 0 <= scoreGained (move_lines g d).
Proof.
  unfold move_lines. destruct (is_horizontal d).
  - rewrite move_rows_line_of.
    apply (sweep_score col row (is_left d)). intros r. apply slideRow_step_spec.
  - rewrite move_columns_line_of.
    apply (sweep_score row col (is_up d)). intros c. apply slideColumn_step_spec.
Qed.

Lemma move_lines_positive g d :
  (∀ k t, g !! k = Some t → 0 < value t) →
  Forall (λ t, 0 < value t) (tiles (move_lines g d)).
Proof.
  unfold move_lines. destruct (is_horizontal d).
  - rewrite move_rows_line_of.
    apply (sweep_positive col row (is_left d)). intros r. apply slideRow_step_spec.
  - rewrite move_columns_line_of.
    apply (sweep_positive row col (is_up d)). intros c. apply slideColumn_step_spec.
Qed.

(** ** [moveTiles] as a whole *)

Lemma moveTiles_unfold ts d :
  moveTiles ts d =
  match grid_fill (clear_flags <$> ts) ∅ with
  | None => None
  | Some g =>
      if moved (move_lines g d)
      then Some (mkMoveResult (sort_by canonical (tiles (move_lines g d))) true
                              (scoreGained (move_lines g d)))
      else Some (mkMoveResult (clear_flags <$> ts) false 0)
  end.
Proof.
  unfold moveTiles, move_lines. destruct (grid_fill _ _); [|done].
  by destruct (moved _).
Qed.

(** [moveTiles] returns exactly when every row index is on the board. *)
Lemma moveTiles_total ts d :
  Forall (λ t, in_board (row t) = true) ts ↔ is_Some (moveTiles ts d).
Proof.
  rewrite moveTiles_unfold.
  assert (Forall (λ t, in_board (row t) = true) ts
          ↔ Forall (λ t, in_board (row t) = true) (clear_flags <$> ts)) as ->
    by (by rewrite Forall_fmap).
  rewrite (grid_fill_total _ ∅).
  destruct (grid_fill _ _) as [g|].
  - split; [|by eexists]. destruct (moved _); by eexists.
  - split; by intros [? ?].
Qed.

Lemma grid_values (P : Z → Prop) ts g :
  grid_fill (clear_flags <$> ts) ∅ = Some g →
  Forall (λ t, P (value t)) ts → ∀ k t, g !! k = Some t → P (value t).
Proof.
  intros Hg Hf k t Hk.
  destruct (grid_fill_lookup _ _ _ _ _ Hg Hk) as [[Hin _]|Hl].
  - apply list_elem_of_fmap in Hin as (u & -> & Hu).
    rewrite Forall_forall in Hf. exact (Hf u Hu).
  - by rewrite lookup_empty in Hl.
Qed.

(** ** Empty cells and spawning *)

Lemma getEmptyPositions_spec (ts : list Tile) :
  Forall (λ t, in_board (row t) = true) ts →
  ∃ es, getEmptyPositions ts = Some es
        ∧ ∀ k, k ∈ es ↔ k ∈ cells ∧ k ∉ coords <$> ts.
Proof.
  intros Hrows. unfold getEmptyPositions.
  destruct (occupancy_fill_spec ts ∅ Hrows) as (occ & -> & Hocc).
  eexists. split; [reflexivity|]. intros [r c].
  rewrite cells_spec, list_elem_of_bind. split.
  - intros (r' & Hin & Hr%elem_of_indices).
    apply list_elem_of_bind in Hin as (c' & Hin & Hc%elem_of_indices).
    destruct (decide ((r', c') ∈ occ)) as [|Hno]; [by apply elem_of_nil in Hin|].
    apply list_elem_of_singleton in Hin. injection Hin as -> ->.
    split; [done|]. intros Hin. apply Hno, Hocc. by left.
  - intros [[Hr Hc] Hno]. exists r. split; [|by apply elem_of_indices].
    apply list_elem_of_bind. exists c. split; [|by apply elem_of_indices].
    destruct (decide ((r, c) ∈ occ)) as [Hin|]; [|by apply list_elem_of_singleton].
    apply Hocc in Hin as [?|Hin]; [done|]. by apply not_elem_of_empty in Hin.
Qed.

Lemma getEmptyPositions_rows (ts : list Tile) :
  is_Some (getEmptyPositions ts) → Forall (λ t, in_board (row t) = true) ts.
Proof.
  unfold getEmptyPositions. intros Hs.
  apply (occupancy_fill_rows ts ∅). destruct (occupancy_fill ts ∅); [by eexists|].
  by destruct Hs.
Qed.

Lemma cells_length : length cells = 16%nat.
Proof. reflexivity. Qed.

Lemma cells_NoDup : NoDup cells.
Proof. apply (bool_decide_unpack _). by vm_compute. Qed.

(** Fewer than sixteen tiles leave a cell empty. *)
Lemma getEmptyPositions_room (ts : list Tile) (es : list (Z * Z)) :
  getEmptyPositions ts = Some es → (length ts < 16)%nat → es ≠ [].
Proof.
  intros Hes Hlen ->.
  destruct (getEmptyPositions_spec ts) as (es' & Hes' & Hspec).
  { apply getEmptyPositions_rows. by eexists. }
  rewrite Hes in Hes'. injection Hes' as <-.
  assert (cells ⊆+ coords <$> ts) as Hsub.
  { apply NoDup_submseteq; [apply cells_NoDup|]. intros k Hk.
    destruct (decide (k ∈ coords <$> ts)) as [|Hno]; [done|].
    exfalso. eapply elem_of_nil, Hspec. done. }
  apply submseteq_length in Hsub. rewrite cells_length, length_fmap in Hsub. lia.
Qed.

Lemma addRandomTile_cases ts counter d ts' counter' :
  addRandomTile ts counter d = Some (ts', counter') →
  (getEmptyPositions ts = Some [] ∧ ts' = ts ∧ counter' = counter)
  ∨ (∃ es choice, getEmptyPositions ts = Some es ∧ es !! pick d = Some choice
       ∧ ts' = ts ++ [spawned counter d choice] ∧ counter' = counter + 1).
Proof.
  unfold addRandomTile. destruct (getEmptyPositions ts) as [[|e es]|] eqn:E; [| |done].
  - intros [= <- <-]. by left.
  - destruct (_ !! pick d) as [choice|] eqn:Ec; [|done].
    intros [= <- <-]. right. by exists (e :: es), choice.
Qed.

Lemma occupancy_snoc (ts : list Tile) (t : Tile) :
  occupancy ts → coords t ∈ cells → coords t ∉ coords <$> ts →
  occupancy (ts ++ [t]).
Proof.
  intros [Hf Hnd] Hc Hno. split.
  - apply Forall_app. split; [done|]. constructor; [|constructor].
    apply cells_spec in Hc. by rewrite !in_board_spec.
  - rewrite fmap_app. apply NoDup_app. split; [done|]. split.
    + intros k Hk Hk'. simpl in Hk'. apply list_elem_of_singleton in Hk'. by subst.
    + simpl. apply NoDup_singleton.
Qed.

Lemma spawn_occupancy (ts : list Tile) es counter d choice :
  getEmptyPositions ts = Some es → es !! pick d = Some choice →
  occupancy ts → occupancy (ts ++ [spawned counter d choice]).
Proof.
  intros Hes Hc Hocc.
  destruct (getEmptyPositions_spec ts) as (es' & Hes' & Hspec).
  { by apply occupancy_rows. }
  rewrite Hes in Hes'. injection Hes' as <-.
  assert (choice ∈ es) as Hin by (by eapply list_elem_of_lookup_2).
  apply Hspec in Hin as [Hin Hno]. destruct choice as [r c].
  apply occupancy_snoc; done.
Qed.

Lemma addRandomTile_occupancy ts counter d ts' counter' :
  occupancy ts → addRandomTile ts counter d = Some (ts', counter') → occupancy ts'.
Proof.
  intros Hocc [(_ & -> & _)|(es & choice & Hes & Hc & -> & _)]%addRandomTile_cases.
  - done.
  - by eapply spawn_occupancy.
Qed.

Lemma initial_loop_occupancy n i draws ts counter ts' counter' :
  occupancy ts → initial_loop n i draws ts counter = Some (ts', counter') →
  occupancy ts'.
Proof.
  revert i ts counter. induction n as [|n IH]; intros i ts counter Hocc; simpl.
  - by intros [= <- <-].
  - destruct (getEmptyPositions ts) as [[|e es]|] eqn:E; [| |done].
    + by intros [= <- <-].
    + destruct (_ !! pick (draws i)) as [choice|] eqn:Ec; [|done].
      apply IH. by eapply (spawn_occupancy ts (e :: es) counter (draws i)).
Qed.

Lemma occupancy_nil : occupancy [].
Proof. split; constructor. Qed.

Lemma moveTiles_occupancy ts d mr :
  occupancy ts → moveTiles ts d = Some mr → occupancy (tiles mr).
Proof.
  intros Hocc. rewrite moveTiles_unfold.
  destruct (grid_fill _ _) as [g|]; [|done].
  destruct (moved (move_lines g d)); intros [= <-]; simpl.
  - eapply occupancy_perm; [symmetry; apply sort_by_perm|].
    apply move_lines_occupancy.
  - by apply occupancy_clear.
Qed.

(** The output of a line collapse is [collapsed] from the sorted line. *)
Lemma slide_collapsed (ts : list Tile) (idx : Z) (d : Direction) :
  collapsed (slideRow_sorted d ts) (line_tiles (slideRow ts idx d))
  ∧ collapsed (slideColumn_sorted d ts) (line_tiles (slideColumn ts idx d)).
Proof.
  split.
  - rewrite slideRow_line_of.
    replace (slideRow_sorted d ts) with (sort_by (row_cmp d) ts)
      by (unfold slideRow_sorted, row_cmp; by destruct (is_left d)).
    apply (line_of_collapsed col row (is_left d)). intros r. apply slideRow_step_spec.
  - rewrite slideColumn_line_of.
    replace (slideColumn_sorted d ts) with (sort_by (column_cmp d) ts)
      by (unfold slideColumn_sorted, column_cmp; by destruct (is_up d)).
    apply (line_of_collapsed row col (is_up d)). intros c. apply slideColumn_step_spec.
Qed.

(** * The specified properties *)

(** C2 — Merge-no-chain.  The output of a line collapse arises from the
    sorted line by keeping tiles and by merging a tile with its equal
    successor, every input tile being used once ([collapsed]): an output
    tile has the value of one input tile, or twice that value when it is
    [justMerged], and each merge uses up exactly one further input tile.
    A row of four tiles of one value [v] collapses to the left into two
    tiles of value [2v] in columns 0 and 1, for a score of [4v]; through
    [moveTiles], a row [2,2,2,2] of the board gives [4,4] and not [8]. *)
Theorem merge_no_chain (ts : list Tile) (idx : Z) (d : Direction) :
  (collapsed (slideRow_sorted d ts) (line_tiles (slideRow ts idx d))
   ∧ Forall (λ t', ∃ t, t ∈ slideRow_sorted d ts ∧ id t' = id t
                   ∧ (justMerged t' = false ∧ value t' = value t
                      ∨ justMerged t' = true ∧ value t' = value t * 2))
            (line_tiles (slideRow ts idx d))
   ∧ length ts
     = (length (line_tiles (slideRow ts idx d))
        + length (filter (λ t, justMerged t = true) (line_tiles (slideRow ts idx d))))%nat)
  ∧ (collapsed (slideColumn_sorted d ts) (line_tiles (slideColumn ts idx d))
     ∧ Forall (λ t', ∃ t, t ∈ slideColumn_sorted d ts ∧ id t' = id t
                     ∧ (justMerged t' = false ∧ value t' = value t
                        ∨ justMerged t' = true ∧ value t' = value t * 2))
              (line_tiles (slideColumn ts idx d))
     ∧ length ts
       = (length (line_tiles (slideColumn ts idx d))
          + length (filter (λ t, justMerged t = true)
                      (line_tiles (slideColumn ts idx d))))%nat)
  ∧ (∀ v i0 i1 i2 i3 n0 n1 n2 n3 m0 m1 m2 m3,
       slideRow [mkTile i0 v idx 0 n0 m0; mkTile i1 v idx 1 n1 m1;
                 mkTile i2 v idx 2 n2 m2; mkTile i3 v idx 3 n3 m3] idx left
       = mkLine [mkTile i0 (v * 2) idx 0 n0 true; mkTile i2 (v * 2) idx 1 n2 true]
                true (v * 2 + v * 2) 2)
  ∧ (∀ r i0 i1 i2 i3 n0 n1 n2 n3 m0 m1 m2 m3,
       in_board r = true →
       moveTiles [mkTile i0 2 r 0 n0 m0; mkTile i1 2 r 1 n1 m1;
                  mkTile i2 2 r 2 n2 m2; mkTile i3 2 r 3 n3 m3] left
       = Some (mkMoveResult [mkTile i0 4 r 0 false true; mkTile i2 4 r 1 false true]
                            true 8)).
Proof.
  destruct (slide_collapsed ts idx d) as [Hr Hc].
  assert (length (slideRow_sorted d ts) = length ts) as Hlr
    by (unfold slideRow_sorted; destruct (is_left d);
        apply Permutation_length, sort_by_perm).
  assert (length (slideColumn_sorted d ts) = length ts) as Hlc
    by (unfold slideColumn_sorted; destruct (is_up d);
        apply Permutation_length, sort_by_perm).
  split; [|split; [|split]].
  - split; [done|]. split; [by apply collapsed_origin|].
    rewrite <- Hlr. by apply collapsed_count.
  - split; [done|]. split; [by apply collapsed_origin|].
    rewrite <- Hlc. by apply collapsed_count.
  - intros. unfold slideRow, slideRow_sorted. simpl.
    rewrite !Z.eqb_refl. simpl. reflexivity.
  - intros r i0 i1 i2 i3 n0 n1 n2 n3 m0 m1 m2 m3 Hrow%in_board_spec.
    unfold BOARD_SIZE in Hrow.
    assert (r = 0 ∨ r = 1 ∨ r = 2 ∨ r = 3) as [->|[->|[->| ->]]] by lia;
      by vm_compute.
Qed.

Lemma merge_no_chain_witness :
  in_board 2 = true
  ∧ moveTiles [mkTile 1 2 2 0 false false; mkTile 2 2 2 1 false false;
               mkTile 3 2 2 2 false false; mkTile 4 2 2 3 false false] left
    = Some (mkMoveResult [mkTile 1 4 2 0 false true; mkTile 3 4 2 1 false true]
                         true 8).
Proof.
  split; [reflexivity|].
  exact (proj2 (proj2 (proj2 (merge_no_chain [] 0 left)))
           2 1 2 3 4 false false false false false false false false eq_refl).
Defined.

(** C3 — No-op behaviour.  When [moveTiles] reports [moved = false], the
    tiles it returns are the input tiles with [isNew] and [justMerged]
    cleared (same ids, values and positions, in the same order) and
    [scoreGained] is 0; a session whose board this is goes through
    [handleMove] unchanged: no spawn, no id allocated, and score, best
    score, [hasWon] and [gameOver] as before. *)
Theorem noop_behaviour (ts : list Tile) (d : Direction) (mr : MoveResult)
    (Hmove : moveTiles ts d = Some mr) (Hnoop : moved mr = false) :
  tiles mr = clear_flags <$> ts
  ∧ id <$> tiles mr = id <$> ts
  ∧ value <$> tiles mr = value <$> ts
  ∧ coords <$> tiles mr = coords <$> ts
  ∧ Forall (λ t, isNew t = false ∧ justMerged t = false) (tiles mr)
  ∧ scoreGained mr = 0
  ∧ ∀ s dr, s_tiles s = ts → handleMove s d dr = Some s.
Proof.
  assert (tiles mr = clear_flags <$> ts ∧ scoreGained mr = 0) as [Ht Hs].
  { rewrite moveTiles_unfold in Hmove.
    destruct (grid_fill _ _) as [g|]; [|done].
    destruct (moved (move_lines g d)); injection Hmove as <-; [done|]. done. }
  split; [done|]. rewrite Ht.
  split; [rewrite <- list_fmap_compose; by apply list_fmap_ext|].
  split; [rewrite <- list_fmap_compose; by apply list_fmap_ext|].
  split; [apply coords_clear_list|].
  split; [by apply Forall_fmap, Forall_true|].
  split; [done|].
  intros s dr <-. unfold handleMove. destruct (gameOver s); [done|].
  by rewrite Hmove, Hnoop.
Qed.

Lemma noop_behaviour_witness :
  moveTiles [mkTile 1 2 0 3 true false] right
  = Some (mkMoveResult [mkTile 1 2 0 3 false false] false 0)
  ∧ tiles (mkMoveResult [mkTile 1 2 0 3 false false] false 0)
    = clear_flags <$> [mkTile 1 2 0 3 true false]
  ∧ ∀ s dr, s_tiles s = [mkTile 1 2 0 3 true false] → handleMove s right dr = Some s.
Proof.
  assert (moveTiles [mkTile 1 2 0 3 true false] right
          = Some (mkMoveResult [mkTile 1 2 0 3 false false] false 0)) as Hmove
    by reflexivity.
  split; [exact Hmove|].
  destruct (noop_behaviour [mkTile 1 2 0 3 true false] right
              (mkMoveResult [mkTile 1 2 0 3 false false] false 0) Hmove eq_refl)
    as (Ht & _ & _ & _ & _ & _ & Hs).
  split; [exact Ht|exact Hs].
Defined.

(** C4 — Conservation on collapse.  On a board that satisfies the
    occupancy invariant [moveTiles] returns, for every direction, and the
    values of the tiles it returns add up to the sum of the input values. *)
Theorem conservation_on_collapse (ts : list Tile) (d : Direction)
    (Hocc : occupancy ts) :
  ∃ mr, moveTiles ts d = Some mr ∧ sum_values (tiles mr) = sum_values ts.
Proof.
  destruct (proj1 (moveTiles_total ts d) (occupancy_rows ts Hocc)) as [mr Hmr].
  exists mr. split; [done|].
  rewrite moveTiles_unfold in Hmr.
  destruct (grid_fill _ _) as [g|] eqn:Hg; [|done].
  destruct (moved (move_lines g d)); injection Hmr as <-; simpl.
  - rewrite (sum_values_perm _ _ (sort_by_perm canonical _)).
    rewrite (move_lines_sum (clear_flags <$> ts) g d Hg); [apply sum_values_clear|].
    by apply occupancy_clear.
  - apply sum_values_clear.
Qed.

Lemma conservation_on_collapse_witness :
  occupancy [mkTile 1 2 0 0 false false; mkTile 2 2 0 1 false false]
  ∧ ∃ mr, moveTiles [mkTile 1 2 0 0 false false; mkTile 2 2 0 1 false false] left
          = Some mr
          ∧ sum_values (tiles mr)
            = sum_values [mkTile 1 2 0 0 false false; mkTile 2 2 0 1 false false].
Proof.
  assert (occupancy [mkTile 1 2 0 0 false false; mkTile 2 2 0 1 false false]) as Hocc.
  { split; [by repeat constructor|]. apply (bool_decide_unpack _). by vm_compute. }
  split; [exact Hocc|]. exact (conservation_on_collapse _ left Hocc).
Defined.

Lemma generateInitialTiles_occupancy counter draws ts counter' :
  generateInitialTiles counter draws = Some (ts, counter') → occupancy ts.
Proof. apply initial_loop_occupancy, occupancy_nil. Qed.

Lemma reachable_occupancy ts : reachable ts → occupancy ts.
Proof.
  induction 1 as [counter draws ts counter' Hi
                 |ts d mr _ IH Hm
                 |ts counter d ts' counter' _ IH Ha].
  - by eapply generateInitialTiles_occupancy.
  - by eapply moveTiles_occupancy.
  - by eapply addRandomTile_occupancy.
Qed.

(** C5 — Occupancy invariant.  Every reachable board (the initial setup,
    then [moveTiles] and [addRandomTile] in any order) has all its tiles at
    rows and columns in [0, 4) and no two tiles in one cell; [moveTiles] and
    [addRandomTile] both keep this invariant. *)
Theorem occupancy_invariant :
  (∀ ts, reachable ts → occupancy ts)
  ∧ (∀ ts d mr, occupancy ts → moveTiles ts d = Some mr → occupancy (tiles mr))
  ∧ (∀ ts counter dr ts' counter',
       occupancy ts → addRandomTile ts counter dr = Some (ts', counter') →
       occupancy ts').
Proof.
  split; [exact reachable_occupancy|]. split.
  - exact moveTiles_occupancy.
  - exact addRandomTile_occupancy.
Qed.

Lemma occupancy_invariant_witness :
  occupancy [mkTile 1 2 0 0 true false; mkTile 2 4 0 1 true false]
  ∧ occupancy [mkTile 1 2 3 0 false false; mkTile 2 4 3 1 false false]
  ∧ occupancy [mkTile 1 2 3 0 false false; mkTile 2 4 3 1 false false;
               mkTile 3 2 0 0 true false].
Proof.
  destruct occupancy_invariant as (Hreach & Hmove & Hspawn).
  assert (reachable [mkTile 1 2 0 0 true false; mkTile 2 4 0 1 true false]) as Hr.
  { apply (reachable_initial 0 (λ i, mkDraw 0 (bool_decide (i = 0%nat))) _ 2).
    by vm_compute. }
  pose proof (Hreach _ Hr) as Ho1.
  assert (occupancy [mkTile 1 2 3 0 false false; mkTile 2 4 3 1 false false]) as Ho2.
  { apply (Hmove _ down (mkMoveResult _ true 0) Ho1). by vm_compute. }
  split; [exact Ho1|]. split; [exact Ho2|].
  apply (Hspawn _ 2 (mkDraw 0 true) _ 3 Ho2). by vm_compute.
Defined.

(** ** The terminal-state test *)

Lemma existsb_indices (f : Z → bool) :
  existsb f indices = true ↔ ∃ i, 0 <= i < BOARD_SIZE ∧ f i = true.
Proof.
  rewrite existsb_exists. split.
  - intros (i & Hi & Hf). exists i. split; [|done].
    by apply elem_of_indices, list_elem_of_In.
  - intros (i & Hi & Hf). exists i. split; [|done].
    by apply list_elem_of_In, elem_of_indices.
Qed.

Lemma same_value_true o t :
  same_value o t = true ↔ ∃ n, o = Some n ∧ value n = value t.
Proof.
  destruct o as [n|]; simpl.
  - rewrite Z.eqb_eq. split; [by exists n|]. by intros (? & [= <-] & ?).
  - split; [done|]. by intros (? & ? & ?).
Qed.

(** C6 — Terminal-state test.  [hasAvailableMoves] is true on every board
    of fewer than 16 tiles.  On a full board (16 tiles satisfying the
    occupancy invariant) it returns, and it is true exactly when two
    orthogonally adjacent tiles, in any of the four directions, have the
    same value: looking only to the right and downwards misses no pair. *)
Theorem terminal_state_test :
  (∀ ts, (length ts < 16)%nat → hasAvailableMoves ts = Some true)
  ∧ (∀ ts, occupancy ts → length ts = 16%nat →
       ∃ b, hasAvailableMoves ts = Some b
            ∧ (b = true ↔ ∃ t1 t2, t1 ∈ ts ∧ t2 ∈ ts ∧ adjacent t1 t2
                                   ∧ value t1 = value t2)).
Proof.
  split.
  - intros ts Hlen. unfold hasAvailableMoves.
    destruct (Z.ltb_spec (Z.of_nat (length ts)) (BOARD_SIZE * BOARD_SIZE)); [done|].
    unfold BOARD_SIZE in *. lia.
  - intros ts Hocc Hlen. unfold hasAvailableMoves.
    destruct (Z.ltb_spec (Z.of_nat (length ts)) (BOARD_SIZE * BOARD_SIZE)) as [Hlt|_].
    { unfold BOARD_SIZE in *. lia. }
    destruct (proj1 (grid_fill_total ts ∅) (occupancy_rows ts Hocc)) as [g Hg].
    rewrite Hg. eexists. split; [reflexivity|].
    assert (∀ t, t ∈ ts → g !! (row t, col t) = Some t) as Hget.
    { intros t Ht. apply (grid_fill_elem ts ∅ g t Hg); [apply Hocc|done]. }
    assert (∀ k t, g !! k = Some t → t ∈ ts ∧ coords t = k) as Hin.
    { intros k t Hk. destruct (grid_fill_lookup _ _ _ _ _ Hg Hk) as [?|Hl]; [done|].
      by rewrite lookup_empty in Hl. }
    assert (∀ t, t ∈ ts → 0 <= row t < BOARD_SIZE ∧ 0 <= col t < BOARD_SIZE) as Hrange.
    { intros t Ht. destruct Hocc as [Hf _]. rewrite Forall_forall in Hf.
      destruct (Hf t Ht). by rewrite <- !in_board_spec. }
    rewrite existsb_indices. split.
    + intros (r & Hr & (c & Hc & Hcell)%existsb_indices).
      unfold cell_has_move in Hcell.
      destruct (g !! (r, c)) as [t|] eqn:Et; [|done].
      destruct (Hin _ _ Et) as [Ht [= Htr Htc]].
      apply orb_true_iff in Hcell as [Hn|Hn];
        apply same_value_true in Hn as (n & En & Hv).
      * destruct (c + 1 <? BOARD_SIZE); [|done].
        destruct (Hin _ _ En) as [Hnin [= Hnr Hnc]].
        exists t, n. do 2 (split; [done|]). split; [|done].
        left. split; lia.
      * destruct (r + 1 <? BOARD_SIZE); [|done].
        destruct (Hin _ _ En) as [Hnin [= Hnr Hnc]].
        exists t, n. do 2 (split; [done|]). split; [|done].
        right. split; lia.
    + intros (t1 & t2 & H1 & H2 & Hadj & Hv).
      pose proof (Hrange _ H1) as [Hr1 Hc1]. pose proof (Hrange _ H2) as [Hr2 Hc2].
      assert (∀ a b, a ∈ ts → b ∈ ts → value a = value b →
                (row a = row b ∧ col b = col a + 1)
                ∨ (col a = col b ∧ row b = row a + 1) →
                ∃ r, 0 <= r < BOARD_SIZE
                     ∧ existsb (λ c, cell_has_move g r c) indices = true) as Hfrom.
      { intros a b Ha Hb Hab Hnext.
        pose proof (Hrange _ Ha) as [Hra Hca]. pose proof (Hrange _ Hb) as [Hrb Hcb].
        exists (row a). split; [done|]. apply existsb_indices.
        exists (col a). split; [done|]. unfold cell_has_move.
        rewrite (Hget _ Ha). apply orb_true_iff.
        destruct Hnext as [[Hr Hc]|[Hc Hr]].
        - left. destruct (Z.ltb_spec (col a + 1) BOARD_SIZE); [|lia].
          rewrite Hr, <- Hc, (Hget _ Hb). simpl. by apply Z.eqb_eq.
        - right. destruct (Z.ltb_spec (row a + 1) BOARD_SIZE); [|lia].
          rewrite Hc, <- Hr, (Hget _ Hb). simpl. by apply Z.eqb_eq. }
      destruct Hadj as [[Hr Hc]|[Hc Hr]].
      * destruct (Z.lt_ge_cases (col t1) (col t2)).
        -- apply (Hfrom t1 t2); [done..|]. left. split; lia.
        -- apply (Hfrom t2 t1); [done..|]. left. split; lia.
      * destruct (Z.lt_ge_cases (row t1) (row t2)).
        -- apply (Hfrom t1 t2); [done..|]. right. split; lia.
        -- apply (Hfrom t2 t1); [done..|]. right. split; lia.
Qed.

Lemma terminal_state_test_witness :
  let full := (λ k : Z * Z, mkTile (4 * k.1 + k.2 + 1)
                               (if Z.even (k.1 + k.2) then 2 else 4)
                               k.1 k.2 false false) <$> cells in
  occupancy full ∧ length full = 16%nat
  ∧ ∃ b, hasAvailableMoves full = Some b
         ∧ (b = true ↔ ∃ t1 t2, t1 ∈ full ∧ t2 ∈ full ∧ adjacent t1 t2
                                ∧ value t1 = value t2).
Proof.
  intros full.
  assert (occupancy full) as Hocc.
  { split.
    - apply (bool_decide_unpack _). by vm_compute.
    - apply (bool_decide_unpack _). by vm_compute. }
  split; [exact Hocc|]. split; [reflexivity|].
  exact (proj2 terminal_state_test full Hocc eq_refl).
Defined.

(** C8 — Win trigger.  [containsTargetTile] is true exactly when some tile
    has a value at least the target; a board with a tile of value 4096
    contains the target 2048. *)
Theorem win_trigger :
  (∀ ts target, containsTargetTile ts target = true
                ↔ ∃ t, t ∈ ts ∧ target <= value t)
  ∧ (∀ ts t, t ∈ ts → value t = 4096 → containsTargetTile ts 2048 = true).
Proof.
  assert (∀ ts target, containsTargetTile ts target = true
                       ↔ ∃ t, t ∈ ts ∧ target <= value t) as Hiff.
  { intros ts target. unfold containsTargetTile. rewrite existsb_exists. split.
    - intros (t & Ht & Hv). exists t. split; [by apply list_elem_of_In|].
      apply Z.geb_le in Hv. lia.
    - intros (t & Ht & Hv). exists t. split; [by apply list_elem_of_In|].
      apply Z.geb_le. lia. }
  split; [exact Hiff|]. intros ts t Ht Hv. apply Hiff. exists t. split; [done|]. lia.
Qed.

Lemma win_trigger_witness :
  containsTargetTile [mkTile 1 2 0 0 false false; mkTile 7 4096 2 1 false true] 2048
  = true.
Proof.
  apply (proj2 win_trigger _ (mkTile 7 4096 2 1 false true)); [|reflexivity].
  right. left.
Defined.

(** ** The session *)

Lemma moveTiles_positive ts d mr :
  Forall (λ t, 0 < value t) ts → moveTiles ts d = Some mr →
  Forall (λ t, 0 < value t) (tiles mr) ∧ 0 <= scoreGained mr.
Proof.
  intros Hpos. rewrite moveTiles_unfold.
  destruct (grid_fill _ _) as [g|] eqn:Hg; [|done].
  destruct (moved (move_lines g d)); intros [= <-]; simpl.
  - split.
    + rewrite (sort_by_perm canonical). apply move_lines_positive.
      by apply (grid_values (λ v, 0 < v) ts).
    + apply move_lines_score. apply (grid_values (λ v, 0 <= v) ts); [done|].
      eapply Forall_impl; [exact Hpos|]. simpl. intros; lia.
  - split; [|done]. by apply Forall_fmap.
Qed.

Lemma spawned_positive counter d choice : 0 < value (spawned counter d choice).
Proof. unfold spawned, spawn_value. simpl. by destruct (small d). Qed.

Lemma addRandomTile_positive ts counter d ts' counter' :
  Forall (λ t, 0 < value t) ts → addRandomTile ts counter d = Some (ts', counter') →
  Forall (λ t, 0 < value t) ts'.
Proof.
  intros Hpos [(_ & -> & _)|(es & choice & _ & _ & -> & _)]%addRandomTile_cases.
  - done.
  - apply Forall_app. split; [done|]. constructor; [|constructor].
    apply spawned_positive.
Qed.

Lemma initial_loop_positive n i draws ts counter ts' counter' :
  Forall (λ t, 0 < value t) ts →
  initial_loop n i draws ts counter = Some (ts', counter') →
  Forall (λ t, 0 < value t) ts'.
Proof.
  revert i ts counter. induction n as [|n IH]; intros i ts counter Hpos; simpl.
  - by intros [= <- <-].
  - destruct (getEmptyPositions ts) as [[|e es]|]; [| |done].
    + by intros [= <- <-].
    + destruct (_ !! pick (draws i)) as [choice|]; [|done].
      apply IH. apply Forall_app. split; [done|]. constructor; [|constructor].
      apply (spawned_positive counter (draws i) choice).
Qed.

Lemma handleMove_cases s d dr s' :
  handleMove s d dr = Some s' →
  (gameOver s = true ∧ s' = s)
  ∨ (gameOver s = false
     ∧ ∃ mr, moveTiles (s_tiles s) d = Some mr
        ∧ ((moved mr = false ∧ s' = s)
           ∨ (moved mr = true
              ∧ ∃ withNewTile counter' available,
                  addRandomTile (tiles mr) (tileIdRef s) dr
                  = Some (withNewTile, counter')
                  ∧ hasAvailableMoves withNewTile = Some available
                  ∧ s' = mkSession withNewTile (score s + scoreGained mr)
                           (Z.max (bestScore s) (score s + scoreGained mr))
                           (negb available)
                           (hasWon s || containsTargetTile withNewTile 2048)
                           counter'))).
Proof.
  unfold handleMove. destruct (gameOver s); [intros [= <-]; by left|].
  destruct (moveTiles (s_tiles s) d) as [mr|]; [|done].
  intros H. right. split; [done|]. exists mr. split; [done|].
  destruct (moved mr); simpl in H; [|injection H as <-; by left].
  right. split; [done|].
  destruct (addRandomTile _ _ _) as [[w c']|] eqn:Ea; [|done].
  destruct (hasAvailableMoves w) as [a|] eqn:Eh; [|done].
  injection H as <-. by exists w, c', a.
Qed.

Lemma reachable_session_positive s :
  reachable_session s → Forall (λ t, 0 < value t) (s_tiles s).
Proof.
  induction 1 as [draws s Hi|s d dr s' _ IH Hm|s draws s' _ IH Hn].
  - unfold initialSession in Hi.
    destruct (generateInitialTiles 0 draws) as [[ts c]|] eqn:E; [|done].
    injection Hi as <-. simpl.
    by eapply (initial_loop_positive _ _ _ []), E.
  - apply handleMove_cases in Hm
      as [[_ ->]|(_ & mr & Hmr & [[_ ->]|(_ & w & c & a & Ha & _ & ->)])];
      [done|done|]. simpl.
    eapply addRandomTile_positive; [|exact Ha].
    by eapply moveTiles_positive.
  - unfold handleNewGame in Hn.
    destruct (generateInitialTiles 0 draws) as [[ts c]|] eqn:E; [|done].
    injection Hn as <-. simpl.
    by eapply (initial_loop_positive _ _ _ []), E.
Qed.

Lemma reachable_session_occupancy s :
  reachable_session s → occupancy (s_tiles s).
Proof.
  induction 1 as [draws s Hi|s d dr s' _ IH Hm|s draws s' _ IH Hn].
  - unfold initialSession in Hi.
    destruct (generateInitialTiles 0 draws) as [[ts c]|] eqn:E; [|done].
    injection Hi as <-. simpl. by eapply generateInitialTiles_occupancy.
  - apply handleMove_cases in Hm
      as [[_ ->]|(_ & mr & Hmr & [[_ ->]|(_ & w & c & a & Ha & _ & ->)])];
      [done|done|]. simpl.
    eapply addRandomTile_occupancy; [|exact Ha].
    by eapply moveTiles_occupancy.
  - unfold handleNewGame in Hn.
    destruct (generateInitialTiles 0 draws) as [[ts c]|] eqn:E; [|done].
    injection Hn as <-. simpl. by eapply generateInitialTiles_occupancy.
Qed.

Lemma hasAvailableMoves_total ts :
  Forall (λ t, in_board (row t) = true) ts → is_Some (hasAvailableMoves ts).
Proof.
  intros Hrows. unfold hasAvailableMoves. destruct (_ <? _); [by eexists|].
  destruct (proj1 (grid_fill_total ts ∅) Hrows) as [g ->]. by eexists.
Qed.

(** A session that the game can be in accepts every direction: with a draw
    that picks the first empty cell, [handleMove] returns. *)
Lemma handleMove_progress s d dr :
  reachable_session s → pick dr = 0%nat → is_Some (handleMove s d dr).
Proof.
  intros Hs Hpick. pose proof (reachable_session_occupancy s Hs) as Hocc.
  unfold handleMove. destruct (gameOver s); [by eexists|].
  destruct (proj1 (moveTiles_total (s_tiles s) d) (occupancy_rows _ Hocc))
    as [mr Hmr].
  rewrite Hmr. destruct (moved mr) eqn:Hm; simpl; [|by eexists].
  pose proof (moveTiles_occupancy _ _ _ Hocc Hmr) as Hocc'.
  destruct (getEmptyPositions_spec (tiles mr) (occupancy_rows _ Hocc'))
    as (es & Hes & _).
  unfold addRandomTile. rewrite Hes. destruct es as [|e es].
  - destruct (hasAvailableMoves_total (tiles mr) (occupancy_rows _ Hocc'))
      as [a ->]. by eexists.
  - rewrite Hpick. simpl.
    match goal with |- context [hasAvailableMoves ?w] =>
      destruct (hasAvailableMoves_total w) as [a ->]; [|by eexists] end.
    apply occupancy_rows.
    apply (spawn_occupancy (tiles mr) (e :: es) (tileIdRef s) dr e); [done| |done].
    by rewrite Hpick.
Qed.

(** C9 — Monotonic score.  A move of a session that the game can be in
    never lowers the score.  When [moveTiles] reports no move, or the game
    is over, the session is unchanged; when it reports a move, the new
    score is the old one plus [scoreGained], which is not negative, and the
    best score becomes the maximum of its old value and the new score. *)
Theorem monotonic_score (s s' : Session) (d : Direction) (dr : Draw)
    (Hreach : reachable_session s) (Hstep : handleMove s d dr = Some s') :
  score s <= score s'
  ∧ (gameOver s = true → s' = s)
  ∧ ∀ mr, moveTiles (s_tiles s) d = Some mr →
      (moved mr = false → s' = s)
      ∧ (gameOver s = false → moved mr = true →
         0 <= scoreGained mr
         ∧ score s' = score s + scoreGained mr
         ∧ bestScore s' = Z.max (bestScore s) (score s')).
Proof.
  pose proof (reachable_session_positive s Hreach) as Hpos.
  apply handleMove_cases in Hstep
    as [[Hover ->]|(Hover & mr & Hmr & [[Hm ->]|(Hm & w & c & a & Ha & _ & ->)])].
  - split; [done|]. split; [done|]. intros mr Hmr. split; [done|]. congruence.
  - split; [done|]. split; [done|]. intros mr' Hmr'. split; [done|].
    intros _ Hm'. congruence.
  - destruct (moveTiles_positive _ _ _ Hpos Hmr) as [_ Hgain]. simpl.
    split; [lia|]. split; [congruence|]. intros mr' Hmr'.
    rewrite Hmr in Hmr'. injection Hmr' as <-. split; [congruence|]. done.
Qed.

Lemma monotonic_score_witness :
  let s := mkSession [mkTile 1 2 0 0 true false; mkTile 2 2 0 1 true false]
                     0 0 false false 2 in
  let s' := mkSession [mkTile 1 4 0 0 false true; mkTile 3 2 0 1 true false]
                      4 4 false false 3 in
  reachable_session s ∧ handleMove s left (mkDraw 0 true) = Some s'
  ∧ score s <= score s'.
Proof.
  intros s s'.
  assert (reachable_session s) as Hs.
  { apply (session_initial (λ _, mkDraw 0 true)). by vm_compute. }
  assert (handleMove s left (mkDraw 0 true) = Some s') as Hm by (by vm_compute).
  split; [exact Hs|]. split; [exact Hm|].
  exact (proj1 (monotonic_score s s' left (mkDraw 0 true) Hs Hm)).
Defined.

(** ** One line *)

Lemma along_target_pos low along t ti :
  (along t =? target low ti) = (pos low along t =? ti).
Proof.
  unfold target, pos, BOARD_SIZE. destruct low; [done|].
  destruct (Z.eqb_spec (along t) (4 - 1 - ti)), (Z.eqb_spec (4 - 1 - along t) ti);
    (done || lia).
Qed.

Lemma merged_sum_app l k : merged_sum (l ++ k) = merged_sum l + merged_sum k.
Proof. unfold merged_sum. by rewrite filter_app, sum_values_app. Qed.

Lemma merged_sum_perm l k : l ≡ₚ k → merged_sum l = merged_sum k.
Proof. intros Hp. unfold merged_sum. apply sum_values_perm. by rewrite Hp. Qed.

Section LineMore.
Variables (along across : Tile → Z) (low : bool) (idx : Z).
Variable step : Tile → bool → Line → Line.
Hypothesis Hstep : step_spec along across low idx step.

(** A line reports a move exactly when it was not settled. *)
Lemma scan_moved_settled l acc :
  Forall (λ t, across t = idx) l →
  line_moved (scan step l acc)
  = line_moved acc || negb (settled low along l (targetIndex acc)).
Proof.
  intros Hl.
  set (M := line_moved acc || negb (settled low along l (targetIndex acc))).
  cut (Forall (λ t, across t = idx) []
       ∧ line_moved (scan step l acc)
         || negb (settled low along [] (targetIndex (scan step l acc))) = M).
  { simpl. rewrite orb_false_r. by intros [_ ?]. }
  apply (scan_rule step (λ k a,
    Forall (λ t, across t = idx) k
    ∧ line_moved a || negb (settled low along k (targetIndex a)) = M)).
  - intros t a [Hf <-]. apply Forall_cons in Hf as [Hac _].
    split; [constructor|].
    rewrite (step_moved _ _ _ _ _ Hstep), (step_index _ _ _ _ _ Hstep).
    rewrite along_target_pos, Hac, Z.eqb_refl. simpl.
    by destruct (line_moved a), (pos low along t =? targetIndex a).
  - intros t n rest a [Hf <-] Hv. apply Forall_cons in Hf as [Hac Hf].
    apply Forall_cons in Hf as [_ Hf]. split; [done|].
    rewrite (step_moved _ _ _ _ _ Hstep). simpl settled.
    rewrite Hv, Z.eqb_refl. simpl. rewrite andb_false_r. simpl.
    by rewrite !orb_true_r.
  - intros t n rest a [Hf <-] Hv. apply Forall_cons in Hf as [Hac Hf].
    split; [done|].
    rewrite (step_moved _ _ _ _ _ Hstep), (step_index _ _ _ _ _ Hstep).
    rewrite along_target_pos, Hac, Z.eqb_refl.
    change (settled low along (t :: n :: rest) (targetIndex a))
      with ((pos low along t =? targetIndex a) && negb (value n =? value t)
            && settled low along (n :: rest) (targetIndex a + 1)).
    apply Z.eqb_neq in Hv. rewrite Hv. simpl negb.
    destruct (pos low along t =? targetIndex a), (line_moved a); simpl; try done.
    all: by rewrite ?orb_true_r.
  - done.
Qed.

(** The score of a line is the sum of its merged tiles. *)
Lemma scan_score_merged l acc :
  line_score (scan step l acc) - merged_sum (line_tiles (scan step l acc))
  = line_score acc - merged_sum (line_tiles acc).
Proof.
  apply (scan_rule step (λ _ a,
    line_score a - merged_sum (line_tiles a)
    = line_score acc - merged_sum (line_tiles acc))); [| | |done].
  - intros t a <-.
    destruct (step_out _ _ _ _ _ Hstep t false a) as (t' & -> & _ & Hv & Hj & _).
    rewrite (step_score _ _ _ _ _ Hstep), merged_sum_app.
    unfold merged_sum at 2. rewrite filter_cons_False by (by rewrite Hj).
    simpl. lia.
  - intros t n rest a <- _.
    destruct (step_out _ _ _ _ _ Hstep t true a) as (t' & -> & _ & Hv & Hj & _).
    rewrite (step_score _ _ _ _ _ Hstep), merged_sum_app.
    unfold merged_sum at 2. rewrite filter_cons_True by done.
    simpl. lia.
  - intros t n rest a <- _.
    destruct (step_out _ _ _ _ _ Hstep t false a) as (t' & -> & _ & Hv & Hj & _).
    rewrite (step_score _ _ _ _ _ Hstep), merged_sum_app.
    unfold merged_sum at 2. rewrite filter_cons_False by (by rewrite Hj).
    simpl. lia.
Qed.

(** The scan copies [isNew] from the tiles it keeps. *)
Lemma scan_not_new l acc :
  Forall (λ t, isNew t = false) l →
  Forall (λ t, isNew t = false) (line_tiles acc) →
  Forall (λ t, isNew t = false) (line_tiles (scan step l acc)).
Proof.
  intros Hl Hacc.
  cut (Forall (λ t, isNew t = false) []
       ∧ Forall (λ t, isNew t = false) (line_tiles (scan step l acc))).
  { by intros [_ ?]. }
  apply (scan_rule step (λ k a,
    Forall (λ t, isNew t = false) k
    ∧ Forall (λ t, isNew t = false) (line_tiles a))); [| | |done].
  - intros t a [Hk Ha]. apply Forall_cons in Hk as [Ht _].
    destruct (step_out _ _ _ _ _ Hstep t false a) as (t' & -> & _ & _ & _ & Hn & _).
    split; [constructor|]. apply Forall_app. split; [done|].
    constructor; [congruence|constructor].
  - intros t n rest a [Hk Ha] _. apply Forall_cons in Hk as [Ht Hk].
    apply Forall_cons in Hk as [_ Hk].
    destruct (step_out _ _ _ _ _ Hstep t true a) as (t' & -> & _ & _ & _ & Hn & _).
    split; [done|]. apply Forall_app. split; [done|].
    constructor; [congruence|constructor].
  - intros t n rest a [Hk Ha] _. apply Forall_cons in Hk as [Ht Hk].
    destruct (step_out _ _ _ _ _ Hstep t false a) as (t' & -> & _ & _ & _ & Hn & _).
    split; [done|]. apply Forall_app. split; [done|].
    constructor; [congruence|constructor].
Qed.
End LineMore.

(** In a line in strict order from the destination edge, being settled
    means that every tile is in the first slot or has, in the slot before
    its own, a tile of another value. *)
Lemma settled_stuck along across low idx ti (l : list Tile) :
  ordered along across low idx ti l →
  settled low along l ti = true
  ↔ ∀ t, t ∈ l →
      pos low along t = ti
      ∨ ∃ u, u ∈ l ∧ pos low along u = pos low along t - 1 ∧ value u ≠ value t.
Proof.
  revert ti. induction l as [|t rest IH]; intros ti Ho.
  { split; [|done]. intros _ t Ht. by apply elem_of_nil in Ht. }
  pose proof (ordered_tail _ _ _ _ _ _ _ Ho) as Ho'.
  destruct Ho as [Hs Hf]. apply StronglySorted_inv in Hs as [Hs Hlt].
  apply Forall_cons in Hf as [[Hge _] _]. rewrite Forall_forall in Hlt.
  simpl settled. rewrite !andb_true_iff, Z.eqb_eq. split.
  - intros [[Hpos Hnext] Hrest] x Hx.
    rewrite <- Hpos in Hrest. pose proof (proj1 (IH _ Ho') Hrest) as Hrest'.
    apply elem_of_cons in Hx as [->|Hx]; [by left|]. right.
    destruct (Hrest' x Hx) as [Hx1|(u & Hu & Hpu & Hvu)].
    + exists t. split; [by left|]. split; [lia|].
      destruct rest as [|n rest']; [by apply elem_of_nil in Hx|].
      apply negb_true_iff, Z.eqb_neq in Hnext.
      assert (x = n) as ->; [|done].
      apply elem_of_cons in Hx as [|Hx]; [done|]. exfalso.
      destruct Ho' as [Hs' Hf']. apply StronglySorted_inv in Hs' as [_ Hn].
      rewrite Forall_forall in Hn. specialize (Hn x Hx).
      apply Forall_cons in Hf' as [[Hn' _] _]. lia.
    + exists u. split; [by right|done].
  - intros Hall.
    assert (pos low along t = ti) as Hpos.
    { destruct (Hall t) as [|(u & Hu & Hpu & _)]; [by left|done|].
      apply elem_of_cons in Hu as [->|Hu]; [lia|]. specialize (Hlt u Hu). lia. }
    assert (∀ x, x ∈ rest →
              pos low along x = ti + 1
              ∨ ∃ u, u ∈ rest ∧ pos low along u = pos low along x - 1
                     ∧ value u ≠ value x) as Hrest.
    { intros x Hx. destruct (Hall x) as [Hx0|(u & Hu & Hpu & Hvu)]; [by right| |].
      - specialize (Hlt x Hx). lia.
      - apply elem_of_cons in Hu as [->|Hu]; [left; lia|]. right. by exists u. }
    split; [split; [done|]|].
    + destruct rest as [|n rest']; [done|].
      apply negb_true_iff, Z.eqb_neq.
      destruct (Hall n) as [Hn0|(u & Hu & Hpu & Hvu)]; [right; by left| |].
      * assert (n ∈ n :: rest') as Hn by (by left). specialize (Hlt n Hn). lia.
      * apply elem_of_cons in Hu as [->|Hu]; [done|]. exfalso.
        apply elem_of_cons in Hu as [->|Hu]; [lia|].
        destruct Ho' as [Hs' _]. apply StronglySorted_inv in Hs' as [_ Hn].
        rewrite Forall_forall in Hn. specialize (Hn u Hu). lia.
    + assert (ordered along across low idx (ti + 1) rest) as Ho''
        by (eapply ordered_weaken; [|exact Ho']; lia).
      by apply (IH _ Ho'').
Qed.

(** ** All the lines *)

Section SweepMore.
Variables (along across : Tile → Z) (low : bool).
Variable step : Z → Tile → bool → Line → Line.
Variable cmp : Tile → Tile → Z.
Variable cell : Z → Z → Z * Z.
Variable g : gmap (Z * Z) Tile.
Variable ts : list Tile.
Hypothesis Hstep : ∀ idx, step_spec along across low idx (step idx).
Hypothesis Hcmp : ∀ a b, cmp a b <= 0 ↔ pos low along a <= pos low along b.
Hypothesis Hcell : ∀ t, coords t = cell (across t) (along t).
Hypothesis Hinj : ∀ i j i' j', cell i j = cell i' j' → i = i' ∧ j = j'.
Hypothesis Hboard : ∀ t, coords t ∈ cells → along t ∈ indices ∧ across t ∈ indices.
Hypothesis Hg : grid_fill ts ∅ = Some g.
Hypothesis Hocc : occupancy ts.

Lemma sweep_score_merged :
  scoreGained (sweep (line_of step cmp) g cell)
  = merged_sum (tiles (sweep (line_of step cmp) g cell)).
Proof.
  apply (sweep_rule (line_of step cmp) g cell
           (λ _ acc, scoreGained acc = merged_sum (tiles acc))); [done|].
  intros _ idx acc _ IH. unfold add_line. simpl. rewrite merged_sum_app, IH.
  pose proof (scan_score_merged _ _ _ _ _ (Hstep idx)
                (sort_by cmp (extract g cell idx)) line_start) as H.
  fold (line_of step cmp (extract g cell idx) idx) in H. simpl in H.
  change (merged_sum []) with 0 in H. lia.
Qed.

Lemma sweep_not_new :
  (∀ k t, g !! k = Some t → isNew t = false) →
  Forall (λ t, isNew t = false) (tiles (sweep (line_of step cmp) g cell)).
Proof.
  intros Hnew.
  apply (sweep_rule (line_of step cmp) g cell
           (λ _ acc, Forall (λ t, isNew t = false) (tiles acc))); [constructor|].
  intros _ idx acc _ IH. unfold add_line. simpl. apply Forall_app. split; [done|].
  apply (scan_not_new _ _ _ _ _ (Hstep idx)); [|constructor].
  rewrite (sort_by_perm cmp). apply Forall_forall. intros t Ht.
  unfold extract in Ht. apply list_elem_of_omap in Ht as (j & _ & E). eauto.
Qed.

Lemma sweep_ids :
  id <$> tiles (sweep (line_of step cmp) g cell)
  ⊆+ id <$> omap (λ k, g !! k) (keys_of cell indices).
Proof.
  apply (sweep_rule (line_of step cmp) g cell
    (λ seen acc, id <$> tiles acc ⊆+ id <$> omap (λ k, g !! k) (keys_of cell seen)));
    [done|].
  intros seen idx acc _ IH. unfold add_line, keys_of in *. simpl tiles.
  rewrite bind_app, omap_app, !fmap_app, bind_one, <- extract_keys.
  apply submseteq_app; [done|].
  etrans; [apply sublist_submseteq, collapsed_ids, (line_of_collapsed _ _ _ _ _ Hstep)|].
  by rewrite (sort_by_perm cmp).
Qed.

Lemma sweep_count :
  length (omap (λ k, g !! k) (keys_of cell indices))
  = (length (tiles (sweep (line_of step cmp) g cell))
     + length (filter (λ t, justMerged t = true)
                 (tiles (sweep (line_of step cmp) g cell))))%nat.
Proof.
  apply (sweep_rule (line_of step cmp) g cell
    (λ seen acc, length (omap (λ k, g !! k) (keys_of cell seen))
                 = (length (tiles acc)
                    + length (filter (λ t, justMerged t = true) (tiles acc)))%nat));
    [done|].
  intros seen idx acc _ IH. unfold add_line, keys_of in *. simpl tiles.
  rewrite bind_app, omap_app, bind_one, <- extract_keys, filter_app, !length_app, IH.
  pose proof (collapsed_count _ _
                (line_of_collapsed along across low step cmp Hstep
                   (extract g cell idx) idx)) as Hc.
  rewrite (Permutation_length (sort_by_perm cmp _)) in Hc. lia.
Qed.

Lemma extract_elem idx t :
  idx ∈ indices → t ∈ extract g cell idx ↔ t ∈ ts ∧ across t = idx.
Proof.
  intros Hidx. unfold extract. rewrite list_elem_of_omap. split.
  - intros (j & _ & E).
    destruct (grid_fill_lookup _ _ _ _ _ Hg E) as [[Hin Hc]|Hl];
      [|by rewrite lookup_empty in Hl].
    split; [done|]. rewrite Hcell in Hc. by apply Hinj in Hc as [? _].
  - intros [Hin <-].
    destruct (Hboard t (occupancy_cells ts t Hocc Hin)) as [Hal _].
    exists (along t). split; [done|]. rewrite <- Hcell.
    apply (grid_fill_elem ts ∅ g t Hg); [apply Hocc|done].
Qed.

Lemma sweep_moved_settled :
  moved (sweep (line_of step cmp) g cell) = false
  ↔ ∀ idx, idx ∈ indices →
      settled low along (sort_by cmp (extract g cell idx)) 0 = true.
Proof.
  pose proof (grid_fill_ok _ _ Hg) as Hok.
  cut ((moved (sweep (line_of step cmp) g cell) = false
        ↔ ∀ idx, idx ∈ indices →
            settled low along (sort_by cmp (extract g cell idx)) 0 = true)
       ∧ True); [tauto|].
  apply (sweep_rule (line_of step cmp) g cell
    (λ seen acc,
       (moved acc = false
        ↔ ∀ idx, idx ∈ seen →
            settled low along (sort_by cmp (extract g cell idx)) 0 = true)
       ∧ True)).
  { split; [|done]. split; [|done]. intros _ idx Hin. by apply elem_of_nil in Hin. }
  intros seen idx acc Hidx [IH _]. split; [|done].
  unfold add_line. simpl moved. rewrite orb_false_iff, IH.
  assert (line_moved (line_of step cmp (extract g cell idx) idx) = false
          ↔ settled low along (sort_by cmp (extract g cell idx)) 0 = true) as ->.
  { unfold line_of.
    rewrite (scan_moved_settled _ _ _ _ _ (Hstep idx)).
    - simpl. by destruct (settled _ _ _ _).
    - destruct (extract_ordered along across low step cmp cell g
                  Hstep Hcmp Hcell Hinj idx Hok) as [_ Hf].
      eapply Forall_impl; [exact Hf|]. simpl. tauto. }
  split.
  - intros [Hseen Hnew] i [Hi|Hi]%elem_of_app; [by apply Hseen|].
    apply list_elem_of_singleton in Hi. by subst.
  - intros Hall. split.
    + intros i Hi. apply Hall, elem_of_app. by left.
    + apply Hall, elem_of_app. right. by apply list_elem_of_singleton.
Qed.

(** No line moves exactly when every tile of the board is in the first
    slot of its line or has, in the slot before its own, a tile of another
    value. *)
Lemma sweep_noop_stuck :
  moved (sweep (line_of step cmp) g cell) = false
  ↔ ∀ t, t ∈ ts →
      pos low along t = 0
      ∨ ∃ u, u ∈ ts ∧ across u = across t
             ∧ pos low along u = pos low along t - 1 ∧ value u ≠ value t.
Proof.
  pose proof (grid_fill_ok _ _ Hg) as Hok.
  rewrite sweep_moved_settled. split.
  - intros Hall t Ht.
    destruct (Hboard t (occupancy_cells ts t Hocc Ht)) as [_ Hidx].
    specialize (Hall _ Hidx).
    assert (ordered along across low (across t) 0
              (sort_by cmp (extract g cell (across t)))) as Ho
      by (by apply (extract_ordered along across low step)).
    pose proof (proj1 (settled_stuck along across low (across t) 0 _ Ho) Hall)
      as Hall'.
    destruct (Hall' t) as [|(u & Hu & Hpu & Hvu)]; [|by left|].
    { rewrite (sort_by_perm cmp). by apply extract_elem. }
    right. exists u. rewrite (sort_by_perm cmp) in Hu.
    apply extract_elem in Hu as [Hu Hau]; done.
  - intros Hall idx Hidx.
    apply (settled_stuck along across low idx 0);
      [by apply (extract_ordered along across low step)|].
    intros t Ht. rewrite (sort_by_perm cmp) in Ht.
    apply extract_elem in Ht as [Ht Hat]; [|done].
    destruct (Hall t Ht) as [|(u & Hu & Hau & Hpu & Hvu)]; [by left|].
    right. exists u. split; [|done].
    rewrite (sort_by_perm cmp). apply extract_elem; [done|]. split; [done|congruence].
Qed.
End SweepMore.

(** ** The board *)

Ltac line_side :=
  first [ intros ?; apply slideRow_step_spec
        | intros ?; apply slideColumn_step_spec
        | apply row_cmp_key | apply column_cmp_key
        | apply row_cell_inj | apply column_cell_inj
        | done ].

Lemma row_board t : coords t ∈ cells → col t ∈ indices ∧ row t ∈ indices.
Proof. unfold coords. intros H%cells_spec. rewrite !elem_of_indices. tauto. Qed.

Lemma column_board t : coords t ∈ cells → row t ∈ indices ∧ col t ∈ indices.
Proof. unfold coords. intros H%cells_spec. rewrite !elem_of_indices. tauto. Qed.

Lemma move_lines_noop (ts : list Tile) g d :
  grid_fill ts ∅ = Some g → occupancy ts →
  moved (move_lines g d) = false ↔ ∀ t, t ∈ ts → stuck d ts t.
Proof.
  intros Hg Hocc. unfold move_lines, stuck.
  destruct d; simpl is_horizontal; cbv iota.
  - rewrite move_columns_line_of.
    rewrite (sweep_noop_stuck row col (is_up up) _ _ column_cell g ts);
      [|line_side|line_side|line_side|line_side|apply column_board|done|done].
    apply forall_proper. intros t. apply forall_proper. intros Ht.
    unfold pos, at_edge, toward, BOARD_SIZE. simpl. split.
    + intros [?|(u & ? & ? & ? & ?)]; [by left|right]. exists u.
      split; [done|]. split; [|done]. unfold coords. f_equal; lia.
    + intros [?|(u & ? & [= ? ?] & ?)]; [by left|right]. exists u. by repeat split.
  - rewrite move_columns_line_of.
    rewrite (sweep_noop_stuck row col (is_up down) _ _ column_cell g ts);
      [|line_side|line_side|line_side|line_side|apply column_board|done|done].
    apply forall_proper. intros t. apply forall_proper. intros Ht.
    unfold pos, at_edge, toward, BOARD_SIZE. simpl. split.
    + intros [?|(u & ? & ? & ? & ?)]; [left; lia|right]. exists u.
      split; [done|]. split; [|done]. unfold coords. f_equal; lia.
    + intros [?|(u & ? & [= ? ?] & ?)]; [left; lia|right]. exists u.
      repeat split; [done|done|lia|done].
  - rewrite move_rows_line_of.
    rewrite (sweep_noop_stuck col row (is_left left) _ _ row_cell g ts);
      [|line_side|line_side|line_side|line_side|apply row_board|done|done].
    apply forall_proper. intros t. apply forall_proper. intros Ht.
    unfold pos, at_edge, toward, BOARD_SIZE. simpl. split.
    + intros [?|(u & ? & ? & ? & ?)]; [by left|right]. exists u.
      split; [done|]. split; [|done]. unfold coords. f_equal; lia.
    + intros [?|(u & ? & [= ? ?] & ?)]; [by left|right]. exists u. by repeat split.
  - rewrite move_rows_line_of.
    rewrite (sweep_noop_stuck col row (is_left right) _ _ row_cell g ts);
      [|line_side|line_side|line_side|line_side|apply row_board|done|done].
    apply forall_proper. intros t. apply forall_proper. intros Ht.
    unfold pos, at_edge, toward, BOARD_SIZE. simpl. split.
    + intros [?|(u & ? & ? & ? & ?)]; [left; lia|right]. exists u.
      split; [done|]. split; [|done]. unfold coords. f_equal; lia.
    + intros [?|(u & ? & [= ? ?] & ?)]; [left; lia|right]. exists u.
      repeat split; [done|done|lia|done].
Qed.

Lemma stuck_clear d (ts : list Tile) t :
  stuck d (clear_flags <$> ts) (clear_flags t) ↔ stuck d ts t.
Proof.
  unfold stuck.
  assert (at_edge d (clear_flags t) ↔ at_edge d t) as -> by (by destruct d).
  assert (toward d (clear_flags t) = toward d t) as -> by (by destruct d).
  split; (intros [?|(u & Hu & Hc & Hv)]; [by left|right]).
  - apply list_elem_of_fmap in Hu as (u' & -> & Hu'). by exists u'.
  - exists (clear_flags u). split; [by apply list_elem_of_fmap_2|done].
Qed.

Lemma moveTiles_moved ts d mr :
  moveTiles ts d = Some mr →
  ∃ g, grid_fill (clear_flags <$> ts) ∅ = Some g
       ∧ moved mr = moved (move_lines g d)
       ∧ (moved mr = true → tiles mr ≡ₚ tiles (move_lines g d)
                            ∧ scoreGained mr = scoreGained (move_lines g d))
       ∧ (moved mr = false → tiles mr = clear_flags <$> ts ∧ scoreGained mr = 0).
Proof.
  rewrite moveTiles_unfold. destruct (grid_fill _ _) as [g|]; [|done].
  intros H. exists g. split; [done|].
  destruct (moved (move_lines g d)); injection H as <-; simpl.
  - split; [done|]. split; [|done]. intros _. split; [apply sort_by_perm|done].
  - split; [done|]. by split.
Qed.

Lemma merged_sum_clear (ts : list Tile) : merged_sum (clear_flags <$> ts) = 0.
Proof.
  unfold merged_sum. induction ts as [|t ts IH]; [done|].
  rewrite fmap_cons, filter_cons_False; [done|]. simpl. done.
Qed.

Lemma move_lines_score_merged g d :
  scoreGained (move_lines g d) = merged_sum (tiles (move_lines g d)).
Proof.
  unfold move_lines. destruct (is_horizontal d).
  - rewrite move_rows_line_of. apply (sweep_score_merged col row (is_left d)).
    line_side.
  - rewrite move_columns_line_of. apply (sweep_score_merged row col (is_up d)).
    line_side.
Qed.

Lemma move_lines_not_new g d :
  (∀ k t, g !! k = Some t → isNew t = false) →
  Forall (λ t, isNew t = false) (tiles (move_lines g d)).
Proof.
  unfold move_lines. destruct (is_horizontal d).
  - rewrite move_rows_line_of. apply (sweep_not_new col row (is_left d)). line_side.
  - rewrite move_columns_line_of. apply (sweep_not_new row col (is_up d)). line_side.
Qed.

Lemma keys_rows_NoDup : NoDup (keys_of row_cell indices).
Proof. apply (bool_decide_unpack _). by vm_compute. Qed.

Lemma keys_columns_NoDup : NoDup (keys_of column_cell indices).
Proof. apply (bool_decide_unpack _). by vm_compute. Qed.

Lemma keys_columns_cells k : k ∈ cells → k ∈ keys_of column_cell indices.
Proof.
  assert (Forall (λ k, k ∈ keys_of column_cell indices) cells) as Hall
    by (apply (bool_decide_unpack _); by vm_compute).
  rewrite Forall_forall in Hall. apply Hall.
Qed.

(** The tiles read off the grid of a board that satisfies the occupancy
    invariant are the tiles of the board. *)
Lemma grid_read_lines (ts : list Tile) g d :
  grid_fill ts ∅ = Some g → occupancy ts →
  omap (λ k, g !! k)
    (if is_horizontal d then keys_of row_cell indices
     else keys_of column_cell indices) ≡ₚ ts.
Proof.
  intros Hg Hocc. apply (grid_read_all ts); [done|apply Hocc| |].
  - destruct (is_horizontal d); [apply keys_rows_NoDup|apply keys_columns_NoDup].
  - intros t Ht. pose proof (occupancy_cells ts t Hocc Ht) as Hc.
    destruct (is_horizontal d); [done|by apply keys_columns_cells].
Qed.

Lemma move_lines_ids (ts : list Tile) g d :
  grid_fill ts ∅ = Some g → occupancy ts →
  id <$> tiles (move_lines g d) ⊆+ id <$> ts.
Proof.
  intros Hg Hocc. rewrite <- (grid_read_lines ts g d Hg Hocc).
  unfold move_lines. destruct (is_horizontal d).
  - rewrite move_rows_line_of. apply (sweep_ids col row (is_left d)). line_side.
  - rewrite move_columns_line_of. apply (sweep_ids row col (is_up d)). line_side.
Qed.

Lemma move_lines_count (ts : list Tile) g d :
  grid_fill ts ∅ = Some g → occupancy ts →
  length ts
  = (length (tiles (move_lines g d))
     + length (filter (λ t, justMerged t = true) (tiles (move_lines g d))))%nat.
Proof.
  intros Hg Hocc. rewrite <- (Permutation_length (grid_read_lines ts g d Hg Hocc)).
  unfold move_lines. destruct (is_horizontal d).
  - rewrite move_rows_line_of. apply (sweep_count col row (is_left d)). line_side.
  - rewrite move_columns_line_of. apply (sweep_count row col (is_up d)). line_side.
Qed.

(** ** Sorting with a total preorder *)

Section SortRel.
Variables (cmp : Tile → Tile → Z) (R : relation Tile).
Hypothesis cmp_R : ∀ a b, cmp a b <= 0 ↔ R a b.
Hypothesis R_trans : ∀ a b c, R a b → R b c → R a c.
Hypothesis R_total : ∀ a b, R a b ∨ R b a.

Lemma insert_by_sorted_rel x l :
  StronglySorted R l → StronglySorted R (insert_by cmp x l).
Proof.
  induction 1 as [|y l Hs IH Hy]; simpl.
  - repeat constructor.
  - destruct (Z.leb_spec (cmp x y) 0) as [Hle|Hgt].
    + apply cmp_R in Hle. constructor; [by constructor|].
      constructor; [done|]. eapply Forall_impl; [exact Hy|]. simpl. eauto.
    + assert (R y x) as Hyx.
      { destruct (R_total x y) as [Hxy|]; [|done]. apply cmp_R in Hxy. lia. }
      constructor; [done|]. rewrite insert_by_perm. by constructor.
Qed.

Lemma sort_by_sorted_rel l : StronglySorted R (sort_by cmp l).
Proof.
  induction l as [|x l IH]; [constructor|].
  unfold sort_by in *. simpl. by apply insert_by_sorted_rel.
Qed.
End SortRel.

Lemma canonical_sorted l :
  StronglySorted
    (λ a b, before a b ∨ (coords a = coords b ∧ id a <= id b))
    (sort_by canonical l).
Proof.
  apply sort_by_sorted_rel.
  - intros a b. unfold canonical, before, coords.
    destruct (Z.eqb_spec (row a) (row b)), (Z.eqb_spec (col a) (col b)); simpl;
      split; intros H; try lia.
    + right. split; [congruence|lia].
    + destruct H as [H|[[= ? ?] ?]]; lia.
    + destruct H as [H|[[= ? ?] ?]]; lia.
    + destruct H as [H|[[= ? ?] ?]]; lia.
  - intros a b c. unfold before, coords.
    intros [?|[[= ? ?] ?]] [?|[[= ? ?] ?]]; try (left; lia).
    right. split; [congruence|lia].
  - intros a b. unfold before, coords.
    destruct (Z.lt_trichotomy (row a) (row b)) as [?|[?|?]]; [left; left; lia| |right; left; lia].
    destruct (Z.lt_trichotomy (col a) (col b)) as [?|[?|?]]; [left; left; lia| |right; left; lia].
    destruct (Z.le_ge_cases (id a) (id b)); [left|right]; right; (split; [congruence|lia]).
Qed.

Lemma sorted_before l :
  StronglySorted (λ a b, before a b ∨ (coords a = coords b ∧ id a <= id b)) l →
  NoDup (coords <$> l) → StronglySorted before l.
Proof.
  induction 1 as [|x l Hs IH Hx]; intros Hnd; [constructor|].
  rewrite fmap_cons, NoDup_cons in Hnd. destruct Hnd as [Hx' Hnd].
  constructor; [by apply IH|].
  rewrite Forall_forall in Hx |- *. intros y Hy.
  destruct (Hx y Hy) as [|[Hc _]]; [done|].
  exfalso. apply Hx'. rewrite Hc. by apply list_elem_of_fmap_2.
Qed.

Lemma NoDup_submseteq_inv {A} (l k : list A) : l ⊆+ k → NoDup k → NoDup l.
Proof.
  intros (k' & Hp)%submseteq_Permutation Hnd. rewrite Hp in Hnd.
  by apply NoDup_app in Hnd as [? _].
Qed.

Lemma moveTiles_stuck (ts : list Tile) (d : Direction) (mr : MoveResult) :
  occupancy ts → moveTiles ts d = Some mr →
  moved mr = false ↔ ∀ t, t ∈ ts → stuck d ts t.
Proof.
  intros Hocc Hmove.
  destruct (moveTiles_moved _ _ _ Hmove) as (g & Hg & -> & _).
  rewrite (move_lines_noop (clear_flags <$> ts) g d Hg) by (by apply occupancy_clear).
  split.
  - intros H t Ht. apply stuck_clear, H. by apply list_elem_of_fmap_2.
  - intros H t Ht. apply list_elem_of_fmap in Ht as (t' & -> & Ht').
    by apply stuck_clear, H.
Qed.

Lemma moveTiles_ids (ts : list Tile) (d : Direction) (mr : MoveResult) :
  occupancy ts → moveTiles ts d = Some mr → id <$> tiles mr ⊆+ id <$> ts.
Proof.
  intros Hocc Hmove.
  destruct (moveTiles_moved _ _ _ Hmove) as (g & Hg & _ & Hyes & Hno).
  assert (id <$> (clear_flags <$> ts) = id <$> ts) as Hids
    by (rewrite <- list_fmap_compose; by apply list_fmap_ext).
  destruct (moved mr).
  - destruct (Hyes eq_refl) as [Hp _]. rewrite Hp, <- Hids.
    apply (move_lines_ids _ g d Hg). by apply occupancy_clear.
  - destruct (Hno eq_refl) as [-> _]. by rewrite Hids.
Qed.

Lemma moveTiles_not_new (ts : list Tile) (d : Direction) (mr : MoveResult) :
  moveTiles ts d = Some mr → Forall (λ t, isNew t = false) (tiles mr).
Proof.
  intros Hmove.
  destruct (moveTiles_moved _ _ _ Hmove) as (g & Hg & _ & Hyes & Hno).
  destruct (moved mr).
  - destruct (Hyes eq_refl) as [Hp _]. rewrite Hp.
    apply move_lines_not_new. intros k t Hk.
    destruct (grid_fill_lookup _ _ _ _ _ Hg Hk) as [[Hin _]|Hl];
      [|by rewrite lookup_empty in Hl].
    by apply list_elem_of_fmap in Hin as (u & -> & _).
  - destruct (Hno eq_refl) as [-> _]. by apply Forall_fmap, Forall_true.
Qed.

(** A move that is reported leaves a cell free. *)
Lemma moveTiles_room (ts : list Tile) (d : Direction) (mr : MoveResult) :
  moveTiles ts d = Some mr → moved mr = true → (length (tiles mr) < 16)%nat.
Proof.
  intros Hmove Hmoved.
  destruct (moveTiles_moved _ _ _ Hmove) as (g & Hg & Hm & Hyes & _).
  destruct (Hyes Hmoved) as [Hp _]. rewrite Hp. rewrite Hmoved in Hm.
  pose proof (move_lines_room g d (grid_fill_ok _ _ Hg) (eq_sym Hm)) as Hroom.
  unfold BOARD_SIZE in Hroom. lia.
Qed.

(** Values: what holds of the values of a board and is kept by doubling
    holds of the values after a move. *)
Lemma collapsed_values (P : Z → Prop) l out :
  (∀ v, P v → P (v * 2)) → collapsed l out →
  Forall (λ t, P (value t)) l → Forall (λ t, P (value t)) out.
Proof.
  intros Hdouble Hc Hl. pose proof (collapsed_origin _ _ Hc) as Ho.
  eapply Forall_impl; [exact Ho|]. simpl.
  intros x (y & Hy & _ & Hv). rewrite Forall_forall in Hl. specialize (Hl y Hy).
  destruct Hv as [[_ ->]|[_ ->]]; auto.
Qed.

Lemma sweep_values (P : Z → Prop) (along across : Tile → Z) (low : bool)
    (step : Z → Tile → bool → Line → Line) (cmp : Tile → Tile → Z)
    (cell : Z → Z → Z * Z) (g : gmap (Z * Z) Tile) :
  (∀ idx, step_spec along across low idx (step idx)) →
  (∀ v, P v → P (v * 2)) →
  (∀ k t, g !! k = Some t → P (value t)) →
  Forall (λ t, P (value t)) (tiles (sweep (line_of step cmp) g cell)).
Proof.
  intros Hstep Hdouble Hg.
  apply (sweep_rule (line_of step cmp) g cell
           (λ _ acc, Forall (λ t, P (value t)) (tiles acc))); [constructor|].
  intros _ idx acc _ IH. unfold add_line. simpl. apply Forall_app. split; [done|].
  eapply (collapsed_values P); [done|by apply (line_of_collapsed along across low)|].
  rewrite (sort_by_perm cmp). apply Forall_forall. intros t Ht.
  unfold extract in Ht. apply list_elem_of_omap in Ht as (j & _ & E). eauto.
Qed.

Lemma moveTiles_values (P : Z → Prop) (ts : list Tile) d mr :
  (∀ v, P v → P (v * 2)) → Forall (λ t, P (value t)) ts →
  moveTiles ts d = Some mr → Forall (λ t, P (value t)) (tiles mr).
Proof.
  intros Hdouble Hts Hmove.
  destruct (moveTiles_moved _ _ _ Hmove) as (g & Hg & _ & Hyes & Hno).
  destruct (moved mr).
  - destruct (Hyes eq_refl) as [Hp _]. rewrite Hp.
    pose proof (grid_values P ts g Hg Hts) as Hgv.
    unfold move_lines. destruct (is_horizontal d).
    + rewrite move_rows_line_of. apply (sweep_values P col row (is_left d)); [|done..].
      intros r. apply slideRow_step_spec.
    + rewrite move_columns_line_of. apply (sweep_values P row col (is_up d)); [|done..].
      intros c. apply slideColumn_step_spec.
  - destruct (Hno eq_refl) as [-> _]. by apply Forall_fmap.
Qed.

(** ** Properties of [moveTiles] *)

(** X1 — Order of the result.  The tiles that [moveTiles] returns for a
    move it reports are listed row by row and, within a row, by column,
    without repetition of a cell, whatever the order of the input. *)
Theorem moveTiles_result_order (ts : list Tile) (d : Direction) (mr : MoveResult)
    (Hmove : moveTiles ts d = Some mr) (Hmoved : moved mr = true) :
  StronglySorted before (tiles mr).
Proof.
  rewrite moveTiles_unfold in Hmove.
  destruct (grid_fill _ _) as [g|]; [|done].
  destruct (moved (move_lines g d)); injection Hmove as <-; [|done]. simpl.
  apply sorted_before; [apply canonical_sorted|].
  rewrite (sort_by_perm canonical). apply move_lines_occupancy.
Qed.

Lemma moveTiles_result_order_witness :
  moveTiles [mkTile 5 8 3 3 false false; mkTile 1 2 2 1 false false;
             mkTile 9 2 0 2 true false] left
  = Some (mkMoveResult [mkTile 9 2 0 0 false false; mkTile 1 2 2 0 false false;
                        mkTile 5 8 3 0 false false] true 0)
  ∧ StronglySorted before [mkTile 9 2 0 0 false false; mkTile 1 2 2 0 false false;
                           mkTile 5 8 3 0 false false].
Proof.
  assert (moveTiles [mkTile 5 8 3 3 false false; mkTile 1 2 2 1 false false;
                     mkTile 9 2 0 2 true false] left
          = Some (mkMoveResult [mkTile 9 2 0 0 false false; mkTile 1 2 2 0 false false;
                                mkTile 5 8 3 0 false false] true 0)) as Hm
    by reflexivity.
  split; [exact Hm|]. exact (moveTiles_result_order _ _ _ Hm eq_refl).
Defined.

(** X2 — Score and merges.  The score that [moveTiles] reports is the sum
    of the values of the tiles it returns with [justMerged] set; it is 0
    when no tile merged. *)
Theorem moveTiles_score_is_merged_values
    (ts : list Tile) (d : Direction) (mr : MoveResult)
    (Hmove : moveTiles ts d = Some mr) :
  scoreGained mr = merged_sum (tiles mr).
Proof.
  destruct (moveTiles_moved _ _ _ Hmove) as (g & _ & _ & Hyes & Hno).
  destruct (moved mr).
  - destruct (Hyes eq_refl) as [Hp ->].
    rewrite (merged_sum_perm _ _ Hp). apply move_lines_score_merged.
  - destruct (Hno eq_refl) as [-> ->]. by rewrite merged_sum_clear.
Qed.

Lemma moveTiles_score_is_merged_values_witness :
  moveTiles [mkTile 1 2 1 0 false false; mkTile 2 2 1 3 false false;
             mkTile 3 4 2 1 false false; mkTile 4 4 2 2 false false;
             mkTile 5 8 3 3 false false] right
  = Some (mkMoveResult [mkTile 2 4 1 3 false true; mkTile 4 8 2 3 false true;
                        mkTile 5 8 3 3 false false] true 12)
  ∧ 12 = merged_sum [mkTile 2 4 1 3 false true; mkTile 4 8 2 3 false true;
                     mkTile 5 8 3 3 false false].
Proof.
  assert (moveTiles [mkTile 1 2 1 0 false false; mkTile 2 2 1 3 false false;
                     mkTile 3 4 2 1 false false; mkTile 4 4 2 2 false false;
                     mkTile 5 8 3 3 false false] right
          = Some (mkMoveResult [mkTile 2 4 1 3 false true; mkTile 4 8 2 3 false true;
                                mkTile 5 8 3 3 false false] true 12)) as Hm
    by reflexivity.
  split; [exact Hm|]. exact (moveTiles_score_is_merged_values _ _ _ Hm).
Defined.

(** X3 — Tile count.  On a board satisfying the occupancy invariant a
    move removes exactly one tile per merge: the number of input tiles is
    the number of output tiles plus the number of those marked
    [justMerged].  In particular a move never adds a tile. *)
Theorem moveTiles_tile_count (ts : list Tile) (d : Direction) (mr : MoveResult)
    (Hocc : occupancy ts) (Hmove : moveTiles ts d = Some mr) :
  length ts
  = (length (tiles mr) + length (filter (λ t, justMerged t = true) (tiles mr)))%nat
  ∧ (length (tiles mr) <= length ts)%nat.
Proof.
  cut (length ts
       = (length (tiles mr)
          + length (filter (λ t, justMerged t = true) (tiles mr)))%nat); [lia|].
  destruct (moveTiles_moved _ _ _ Hmove) as (g & Hg & _ & Hyes & Hno).
  destruct (moved mr).
  - destruct (Hyes eq_refl) as [Hp _]. rewrite Hp.
    rewrite <- (length_fmap clear_flags ts).
    apply (move_lines_count _ g d Hg). by apply occupancy_clear.
  - destruct (Hno eq_refl) as [-> _]. rewrite length_fmap.
    assert (filter (λ t, justMerged t = true) (clear_flags <$> ts) = []) as ->;
      [|simpl; lia].
    clear. induction ts as [|t ts IH]; [done|].
    rewrite fmap_cons, filter_cons_False; [done|]. simpl. done.
Qed.

Lemma moveTiles_tile_count_witness :
  occupancy [mkTile 1 2 1 0 false false; mkTile 2 2 1 3 false false;
             mkTile 3 4 2 1 false false]
  ∧ ∃ mr, moveTiles [mkTile 1 2 1 0 false false; mkTile 2 2 1 3 false false;
                     mkTile 3 4 2 1 false false] left = Some mr
          ∧ (length (tiles mr) <= 3)%nat.
Proof.
  assert (occupancy [mkTile 1 2 1 0 false false; mkTile 2 2 1 3 false false;
                     mkTile 3 4 2 1 false false]) as Hocc.
  { split; [by repeat constructor|]. apply (bool_decide_unpack _). by vm_compute. }
  split; [exact Hocc|]. eexists. split; [reflexivity|].
  exact (proj2 (moveTiles_tile_count _ left _ Hocc eq_refl)).
Defined.

(** X4 — Identities.  On a board satisfying the occupancy invariant
    [moveTiles] invents no id and repeats none: the ids it returns are
    among the ids of the input, each at most as often as there, so
    distinct ids stay distinct. *)
Theorem moveTiles_keeps_ids (ts : list Tile) (d : Direction) (mr : MoveResult)
    (Hocc : occupancy ts) (Hmove : moveTiles ts d = Some mr) :
  id <$> tiles mr ⊆+ id <$> ts
  ∧ (NoDup (id <$> ts) → NoDup (id <$> tiles mr)).
Proof.
  pose proof (moveTiles_ids ts d mr Hocc Hmove) as Hsub.
  split; [done|]. intros Hnd. by eapply NoDup_submseteq_inv.
Qed.

Lemma moveTiles_keeps_ids_witness :
  occupancy [mkTile 7 2 1 0 false false; mkTile 3 2 1 3 false false]
  ∧ ∃ mr, moveTiles [mkTile 7 2 1 0 false false; mkTile 3 2 1 3 false false] right
          = Some mr
          ∧ id <$> tiles mr ⊆+ [7; 3].
Proof.
  assert (occupancy [mkTile 7 2 1 0 false false; mkTile 3 2 1 3 false false]) as Hocc.
  { split; [by repeat constructor|]. apply (bool_decide_unpack _). by vm_compute. }
  split; [exact Hocc|]. eexists. split; [reflexivity|].
  exact (proj1 (moveTiles_keeps_ids _ right _ Hocc eq_refl)).
Defined.

(** X5 — When a move is a no-op.  On a board satisfying the occupancy
    invariant [moveTiles] reports [moved = false] exactly when every tile
    is stuck in the direction of the move: it lies on the edge of that
    side, or the next cell on that side holds a tile of another value. *)
Theorem moveTiles_noop_iff_stuck (ts : list Tile) (d : Direction) (mr : MoveResult)
    (Hocc : occupancy ts) (Hmove : moveTiles ts d = Some mr) :
  moved mr = false ↔ ∀ t, t ∈ ts → stuck d ts t.
Proof. exact (moveTiles_stuck ts d mr Hocc Hmove). Qed.

Lemma moveTiles_noop_iff_stuck_witness :
  occupancy [mkTile 1 2 0 3 false false; mkTile 2 4 0 2 false false]
  ∧ moveTiles [mkTile 1 2 0 3 false false; mkTile 2 4 0 2 false false] right
    = Some (mkMoveResult [mkTile 1 2 0 3 false false; mkTile 2 4 0 2 false false]
                         false 0)
  ∧ ∀ t, t ∈ [mkTile 1 2 0 3 false false; mkTile 2 4 0 2 false false] →
         stuck right [mkTile 1 2 0 3 false false; mkTile 2 4 0 2 false false] t.
Proof.
  assert (occupancy [mkTile 1 2 0 3 false false; mkTile 2 4 0 2 false false]) as Hocc.
  { split; [by repeat constructor|]. apply (bool_decide_unpack _). by vm_compute. }
  assert (moveTiles [mkTile 1 2 0 3 false false; mkTile 2 4 0 2 false false] right
          = Some (mkMoveResult
                    [mkTile 1 2 0 3 false false; mkTile 2 4 0 2 false false] false 0))
    as Hm by reflexivity.
  split; [exact Hocc|]. split; [exact Hm|].
  exact (proj1 (moveTiles_noop_iff_stuck _ _ _ Hocc Hm) eq_refl).
Defined.

(** X6 — Malformed boards.  [moveTiles] fails exactly when some tile has a
    row index outside the board (the write into the grid throws).  When it
    returns and reports a move, the result satisfies the occupancy
    invariant whatever the input was: tiles with a column outside the board
    and all but the last tile of a shared cell are left out. *)
Theorem moveTiles_malformed (ts : list Tile) (d : Direction) :
  (moveTiles ts d = None ↔ ∃ t, t ∈ ts ∧ ¬ (0 <= row t < BOARD_SIZE))
  ∧ ∀ mr, moveTiles ts d = Some mr → moved mr = true → occupancy (tiles mr).
Proof.
  split.
  - pose proof (moveTiles_total ts d) as Htot. split.
    + intros Hnone.
      destruct (decide (Forall (λ t, in_board (row t) = true) ts)) as [Hf|Hf].
      { apply Htot in Hf as [? Hf]. congruence. }
      apply not_Forall_Exists in Hf; [|intros ?; apply _].
      apply Exists_exists in Hf as (t & Ht & Hr). exists t. split; [done|].
      by rewrite <- in_board_spec.
    + intros (t & Ht & Hr). destruct (moveTiles ts d) eqn:E; [|done].
      exfalso. apply Hr, in_board_spec.
      assert (Forall (λ t, in_board (row t) = true) ts) as Hs
        by (apply Htot; by eexists).
      rewrite Forall_forall in Hs. by apply Hs.
  - intros mr Hm Hmoved. rewrite moveTiles_unfold in Hm.
    destruct (grid_fill _ _) as [g|]; [|done].
    destruct (moved (move_lines g d)); injection Hm as <-; [|done]. simpl.
    eapply occupancy_perm; [symmetry; apply sort_by_perm|].
    apply move_lines_occupancy.
Qed.

Lemma moveTiles_malformed_witness :
  moveTiles [mkTile 1 2 4 0 false false] left = None
  ∧ moveTiles [mkTile 1 2 0 7 false false; mkTile 2 2 0 1 false false;
               mkTile 3 2 0 1 false false] left
    = Some (mkMoveResult [mkTile 3 2 0 0 false false] true 0)
  ∧ occupancy [mkTile 3 2 0 0 false false].
Proof.
  split.
  - apply (proj1 (moveTiles_malformed [mkTile 1 2 4 0 false false] left)).
    exists (mkTile 1 2 4 0 false false). split; [by left|].
    simpl. unfold BOARD_SIZE. lia.
  - split; [reflexivity|].
    exact (proj2 (moveTiles_malformed
                    [mkTile 1 2 0 7 false false; mkTile 2 2 0 1 false false;
                     mkTile 3 2 0 1 false false] left) _ eq_refl eq_refl).
Defined.

(** ** Moves that are left *)

Lemma occupancy_length (ts : list Tile) : occupancy ts → (length ts <= 16)%nat.
Proof.
  intros Hocc.
  assert (coords <$> ts ⊆+ cells) as Hsub.
  { apply NoDup_submseteq; [apply Hocc|]. intros k Hk.
    apply list_elem_of_fmap in Hk as (t & -> & Ht). by apply (occupancy_cells ts). }
  apply submseteq_length in Hsub. by rewrite length_fmap, cells_length in Hsub.
Qed.

Lemma occupancy_full (ts : list Tile) k :
  occupancy ts → length ts = 16%nat → k ∈ cells → ∃ t, t ∈ ts ∧ coords t = k.
Proof.
  intros Hocc Hlen Hk.
  assert (coords <$> ts ≡ₚ cells) as Hp.
  { apply submseteq_length_Permutation.
    - apply NoDup_submseteq; [apply Hocc|]. intros c Hc.
      apply list_elem_of_fmap in Hc as (t & -> & Ht). by apply (occupancy_cells ts).
    - by rewrite length_fmap, cells_length, Hlen. }
  rewrite <- Hp in Hk. apply list_elem_of_fmap in Hk as (t & -> & Ht). by exists t.
Qed.

Lemma occupancy_inj (ts : list Tile) a b :
  occupancy ts → a ∈ ts → b ∈ ts → coords a = coords b → a = b.
Proof.
  intros [_ Hnd] Ha Hb Hc.
  apply list_elem_of_lookup in Ha as [i Hi]. apply list_elem_of_lookup in Hb as [j Hj].
  assert (i = j) as ->; [|congruence].
  eapply NoDup_lookup; [exact Hnd| |].
  - by rewrite list_lookup_fmap, Hi.
  - by rewrite list_lookup_fmap, Hj, Hc.
Qed.

(** On a board of at least 16 tiles that satisfies the occupancy invariant
    [hasAvailableMoves] looks for two neighbours of one value. *)
Lemma hasAvailableMoves_neighbours (ts : list Tile) :
  occupancy ts → (16 <= length ts)%nat →
  ∃ b, hasAvailableMoves ts = Some b
       ∧ (b = true ↔ ∃ t1 t2, t1 ∈ ts ∧ t2 ∈ ts ∧ adjacent t1 t2
                              ∧ value t1 = value t2).
Proof.
  intros Hocc Hlen. unfold hasAvailableMoves.
  destruct (Z.ltb_spec (Z.of_nat (length ts)) (BOARD_SIZE * BOARD_SIZE)) as [Hlt|_].
  { unfold BOARD_SIZE in *. lia. }
  destruct (proj1 (grid_fill_total ts ∅) (occupancy_rows ts Hocc)) as [g Hg].
  rewrite Hg. eexists. split; [reflexivity|].
  assert (∀ t, t ∈ ts → g !! (row t, col t) = Some t) as Hget.
  { intros t Ht. apply (grid_fill_elem ts ∅ g t Hg); [apply Hocc|done]. }
  assert (∀ k t, g !! k = Some t → t ∈ ts ∧ coords t = k) as Hin.
  { intros k t Hk. destruct (grid_fill_lookup _ _ _ _ _ Hg Hk) as [?|Hl]; [done|].
    by rewrite lookup_empty in Hl. }
  assert (∀ t, t ∈ ts → 0 <= row t < BOARD_SIZE ∧ 0 <= col t < BOARD_SIZE) as Hrange.
  { intros t Ht. destruct Hocc as [Hf _]. rewrite Forall_forall in Hf.
    destruct (Hf t Ht). by rewrite <- !in_board_spec. }
  rewrite existsb_indices. split.
  - intros (r & Hr & (c & Hc & Hcell)%existsb_indices).
    unfold cell_has_move in Hcell.
    destruct (g !! (r, c)) as [t|] eqn:Et; [|done].
    destruct (Hin _ _ Et) as [Ht [= Htr Htc]].
    apply orb_true_iff in Hcell as [Hn|Hn];
      apply same_value_true in Hn as (n & En & Hv).
    + destruct (c + 1 <? BOARD_SIZE); [|done].
      destruct (Hin _ _ En) as [Hnin [= Hnr Hnc]].
      exists t, n. do 2 (split; [done|]). split; [|done]. left. split; lia.
    + destruct (r + 1 <? BOARD_SIZE); [|done].
      destruct (Hin _ _ En) as [Hnin [= Hnr Hnc]].
      exists t, n. do 2 (split; [done|]). split; [|done]. right. split; lia.
  - intros (t1 & t2 & H1 & H2 & Hadj & Hv).
    assert (∀ a b, a ∈ ts → b ∈ ts → value a = value b →
              (row a = row b ∧ col b = col a + 1)
              ∨ (col a = col b ∧ row b = row a + 1) →
              ∃ r, 0 <= r < BOARD_SIZE
                   ∧ existsb (λ c, cell_has_move g r c) indices = true) as Hfrom.
    { intros a b Ha Hb Hab Hnext.
      pose proof (Hrange _ Ha) as [Hra Hca]. pose proof (Hrange _ Hb) as [Hrb Hcb].
      exists (row a). split; [done|]. apply existsb_indices.
      exists (col a). split; [done|]. unfold cell_has_move.
      rewrite (Hget _ Ha). apply orb_true_iff.
      destruct Hnext as [[Hr Hc]|[Hc Hr]].
      - left. destruct (Z.ltb_spec (col a + 1) BOARD_SIZE); [|lia].
        rewrite Hr, <- Hc, (Hget _ Hb). simpl. by apply Z.eqb_eq.
      - right. destruct (Z.ltb_spec (row a + 1) BOARD_SIZE); [|lia].
        rewrite Hc, <- Hr, (Hget _ Hb). simpl. by apply Z.eqb_eq. }
    destruct Hadj as [[Hr Hc]|[Hc Hr]].
    + destruct (Z.lt_ge_cases (col t1) (col t2)).
      * apply (Hfrom t1 t2); [done..|]. left. split; lia.
      * apply (Hfrom t2 t1); [done..|]. left. split; lia.
    + destruct (Z.lt_ge_cases (row t1) (row t2)).
      * apply (Hfrom t1 t2); [done..|]. right. split; lia.
      * apply (Hfrom t2 t1); [done..|]. right. split; lia.
Qed.

(** When every tile is stuck on one side, the cells on that side of a
    tile are all occupied. *)
Lemma stuck_walk (ts : list Tile) d t (n : nat) :
  occupancy ts →
  (∀ t, t ∈ ts → stuck d ts t) → t ∈ ts → shifted d (Z.of_nat n) t ∈ cells →
  ∃ u, u ∈ ts ∧ coords u = shifted d (Z.of_nat n) t.
Proof.
  intros Hocc Hstuck Ht.
  pose proof (occupancy_cells ts t Hocc Ht) as Hct.
  unfold coords in Hct. apply cells_spec in Hct.
  induction n as [|n IH]; intros Hin.
  - exists t. split; [done|]. unfold shifted, coords. simpl.
    destruct d; f_equal; lia.
  - assert (shifted d (Z.of_nat n) t ∈ cells) as Hin'.
    { unfold shifted in *. destruct d; apply cells_spec in Hin; apply cells_spec; lia. }
    destruct (IH Hin') as (u & Hu & Hcu).
    destruct (Hstuck u Hu) as [Hedge|(v & Hv & Hcv & _)].
    + exfalso. unfold shifted, coords, at_edge, BOARD_SIZE in *.
      destruct d; injection Hcu as Hr Hc; apply cells_spec in Hin;
        unfold BOARD_SIZE in Hin; lia.
    + exists v. split; [done|]. rewrite Hcv.
      unfold toward, shifted, coords in *.
      destruct d; injection Hcu as -> ->; f_equal; lia.
Qed.

(** A board on which no direction moves anything is empty or full. *)
Lemma stuck_everywhere_full (ts : list Tile) :
  occupancy ts → ts ≠ [] → (∀ d t, t ∈ ts → stuck d ts t) → length ts = 16%nat.
Proof.
  intros Hocc Hne Hstuck.
  destruct ts as [|t0 ts']; [done|]. set (ts := t0 :: ts') in *.
  assert (t0 ∈ ts) as H0 by (by left).
  assert (∀ r c, (r, c) ∈ cells → ∃ u, u ∈ ts ∧ coords u = (r, c)) as Hall.
  { intros r c Hrc. pose proof (occupancy_cells ts t0 Hocc H0) as Hc0.
    unfold coords in Hc0. apply cells_spec in Hc0. apply cells_spec in Hrc.
    assert (∃ u, u ∈ ts ∧ coords u = (row t0, c)) as (u & Hu & Hcu).
    { destruct (Z.le_ge_cases c (col t0)).
      - destruct (stuck_walk ts left t0 (Z.to_nat (col t0 - c)) Hocc (Hstuck left) H0)
          as (u & Hu & Hcu).
        + unfold shifted. apply cells_spec. lia.
        + exists u. split; [done|]. rewrite Hcu. unfold shifted. f_equal. lia.
      - destruct (stuck_walk ts right t0 (Z.to_nat (c - col t0)) Hocc (Hstuck right) H0)
          as (u & Hu & Hcu).
        + unfold shifted. apply cells_spec. lia.
        + exists u. split; [done|]. rewrite Hcu. unfold shifted. f_equal. lia. }
    injection Hcu as Hru Hcu.
    destruct (Z.le_ge_cases r (row u)).
    - destruct (stuck_walk ts up u (Z.to_nat (row u - r)) Hocc (Hstuck up) Hu)
        as (v & Hv & Hcv).
      + unfold shifted. apply cells_spec. lia.
      + exists v. split; [done|]. rewrite Hcv. unfold shifted. f_equal; lia.
    - destruct (stuck_walk ts down u (Z.to_nat (r - row u)) Hocc (Hstuck down) Hu)
        as (v & Hv & Hcv).
      + unfold shifted. apply cells_spec. lia.
      + exists v. split; [done|]. rewrite Hcv. unfold shifted. f_equal; lia. }
  apply Nat.le_antisymm; [by apply occupancy_length|].
  assert (cells ⊆+ coords <$> ts) as Hsub.
  { apply NoDup_submseteq; [apply cells_NoDup|]. intros [r c] Hk.
    destruct (Hall r c Hk) as (u & Hu & <-). by apply list_elem_of_fmap_2. }
  apply submseteq_length in Hsub. by rewrite cells_length, length_fmap in Hsub.
Qed.

Lemma stuck_no_pair (ts : list Tile) :
  occupancy ts → (∀ d t, t ∈ ts → stuck d ts t) →
  ¬ ∃ t1 t2, t1 ∈ ts ∧ t2 ∈ ts ∧ adjacent t1 t2 ∧ value t1 = value t2.
Proof.
  intros Hocc Hstuck (a & b & Ha & Hb & Hadj & Hv).
  assert (∀ d x y, x ∈ ts → y ∈ ts → ¬ at_edge d y → coords x = toward d y →
                   value x ≠ value y) as Hdiff.
  { intros d x y Hx Hy Hedge Hc.
    destruct (Hstuck d y Hy) as [|(u & Hu & Hcu & Hvu)]; [done|].
    assert (u = x) as -> by (apply (occupancy_inj ts); congruence). done. }
  pose proof (occupancy_cells ts a Hocc Ha) as Hca.
  pose proof (occupancy_cells ts b Hocc Hb) as Hcb.
  unfold coords in Hca, Hcb. apply cells_spec in Hca. apply cells_spec in Hcb.
  destruct Hadj as [[Hr Hc]|[Hc Hr]].
  - destruct (Z.lt_ge_cases (col a) (col b)).
    + apply (Hdiff left a b); [done|done|simpl; lia| |done].
      unfold coords, toward. f_equal; lia.
    + apply (Hdiff left b a); [done|done|simpl; lia| |done].
      unfold coords, toward. f_equal; lia.
  - destruct (Z.lt_ge_cases (row a) (row b)).
    + apply (Hdiff up a b); [done|done|simpl; lia| |done].
      unfold coords, toward. f_equal; lia.
    + apply (Hdiff up b a); [done|done|simpl; lia| |done].
      unfold coords, toward. f_equal; lia.
Qed.

Lemma full_no_pair_stuck (ts : list Tile) d t :
  occupancy ts → length ts = 16%nat →
  (¬ ∃ t1 t2, t1 ∈ ts ∧ t2 ∈ ts ∧ adjacent t1 t2 ∧ value t1 = value t2) →
  t ∈ ts → stuck d ts t.
Proof.
  intros Hocc Hlen Hno Ht.
  pose proof (occupancy_cells ts t Hocc Ht) as Hct.
  unfold coords in Hct. apply cells_spec in Hct. unfold BOARD_SIZE in Hct.
  assert (at_edge d t ∨ toward d t ∈ cells) as [?|Hin].
  { unfold at_edge, toward, BOARD_SIZE.
    destruct d.
    - destruct (decide (row t = 0)); [by left|right; apply cells_spec;
        unfold BOARD_SIZE; lia].
    - destruct (decide (row t = 4 - 1)); [by left|right; apply cells_spec;
        unfold BOARD_SIZE; lia].
    - destruct (decide (col t = 0)); [by left|right; apply cells_spec;
        unfold BOARD_SIZE; lia].
    - destruct (decide (col t = 4 - 1)); [by left|right; apply cells_spec;
        unfold BOARD_SIZE; lia]. }
  { by left. }
  destruct (occupancy_full ts _ Hocc Hlen Hin) as (u & Hu & Hcu).
  right. exists u. do 2 (split; [done|]). intros Hv. apply Hno.
  exists u, t. do 2 (split; [done|]). split; [|done].
  unfold adjacent, toward, coords in *.
  destruct d; injection Hcu as Hr Hc; [right|right|left|left]; split; lia.
Qed.

(** Game over, on a board: the terminal-state test fails exactly when no
    direction moves anything. *)
Lemma no_moves_all_noop (ts : list Tile) :
  occupancy ts → ts ≠ [] →
  hasAvailableMoves ts = Some false
  ↔ ∀ d, ∃ mr, moveTiles ts d = Some mr ∧ moved mr = false.
Proof.
  intros Hocc Hne. split.
  - intros Hfalse.
    assert ((16 <= length ts)%nat) as Hlen.
    { destruct (Nat.le_gt_cases 16 (length ts)) as [|Hlt]; [done|]. exfalso.
      unfold hasAvailableMoves in Hfalse.
      destruct (Z.ltb_spec (Z.of_nat (length ts)) (BOARD_SIZE * BOARD_SIZE));
        [done|]. unfold BOARD_SIZE in *. lia. }
    destruct (hasAvailableMoves_neighbours ts Hocc Hlen) as (b & Hb & Hiff).
    rewrite Hfalse in Hb. injection Hb as <-.
    assert (length ts = 16%nat) as Hfull
      by (pose proof (occupancy_length ts Hocc); lia).
    intros d.
    destruct (proj1 (moveTiles_total ts d) (occupancy_rows ts Hocc)) as [mr Hmr].
    exists mr. split; [done|]. apply (moveTiles_stuck ts d mr Hocc Hmr).
    intros t Ht. apply full_no_pair_stuck; [done|done| |done].
    intros Hpair. apply Hiff in Hpair. done.
  - intros Hall.
    assert (∀ d t, t ∈ ts → stuck d ts t) as Hstuck.
    { intros d. destruct (Hall d) as (mr & Hmr & Hm).
      by apply (moveTiles_stuck ts d mr Hocc Hmr). }
    pose proof (stuck_everywhere_full ts Hocc Hne Hstuck) as Hfull.
    destruct (hasAvailableMoves_neighbours ts Hocc) as (b & Hb & Hiff); [lia|].
    rewrite Hb. f_equal. destruct b; [|done]. exfalso.
    by apply (stuck_no_pair ts Hocc Hstuck), Hiff.
Qed.

(** X7 — Game over is exact.  On a non-empty board that satisfies the
    occupancy invariant [hasAvailableMoves] answers false exactly when
    [moveTiles] reports [moved = false] in all four directions.  (On the
    empty board it answers true although nothing can move.) *)
Theorem no_moves_left_exact (ts : list Tile)
    (Hocc : occupancy ts) (Hne : ts ≠ []) :
  hasAvailableMoves ts = Some false
  ↔ ∀ d, ∃ mr, moveTiles ts d = Some mr ∧ moved mr = false.
Proof. exact (no_moves_all_noop ts Hocc Hne). Qed.

Lemma no_moves_left_exact_witness :
  let full := (λ k : Z * Z, mkTile (4 * k.1 + k.2 + 1)
                               (if Z.even (k.1 + k.2) then 2 else 4)
                               k.1 k.2 false false) <$> cells in
  occupancy full ∧ full ≠ [] ∧ hasAvailableMoves full = Some false
  ∧ ∀ d, ∃ mr, moveTiles full d = Some mr ∧ moved mr = false.
Proof.
  intros full.
  assert (occupancy full) as Hocc.
  { split.
    - apply (bool_decide_unpack _). by vm_compute.
    - apply (bool_decide_unpack _). by vm_compute. }
  assert (full ≠ []) as Hne by done.
  assert (hasAvailableMoves full = Some false) as Hfalse by (by vm_compute).
  split; [exact Hocc|]. split; [exact Hne|]. split; [exact Hfalse|].
  exact (proj1 (no_moves_left_exact full Hocc Hne) Hfalse).
Defined.

(** ** Empty cells and the first board *)

Lemma empty_filter (occ : gset (Z * Z)) (rs cs : list Z) :
  (r ← rs; c ← cs; if decide ((r, c) ∈ occ) then [] else [(r, c)])
  = filter (λ k, k ∉ occ) (r ← rs; c ← cs; [(r, c)]).
Proof.
  induction rs as [|r rs IH]; [done|].
  rewrite !bind_cons, filter_app, IH. f_equal.
  clear. induction cs as [|c cs IH]; [done|].
  rewrite !bind_cons, filter_app, IH. f_equal.
  destruct (decide ((r, c) ∈ occ)).
  - by rewrite filter_cons_False by (intros H; by apply H).
  - by rewrite filter_cons_True.
Qed.

Lemma getEmptyPositions_sublist (ts : list Tile) es :
  getEmptyPositions ts = Some es → es `sublist_of` cells.
Proof.
  unfold getEmptyPositions. destruct (occupancy_fill ts ∅) as [occ|]; [|done].
  intros [= <-]. unfold cells.
  etrans; [|apply (sublist_filter (λ k, k ∉ occ))].
  by rewrite <- (empty_filter occ indices indices).
Qed.

Lemma getEmptyPositions_free (ts : list Tile) :
  occupancy ts →
  ∃ es, getEmptyPositions ts = Some es
        ∧ es `sublist_of` cells
        ∧ (∀ k, k ∈ es ↔ k ∈ cells ∧ k ∉ coords <$> ts)
        ∧ (length es + length ts = 16)%nat.
Proof.
  intros Hocc.
  destruct (getEmptyPositions_spec ts (occupancy_rows ts Hocc)) as (es & Hes & Hspec).
  exists es. split; [done|].
  pose proof (getEmptyPositions_sublist ts es Hes) as Hsub.
  do 2 (split; [done|]).
  assert (es ++ (coords <$> ts) ≡ₚ cells) as Hp.
  { apply NoDup_Permutation.
    - apply NoDup_app. split; [|split].
      + eapply sublist_NoDup; [apply cells_NoDup|done].
      + intros k Hk. by apply Hspec in Hk as [_ ?].
      + apply Hocc.
    - apply cells_NoDup.
    - intros k. rewrite elem_of_app, Hspec. split.
      + intros [[? _]|Hk]; [done|].
        apply list_elem_of_fmap in Hk as (t & -> & Ht). by apply (occupancy_cells ts).
      + intros Hk. destruct (decide (k ∈ coords <$> ts)); [by right|by left]. }
  apply Permutation_length in Hp.
  by rewrite length_app, length_fmap, cells_length in Hp.
Qed.

(** X8 — Empty cells.  On a board satisfying the occupancy invariant
    [getEmptyPositions] returns the cells of the board that hold no tile,
    each once, in row-major order; with the tiles they make up the 16
    cells. *)
Theorem getEmptyPositions_complement (ts : list Tile) (Hocc : occupancy ts) :
  ∃ es, getEmptyPositions ts = Some es
        ∧ es `sublist_of` cells
        ∧ (∀ k, k ∈ es ↔ k ∈ cells ∧ k ∉ coords <$> ts)
        ∧ (length es + length ts = 16)%nat.
Proof. exact (getEmptyPositions_free ts Hocc). Qed.

Lemma getEmptyPositions_complement_witness :
  occupancy [mkTile 1 2 0 0 false false; mkTile 2 4 3 3 false false]
  ∧ ∃ es, getEmptyPositions [mkTile 1 2 0 0 false false; mkTile 2 4 3 3 false false]
          = Some es
          ∧ (length es + 2 = 16)%nat.
Proof.
  assert (occupancy [mkTile 1 2 0 0 false false; mkTile 2 4 3 3 false false]) as Hocc.
  { split; [by repeat constructor|]. apply (bool_decide_unpack _). by vm_compute. }
  split; [exact Hocc|].
  destruct (getEmptyPositions_complement _ Hocc) as (es & Hes & _ & _ & Hlen).
  by exists es.
Defined.

Lemma getEmptyPositions_nil : getEmptyPositions [] = Some cells.
Proof. by vm_compute. Qed.

Lemma initial_loop_S n i draws (ts : list Tile) counter :
  initial_loop (S n) i draws ts counter =
  match getEmptyPositions ts with
  | None => None
  | Some [] => Some (ts, counter)
  | Some emptyPositions =>
      match emptyPositions !! pick (draws i) with
      | None => None
      | Some choice =>
          initial_loop n (S i) draws (ts ++ [spawned counter (draws i) choice])
            (counter + 1)
      end
  end.
Proof. reflexivity. Qed.

Lemma spawned_cell counter d k : coords (spawned counter d k) = k.
Proof. by destruct k. Qed.

Lemma spawned_occupancy counter d k : k ∈ cells → occupancy [spawned counter d k].
Proof.
  intros Hk. apply (occupancy_snoc [] _ occupancy_nil).
  - by rewrite spawned_cell.
  - rewrite fmap_nil. apply not_elem_of_nil.
Qed.

Lemma generateInitialTiles_spec counter draws ts counter' :
  generateInitialTiles counter draws = Some (ts, counter') →
  counter' = counter + 2
  ∧ ∃ k1 k2, k1 ∈ cells ∧ k2 ∈ cells ∧ k1 ≠ k2
      ∧ ts = [spawned counter (draws 0%nat) k1; spawned (counter + 1) (draws 1%nat) k2].
Proof.
  unfold generateInitialTiles, INITIAL_TILES.
  rewrite initial_loop_S, getEmptyPositions_nil.
  destruct cells as [|c0 cs] eqn:Ecells; [by vm_compute in Ecells|].
  rewrite <- Ecells.
  destruct (cells !! pick (draws 0%nat)) as [k1|] eqn:E1; [|done].
  assert (k1 ∈ cells) as Hk1 by (by eapply list_elem_of_lookup_2).
  rewrite app_nil_l, initial_loop_S.
  destruct (getEmptyPositions_free _ (spawned_occupancy counter (draws 0%nat) k1 Hk1))
    as (es & -> & _ & Hspec & Hlen).
  destruct es as [|e es]; [simpl in Hlen; lia|].
  destruct ((e :: es) !! pick (draws 1%nat)) as [k2|] eqn:E2; [|done].
  simpl. intros [= <- <-]. split; [lia|].
  assert (k2 ∈ e :: es) as Hk2 by (by eapply list_elem_of_lookup_2).
  apply Hspec in Hk2 as [Hk2 Hne]. exists k1, k2. do 2 (split; [done|]).
  split; [|done]. intros ->. apply Hne. simpl. rewrite spawned_cell. by left.
Qed.

Lemma generateInitialTiles_returns counter draws :
  (pick (draws 0%nat) < 16)%nat → (pick (draws 1%nat) < 15)%nat →
  is_Some (generateInitialTiles counter draws).
Proof.
  intros H0 H1. unfold generateInitialTiles, INITIAL_TILES.
  rewrite initial_loop_S, getEmptyPositions_nil.
  destruct cells as [|c0 cs] eqn:Ecells; [by vm_compute in Ecells|].
  rewrite <- Ecells.
  destruct (lookup_lt_is_Some_2 cells (pick (draws 0%nat))) as [k1 E1];
    [by rewrite cells_length|].
  rewrite E1.
  assert (k1 ∈ cells) as Hk1 by (by eapply list_elem_of_lookup_2).
  rewrite app_nil_l, initial_loop_S.
  destruct (getEmptyPositions_free _ (spawned_occupancy counter (draws 0%nat) k1 Hk1))
    as (es & -> & _ & _ & Hlen).
  simpl in Hlen.
  destruct es as [|e es]; [simpl in Hlen; lia|].
  destruct (lookup_lt_is_Some_2 (e :: es) (pick (draws 1%nat))) as [k2 E2]; [lia|].
  rewrite E2. by eexists.
Qed.

(** X9 — The first board.  When [generateInitialTiles] returns, the board
    has exactly two tiles, in two different cells of the board, with the
    next two ids, each of value 2 or 4 and flagged new, and the counter has
    advanced by two.  It returns whenever the first draw picks among 16
    cells and the second among 15. *)
Theorem generateInitialTiles_two (counter : Z) (draws : nat → Draw) :
  (∀ ts counter', generateInitialTiles counter draws = Some (ts, counter') →
     counter' = counter + 2
     ∧ ∃ k1 k2 v1 v2, k1 ∈ cells ∧ k2 ∈ cells ∧ k1 ≠ k2
         ∧ (v1 = 2 ∨ v1 = 4) ∧ (v2 = 2 ∨ v2 = 4)
         ∧ ts = [mkTile (counter + 1) v1 k1.1 k1.2 true false;
                 mkTile (counter + 2) v2 k2.1 k2.2 true false])
  ∧ ((pick (draws 0%nat) < 16)%nat → (pick (draws 1%nat) < 15)%nat →
     is_Some (generateInitialTiles counter draws)).
Proof.
  split; [|apply generateInitialTiles_returns].
  intros ts counter' H.
  destruct (generateInitialTiles_spec _ _ _ _ H) as (Hc & k1 & k2 & ? & ? & ? & ->).
  split; [done|].
  exists k1, k2, (spawn_value (draws 0%nat)), (spawn_value (draws 1%nat)).
  do 3 (split; [done|]).
  split; [unfold spawn_value; destruct (small _); auto|].
  split; [unfold spawn_value; destruct (small _); auto|].
  unfold spawned. do 3 f_equal. lia.
Qed.

Lemma generateInitialTiles_two_witness :
  (pick (mkDraw 5 true) < 16)%nat ∧ (pick (mkDraw 5 true) < 15)%nat
  ∧ is_Some (generateInitialTiles 0 (λ _, mkDraw 5 true)).
Proof.
  assert ((5 < 16)%nat) as H0 by lia. assert ((5 < 15)%nat) as H1 by lia.
  split; [exact H0|]. split; [exact H1|].
  exact (proj2 (generateInitialTiles_two 0 (λ _, mkDraw 5 true)) H0 H1).
Defined.

(** ** What every session keeps *)

Lemma power_of_two_double v : power_of_two v → power_of_two (v * 2).
Proof.
  intros (k & Hk & ->). exists (S k). split; [lia|].
  rewrite Nat2Z.inj_succ, Z.pow_succ_r by lia. lia.
Qed.

Lemma power_of_two_pos v : power_of_two v → 0 < v.
Proof. intros (k & _ & ->). apply Z.pow_pos_nonneg; lia. Qed.

Lemma spawn_power d : power_of_two (spawn_value d).
Proof.
  unfold spawn_value.
  destruct (small d); [exists 1%nat|exists 2%nat]; (split; [lia|reflexivity]).
Qed.

Lemma containsTargetTile_false (ts : list Tile) target :
  containsTargetTile ts target = false ↔ Forall (λ t, value t < target) ts.
Proof.
  unfold containsTargetTile. induction ts as [|t ts IH]; simpl.
  - split; [constructor|done].
  - rewrite orb_false_iff, IH, Forall_cons.
    destruct (Z.geb_spec (value t) target) as [Hge|Hlt].
    + split; intros [? ?]; [done|lia].
    + split; intros [? ?]; by split.
Qed.

Lemma new_board_ok draws ts counter' best :
  generateInitialTiles 0 draws = Some (ts, counter') → 0 <= best →
  session_ok (mkSession ts 0 best false false counter').
Proof.
  intros Hgen Hbest.
  pose proof (generateInitialTiles_occupancy _ _ _ _ Hgen) as Hocc.
  destruct (generateInitialTiles_spec _ _ _ _ Hgen)
    as (-> & k1 & k2 & Hk1 & Hk2 & Hne & ->).
  split; simpl.
  - done.
  - done.
  - apply NoDup_cons. split; [|apply NoDup_singleton].
    intros H%list_elem_of_singleton. lia.
  - constructor; [simpl; lia|]. constructor; [simpl; lia|constructor].
  - constructor; [apply spawn_power|]. constructor; [apply spawn_power|constructor].
  - lia.
  - done.
  - intros _.
    constructor; [simpl; unfold spawn_value; by destruct (small _)|].
    constructor; [simpl; unfold spawn_value; by destruct (small _)|constructor].
Qed.

Lemma handleMove_ok s d dr s' :
  session_ok s → handleMove s d dr = Some s' → session_ok s'.
Proof.
  intros Hok Hmove.
  apply handleMove_cases in Hmove
    as [[_ ->]|(_ & mr & Hmr & [[_ ->]|(Hm & w & c & a & Ha & Hh & ->)])];
    [done|done|].
  destruct Hok as [Hocc Hne Hids Hrange Hvals Hscore Hover Hwon].
  pose proof (moveTiles_occupancy _ _ _ Hocc Hmr) as Hocc'.
  pose proof (moveTiles_ids _ _ _ Hocc Hmr) as Hsub.
  apply addRandomTile_cases in Ha as [(Hes & _ & _)|(es & choice & Hes & Hc & -> & ->)].
  { exfalso. apply (getEmptyPositions_room _ _ Hes); [|done].
    by apply (moveTiles_room (s_tiles s) d mr). }
  assert (Forall (λ t, 0 < id t <= tileIdRef s) (tiles mr)) as Hrange'.
  { apply Forall_forall. intros t Ht.
    assert (id t ∈ id <$> s_tiles s) as Hin
      by (eapply elem_of_submseteq; [by apply list_elem_of_fmap_2|done]).
    apply list_elem_of_fmap in Hin as (u & -> & Hu).
    rewrite Forall_forall in Hrange. by apply Hrange. }
  assert (Forall (λ t, 0 < value t) (s_tiles s)) as Hpos.
  { eapply Forall_impl; [exact Hvals|]. simpl. intros t. apply power_of_two_pos. }
  assert (0 < tileIdRef s) as Hcounter.
  { destruct (s_tiles s) as [|t0 ?]; [done|].
    apply Forall_cons in Hrange as [? _]. lia. }
  split; simpl.
  - by eapply spawn_occupancy.
  - by destruct (tiles mr).
  - rewrite fmap_app. apply NoDup_app. split; [|split].
    + by eapply NoDup_submseteq_inv.
    + intros i Hi Hi'. simpl in Hi'. apply list_elem_of_singleton in Hi'. subst i.
      apply list_elem_of_fmap in Hi as (t & Hid & Ht).
      rewrite Forall_forall in Hrange'. specialize (Hrange' t Ht). lia.
    + simpl. apply NoDup_singleton.
  - apply Forall_app. split.
    + eapply Forall_impl; [exact Hrange'|]. simpl. intros; lia.
    + constructor; [simpl; lia|constructor].
  - apply Forall_app. split.
    + by apply (moveTiles_values power_of_two (s_tiles s) d mr power_of_two_double).
    + constructor; [apply spawn_power|constructor].
  - destruct (moveTiles_positive _ _ _ Hpos Hmr) as [_ Hgain]. lia.
  - by rewrite Hh, negb_involutive.
  - intros [_ Hc2048]%orb_false_iff. by apply containsTargetTile_false.
Qed.

Lemma reachable_session_ok s : reachable_session s → session_ok s.
Proof.
  induction 1 as [draws s Hi|s d dr s' _ IH Hm|s draws s' _ IH Hn].
  - unfold initialSession in Hi.
    destruct (generateInitialTiles 0 draws) as [[ts c]|] eqn:E; [|done].
    injection Hi as <-. by apply (new_board_ok draws).
  - by eapply handleMove_ok.
  - unfold handleNewGame in Hn.
    destruct (generateInitialTiles 0 draws) as [[ts c]|] eqn:E; [|done].
    injection Hn as <-. apply (new_board_ok draws); [done|].
    destruct IH as [_ _ _ _ _ Hscore _ _]. lia.
Qed.

Lemma sample_session_reachable : reachable_session sample_session.
Proof. apply (session_initial (λ _, mkDraw 0 true)). by vm_compute. Qed.

Lemma play_reachable s codes s' :
  reachable_session s → play s codes = Some s' → reachable_session s'.
Proof.
  revert s. induction codes as [|c codes IH]; intros s Hs; simpl.
  - by intros [= <-].
  - destruct (handleMove s _ _) as [s1|] eqn:E; [|done].
    apply IH. by eapply session_move.
Qed.

Lemma lost_session_reachable : reachable_session lost_session.
Proof.
  assert (initialSession lost_first ≫= (λ s, play s lost_moves) = Some lost_session)
    as H by (by vm_compute).
  destruct (initialSession lost_first) as [s0|] eqn:E0; [|done].
  apply (play_reachable s0 lost_moves); [by apply (session_initial lost_first)|].
  exact H.
Qed.

Lemma won_session_reachable : reachable_session won_session.
Proof.
  assert (initialSession won_first ≫= (λ s, play s won_moves) = Some won_session)
    as H by (by vm_compute).
  destruct (initialSession won_first) as [s0|] eqn:E0; [|done].
  apply (play_reachable s0 won_moves); [by apply (session_initial won_first)|].
  exact H.
Qed.

(** ** Properties of the session *)

(** X10 — Tile ids.  In every session that the game can be in the tiles
    have pairwise distinct ids, all positive and none above the id
    counter, so the next id handed out is fresh. *)
Theorem session_ids_unique (s : Session) (Hreach : reachable_session s) :
  NoDup (id <$> s_tiles s)
  ∧ Forall (λ t, 0 < id t <= tileIdRef s) (s_tiles s).
Proof.
  destruct (reachable_session_ok s Hreach) as [_ _ Hids Hrange _ _ _ _]. by split.
Qed.

Lemma session_ids_unique_witness :
  reachable_session sample_session ∧ NoDup (id <$> s_tiles sample_session).
Proof.
  split; [exact sample_session_reachable|].
  exact (proj1 (session_ids_unique _ sample_session_reachable)).
Defined.

(** X11 — Tile values.  In every session that the game can be in each
    tile value is a power of two, 2 or more. *)
Theorem session_values_powers_of_two (s : Session) (Hreach : reachable_session s) :
  Forall (λ t, power_of_two (value t)) (s_tiles s).
Proof. by destruct (reachable_session_ok s Hreach). Qed.

Lemma session_values_powers_of_two_witness :
  reachable_session sample_session
  ∧ Forall (λ t, power_of_two (value t)) (s_tiles sample_session).
Proof.
  split; [exact sample_session_reachable|].
  exact (session_values_powers_of_two _ sample_session_reachable).
Defined.

(** X12 — The game-over flag.  In every session that the game can be in
    [gameOver] is set exactly when no direction changes the board:
    [moveTiles] reports [moved = false] for all four. *)
Theorem session_game_over_exact (s : Session) (Hreach : reachable_session s) :
  gameOver s = true
  ↔ ∀ d, ∃ mr, moveTiles (s_tiles s) d = Some mr ∧ moved mr = false.
Proof.
  destruct (reachable_session_ok s Hreach) as [Hocc Hne _ _ _ _ Hover _].
  rewrite <- (no_moves_all_noop _ Hocc Hne), Hover.
  destruct (gameOver s); simpl; split; congruence.
Qed.

Lemma session_game_over_exact_witness :
  reachable_session lost_session
  ∧ gameOver lost_session = true
  ∧ ∀ d, ∃ mr, moveTiles (s_tiles lost_session) d = Some mr ∧ moved mr = false.
Proof.
  split; [exact lost_session_reachable|]. split; [reflexivity|].
  exact (proj1 (session_game_over_exact _ lost_session_reachable) eq_refl).
Defined.

(** X13 — The win flag.  In every session that the game can be in a tile
    of value 2048 or more on the board means [hasWon] is set, and a move
    never clears [hasWon]. *)
Theorem session_win_flag (s : Session) (Hreach : reachable_session s) :
  ((∃ t, t ∈ s_tiles s ∧ 2048 <= value t) → hasWon s = true)
  ∧ ∀ d dr s', handleMove s d dr = Some s' → hasWon s = true → hasWon s' = true.
Proof.
  destruct (reachable_session_ok s Hreach) as [_ _ _ _ _ _ _ Hwon]. split.
  - intros (t & Ht & Hv). destruct (hasWon s); [done|].
    specialize (Hwon eq_refl). rewrite Forall_forall in Hwon.
    specialize (Hwon t Ht). lia.
  - intros d dr s' Hm Hw.
    apply handleMove_cases in Hm
      as [[_ ->]|(_ & mr & _ & [[_ ->]|(_ & w & c & a & _ & _ & ->)])];
      [done|done|]. simpl. by rewrite Hw.
Qed.

Lemma session_win_flag_witness :
  reachable_session won_session
  ∧ (∃ t, t ∈ s_tiles won_session ∧ 2048 <= value t)
  ∧ hasWon won_session = true
  ∧ ∃ s', handleMove won_session left (mkDraw 0 true) = Some s'
          ∧ hasWon s' = true.
Proof.
  assert (∃ t, t ∈ s_tiles won_session ∧ 2048 <= value t) as Htile.
  { exists (mkTile 1 2048 0 0 false true). split; [left|]. simpl. lia. }
  pose proof (proj1 (session_win_flag _ won_session_reachable) Htile) as Hwon.
  split; [exact won_session_reachable|]. split; [exact Htile|].
  split; [exact Hwon|].
  destruct (handleMove won_session left (mkDraw 0 true)) as [s'|] eqn:E;
    [|by vm_compute in E].
  exists s'. split; [reflexivity|].
  exact (proj2 (session_win_flag _ won_session_reachable)
           left (mkDraw 0 true) s' E Hwon).
Defined.

(** X14 — Scores.  In every session that the game can be in the score is
    not negative and the best score is at least the score.  A move never
    lowers the best score, and a new game keeps it while the score starts
    again at 0. *)
Theorem session_scores (s : Session) (Hreach : reachable_session s) :
  0 <= score s <= bestScore s
  ∧ (∀ d dr s', handleMove s d dr = Some s' → bestScore s <= bestScore s')
  ∧ (∀ draws s', handleNewGame s draws = Some s' →
       bestScore s' = bestScore s ∧ score s' = 0).
Proof.
  destruct (reachable_session_ok s Hreach) as [_ _ _ _ _ Hscore _ _].
  split; [done|]. split.
  - intros d dr s' Hm.
    apply handleMove_cases in Hm
      as [[_ ->]|(_ & mr & _ & [[_ ->]|(_ & w & c & a & _ & _ & ->)])];
      [done|done|]. simpl. lia.
  - intros draws s'. unfold handleNewGame.
    destruct (generateInitialTiles 0 draws) as [[ts c]|]; [|done].
    by intros [= <-].
Qed.

Lemma session_scores_witness :
  reachable_session sample_session
  ∧ 0 <= score sample_session <= bestScore sample_session.
Proof.
  split; [exact sample_session_reachable|].
  exact (proj1 (session_scores _ sample_session_reachable)).
Defined.

(** X15 — What an accepted move does to the board.  In a session that the
    game can be in and that is not over, a move that [moveTiles] reports
    always spawns: the new board is the moved board followed by one tile,
    placed in a cell that the moved board left empty, with the next id; it
    is the only tile flagged new. *)
Theorem accepted_move_spawns_one
    (s s' : Session) (d : Direction) (dr : Draw) (mr : MoveResult)
    (Hreach : reachable_session s) (Hplaying : gameOver s = false)
    (Hmove : moveTiles (s_tiles s) d = Some mr) (Hmoved : moved mr = true)
    (Hstep : handleMove s d dr = Some s') :
  ∃ k, k ∈ cells ∧ (k ∉ coords <$> tiles mr)
       ∧ s_tiles s' = tiles mr ++ [mkTile (tileIdRef s + 1) (spawn_value dr)
                                          k.1 k.2 true false]
       ∧ tileIdRef s' = tileIdRef s + 1
       ∧ Forall (λ t, isNew t = false) (tiles mr).
Proof.
  destruct (reachable_session_ok s Hreach) as [Hocc _ _ _ _ _ _ _].
  pose proof (moveTiles_occupancy _ _ _ Hocc Hmove) as Hocc'.
  apply handleMove_cases in Hstep
    as [[? _]|(_ & mr' & Hmr' & [[? _]|(_ & w & c & a & Ha & _ & ->)])];
    [congruence|congruence|].
  rewrite Hmove in Hmr'. injection Hmr' as <-.
  apply addRandomTile_cases in Ha as [(Hes & _ & _)|(es & k & Hes & Hk & -> & ->)].
  { exfalso. apply (getEmptyPositions_room _ _ Hes); [|done].
    by apply (moveTiles_room (s_tiles s) d mr). }
  destruct (getEmptyPositions_free _ Hocc') as (es' & Hes' & _ & Hspec & _).
  rewrite Hes in Hes'. injection Hes' as <-.
  assert (k ∈ es) as Hin by (by eapply list_elem_of_lookup_2).
  apply Hspec in Hin as [? ?].
  exists k. do 2 (split; [done|]). simpl. do 2 (split; [done|]).
  by apply (moveTiles_not_new (s_tiles s) d).
Qed.

Lemma accepted_move_spawns_one_witness :
  reachable_session sample_session
  ∧ handleMove sample_session left (mkDraw 0 true)
    = Some (mkSession [mkTile 1 4 0 0 false true; mkTile 3 2 0 1 true false]
                      4 4 false false 3)
  ∧ ∃ k, k ∈ cells ∧ (k ∉ coords <$> [mkTile 1 4 0 0 false true])
         ∧ [mkTile 1 4 0 0 false true; mkTile 3 2 0 1 true false]
           = [mkTile 1 4 0 0 false true] ++ [mkTile 3 2 k.1 k.2 true false].
Proof.
  assert (handleMove sample_session left (mkDraw 0 true)
          = Some (mkSession [mkTile 1 4 0 0 false true; mkTile 3 2 0 1 true false]
                            4 4 false false 3)) as Hstep by (by vm_compute).
  split; [exact sample_session_reachable|]. split; [exact Hstep|].
  destruct (accepted_move_spawns_one sample_session _ left (mkDraw 0 true)
              (mkMoveResult [mkTile 1 4 0 0 false true] true 4)
              sample_session_reachable eq_refl eq_refl eq_refl Hstep)
    as (k & Hk & Hfree & Htiles & _).
  exists k. by do 2 (split; [done|]).
Defined.

Lemma addRandomTile_spawns (ts : list Tile) (counter : Z) (d : Draw) :
  occupancy ts → (pick d < 16 - length ts)%nat →
  ∃ k, k ∈ cells ∧ (k ∉ coords <$> ts)
       ∧ addRandomTile ts counter d
         = Some (ts ++ [spawned counter d k], counter + 1)
       ∧ occupancy (ts ++ [spawned counter d k]).
Proof.
  intros Hocc Hpick.
  destruct (getEmptyPositions_free ts Hocc) as (es & Hes & _ & Hspec & Hlen).
  unfold addRandomTile. rewrite Hes.
  destruct (lookup_lt_is_Some_2 es (pick d)) as [k Hk]; [lia|].
  destruct es as [|e es]; [done|]. rewrite Hk.
  apply list_elem_of_lookup_2, Hspec in Hk as [Hcell Hfree].
  exists k. do 3 (split; [done|]).
  apply (occupancy_snoc ts (spawned counter d k) Hocc); by rewrite spawned_cell.
Qed.

(** A session that the game can be in accepts every direction, whichever
    empty cell of the moved board the draw picks. *)
Lemma handleMove_in_range s d dr :
  reachable_session s →
  (∀ mr, moveTiles (s_tiles s) d = Some mr → moved mr = true →
         (pick dr < 16 - length (tiles mr))%nat) →
  is_Some (handleMove s d dr).
Proof.
  intros Hs Hpick. pose proof (reachable_session_occupancy s Hs) as Hocc.
  unfold handleMove. destruct (gameOver s); [by eexists|].
  destruct (proj1 (moveTiles_total (s_tiles s) d) (occupancy_rows _ Hocc))
    as [mr Hmr].
  rewrite Hmr. destruct (moved mr) eqn:Hm; simpl; [|by eexists].
  pose proof (moveTiles_occupancy _ _ _ Hocc Hmr) as Hocc'.
  destruct (addRandomTile_spawns (tiles mr) (tileIdRef s) dr Hocc'
              (Hpick mr Hmr Hm)) as (k & _ & _ & -> & Hocc'').
  destruct (hasAvailableMoves_total _ (occupancy_rows _ Hocc'')) as [a ->].
  by eexists.
Qed.

(** X16 — No failure in play.  In every session that the game can be in
    the engine's functions return on the board (no write outside the grid
    is attempted), and [handleMove] returns for any direction whenever the
    draw picks among the empty cells of the moved board, as
    [Math.floor(Math.random() * emptyPositions.length)] does; in
    particular when it picks the first one. *)
Theorem session_never_fails (s : Session) (Hreach : reachable_session s) :
  (∀ d, is_Some (moveTiles (s_tiles s) d))
  ∧ is_Some (getEmptyPositions (s_tiles s))
  ∧ is_Some (hasAvailableMoves (s_tiles s))
  ∧ (∀ d dr, pick dr = 0%nat → is_Some (handleMove s d dr))
  ∧ (∀ d dr,
       (∀ mr, moveTiles (s_tiles s) d = Some mr → moved mr = true →
              (pick dr < 16 - length (tiles mr))%nat) →
       is_Some (handleMove s d dr)).
Proof.
  destruct (reachable_session_ok s Hreach) as [Hocc _ _ _ _ _ Hover _].
  pose proof (occupancy_rows _ Hocc) as Hrows.
  split; [intros d; by apply moveTiles_total|].
  split; [destruct (getEmptyPositions_spec _ Hrows) as (es & -> & _); by eexists|].
  split; [by rewrite Hover|].
  split; [intros d dr Hpick; by apply handleMove_progress|].
  intros d dr Hpick. by apply handleMove_in_range.
Qed.

Lemma session_never_fails_witness :
  reachable_session sample_session
  ∧ (∀ mr, moveTiles (s_tiles sample_session) down = Some mr → moved mr = true →
           (pick (mkDraw 5 false) < 16 - length (tiles mr))%nat)
  ∧ is_Some (handleMove sample_session down (mkDraw 5 false)).
Proof.
  assert (∀ mr, moveTiles (s_tiles sample_session) down = Some mr →
                moved mr = true →
                (pick (mkDraw 5 false) < 16 - length (tiles mr))%nat) as Hpick.
  { intros mr Hmr _. vm_compute in Hmr. injection Hmr as <-. simpl. lia. }
  split; [exact sample_session_reachable|]. split; [exact Hpick|].
  exact (proj2 (proj2 (proj2 (proj2
           (session_never_fails _ sample_session_reachable))))
           down (mkDraw 5 false) Hpick).
Defined.

(** ** The callers *)

(** X17 — Recent runs of the home screen.  The history never holds more
    than five runs and only runs with a positive score, whatever the
    sequence of new games; a new game with a positive score puts its run in
    front and keeps the four most recent earlier ones, and one with a score
    of 0 or less leaves the history as it is. *)
Theorem recent_runs_home
    (events : list (Z * GameResetReason * Z * string)) :
  let log := λ runs (e : Z * GameResetReason * Z * string),
               handleNewGame_runs e.1.1.1 e.1.1.2 e.1.2 e.2 runs in
  (length (foldl log [] events) <= 5)%nat
  ∧ Forall (λ r, 0 < run_score r) (foldl log [] events)
  ∧ (∀ previousScore reason now timestamp runs,
       0 < previousScore →
       handleNewGame_runs previousScore reason now timestamp runs
       = mkRecentRun now previousScore timestamp reason :: take 4 runs)
  ∧ (∀ previousScore reason now timestamp runs,
       previousScore <= 0 →
       handleNewGame_runs previousScore reason now timestamp runs = runs).
Proof.
  intros log. split; [|split; [|split]].
  - cut (∀ runs, (length runs <= 5)%nat → (length (foldl log runs events) <= 5)%nat).
    { intros H. apply H. simpl. lia. }
    induction events as [|e events IH]; intros runs Hlen; [done|].
    simpl. apply IH. unfold log, handleNewGame_runs.
    destruct (_ <=? 0); [done|]. rewrite length_take. lia.
  - cut (∀ runs, Forall (λ r, 0 < run_score r) runs →
                 Forall (λ r, 0 < run_score r) (foldl log runs events)).
    { intros H. apply H. constructor. }
    induction events as [|e events IH]; intros runs Hpos; [done|].
    simpl. apply IH. unfold log, handleNewGame_runs.
    destruct (Z.leb_spec (e.1.1.1) 0); [done|].
    apply Forall_take. constructor; [simpl; lia|done].
  - intros previousScore reason now timestamp runs Hpos. unfold handleNewGame_runs.
    destruct (Z.leb_spec previousScore 0); [lia|done].
  - intros previousScore reason now timestamp runs Hpos. unfold handleNewGame_runs.
    destruct (Z.leb_spec previousScore 0); [done|lia].
Qed.

Lemma recent_runs_home_witness :
  0 < 120
  ∧ handleNewGame_runs 120 sensor 1700000000000 "10:15:00" []
    = [mkRecentRun 1700000000000 120 "10:15:00" sensor].
Proof.
  assert (0 < 120) as Hpos by lia. split; [exact Hpos|].
  exact (proj1 (proj2 (proj2 (recent_runs_home [])))
           120 sensor 1700000000000 "10:15:00"%string [] Hpos).
Defined.

(** X18 — Recent runs of the game context.  [addRecentRun] keeps at most
    ten runs, all with a positive score; a positive score goes in front
    and the nine most recent earlier runs stay, and a score of 0 or less is
    not recorded. *)
Theorem recent_runs_context
    (events : list (Z * GameResetReason * Z * string)) :
  let log := λ runs (e : Z * GameResetReason * Z * string),
               addRecentRun e.1.1.1 e.1.1.2 e.1.2 e.2 runs in
  (length (foldl log [] events) <= 10)%nat
  ∧ Forall (λ r, 0 < run_score r) (foldl log [] events)
  ∧ (∀ score_ reason now timestamp runs,
       0 < score_ →
       addRecentRun score_ reason now timestamp runs
       = mkRecentRun now score_ timestamp reason :: take 9 runs)
  ∧ (∀ score_ reason now timestamp runs,
       score_ <= 0 → addRecentRun score_ reason now timestamp runs = runs).
Proof.
  intros log. split; [|split; [|split]].
  - cut (∀ runs, (length runs <= 10)%nat → (length (foldl log runs events) <= 10)%nat).
    { intros H. apply H. simpl. lia. }
    induction events as [|e events IH]; intros runs Hlen; [done|].
    simpl. apply IH. unfold log, addRecentRun.
    destruct (_ <=? 0); [done|]. rewrite length_take. lia.
  - cut (∀ runs, Forall (λ r, 0 < run_score r) runs →
                 Forall (λ r, 0 < run_score r) (foldl log runs events)).
    { intros H. apply H. constructor. }
    induction events as [|e events IH]; intros runs Hpos; [done|].
    simpl. apply IH. unfold log, addRecentRun.
    destruct (Z.leb_spec (e.1.1.1) 0); [done|].
    apply Forall_take. constructor; [simpl; lia|done].
  - intros score_ reason now timestamp runs Hpos. unfold addRecentRun.
    destruct (Z.leb_spec score_ 0); [lia|done].
  - intros score_ reason now timestamp runs Hpos. unfold addRecentRun.
    destruct (Z.leb_spec score_ 0); [done|lia].
Qed.

Lemma recent_runs_context_witness :
  0 < 64
  ∧ length sample_runs = 10%nat
  ∧ addRecentRun 64 sensor 1700000000011 "now" sample_runs
    = mkRecentRun 1700000000011 64 "now" sensor :: take 9 sample_runs
  ∧ length (addRecentRun 64 sensor 1700000000011 "now" sample_runs) = 10%nat
  ∧ last (addRecentRun 64 sensor 1700000000011 "now" sample_runs)
    = Some (mkRecentRun 1700000000002 16 "earlier" manual).
Proof.
  assert (0 < 64) as Hpos by lia.
  pose proof (proj1 (proj2 (proj2 (recent_runs_context [])))
                64 sensor 1700000000011 "now"%string sample_runs Hpos) as Heq.
  split; [exact Hpos|]. split; [reflexivity|]. split; [exact Heq|].
  rewrite Heq. split; reflexivity.
Defined.

(** X19 — Shake debounce.  Whatever the readings, two shakes that start a
    new game are more than [SHAKE_DEBOUNCE_MS] = 2200 ms apart, and the
    first one comes more than 2200 ms after the stored time of the last
    accepted shake. *)
Theorem shake_debounce (readings : list (bool * Z)) (lastShakeTime : Z) :
  Forall (λ now, lastShakeTime + SHAKE_DEBOUNCE_MS < now)
         (shakes readings lastShakeTime)
  ∧ StronglySorted (λ a b, a + SHAKE_DEBOUNCE_MS < b) (shakes readings lastShakeTime).
Proof.
  revert lastShakeTime. induction readings as [|[strong now] rest IH];
    intros lastShakeTime; [split; constructor|].
  simpl. unfold shake_listener.
  destruct strong; simpl; [|apply IH].
  destruct (Z.ltb_spec SHAKE_DEBOUNCE_MS (now - lastShakeTime)) as [Hlt|_]; [|apply IH].
  destruct (IH now) as [IH1 IH2]. unfold SHAKE_DEBOUNCE_MS in *. split.
  - constructor; [lia|]. eapply Forall_impl; [exact IH1|]. simpl. intros; lia.
  - by constructor.
Qed.

(** X20 — Swipes.  A release is ignored exactly when both offsets are
    under 12; otherwise the direction follows the larger offset and its
    sign, and a tie between the two axes goes to the vertical one.  So
    [right] needs [dx >= 12] and [left] needs [dx <= -12], [down] needs
    [dy >= 12] and [up] needs [dy <= -12]. *)
Theorem swipe_direction (dx dy : Q) :
  (swipe dx dy = None ↔ (Qabs dx < 12 ∧ Qabs dy < 12)%Q)
  ∧ (swipe dx dy = Some right ↔ (12 <= dx ∧ Qabs dy < dx)%Q)
  ∧ (swipe dx dy = Some left ↔ (dx <= -12 ∧ Qabs dy < - dx)%Q)
  ∧ (swipe dx dy = Some down ↔ (12 <= dy ∧ Qabs dx <= dy)%Q)
  ∧ (swipe dx dy = Some up ↔ (dy <= -12 ∧ Qabs dx <= - dy)%Q).
Proof.
  assert (∀ a b, Qlt_b a b = true ↔ (a < b)%Q) as Hlt.
  { intros a b. unfold Qlt_b. rewrite negb_true_iff. split.
    - intros H. apply Qnot_le_lt. intros Hle. apply Qle_bool_iff in Hle. congruence.
    - intros H. destruct (Qle_bool b a) eqn:E; [|done].
      apply Qle_bool_iff in E. lra. }
  unfold swipe.
  destruct (Qlt_b (Qabs dx) 12) eqn:E1, (Qlt_b (Qabs dy) 12) eqn:E2,
    (Qlt_b (Qabs dy) (Qabs dx)) eqn:E3, (Qlt_b 0 dx) eqn:E4, (Qlt_b 0 dy) eqn:E5;
    simpl.
  all: repeat match goal with
       | H : Qlt_b _ _ = true |- _ => apply Hlt in H
       | H : Qlt_b _ _ = false |- _ =>
           apply not_true_iff_false in H; rewrite Hlt in H
       end.
  all: revert E1 E2 E3; apply (Qabs_case dx); apply (Qabs_case dy); intros.
  all: repeat split; try discriminate; try reflexivity; try lra;
       try (intros [? ?]; exfalso; lra);
       try (intros [? ?]; reflexivity).
Qed.

Lemma swipe_direction_witness :
  (12 <= 40 ∧ Qabs (-7) < 40)%Q ∧ swipe 40 (-7) = Some right.
Proof.
  assert ((12 <= 40 ∧ Qabs (-7) < 40)%Q) as H by (split; by compute).
  split; [exact H|].
  exact (proj2 (proj1 (proj2 (swipe_direction 40 (-7)))) H).
Defined.

(** ** What a move shows and how it packs *)

Lemma along_target_pos_iff low along t ti :
  along t = target low ti ↔ pos low along t = ti.
Proof. unfold target, pos, BOARD_SIZE. destruct low; lia. Qed.

Section LineShow.
Variables (along across : Tile → Z) (low : bool) (idx : Z).
Variable step : Tile → bool → Line → Line.
Hypothesis Hstep : step_spec along across low idx step.

(** A line that reports a move returns a merged tile or a tile in a slot
    that no tile of the line had. *)
Lemma scan_moved_shows L :
  ordered along across low idx 0 L →
  line_moved (scan step L line_start) = true →
  ∃ u, u ∈ line_tiles (scan step L line_start)
       ∧ (justMerged u = true ∨ ∀ x, x ∈ L → along x ≠ along u).
Proof.
  intros Ho.
  set (P := λ (k : list Tile) (a : Line),
    ordered along across low idx (targetIndex a) k
    ∧ (∀ x, x ∈ L → x ∈ k ∨ pos low along x < targetIndex a ∨ line_moved a = true)
    ∧ (line_moved a = true →
       ∃ u, u ∈ line_tiles a
            ∧ (justMerged u = true ∨ ∀ x, x ∈ L → along x ≠ along u))).
  cut (P [] (scan step L line_start)); [by intros (_ & _ & ?)|].
  assert (∀ t rest a, P (t :: rest) a →
            P rest (step t false a)) as Hkeep.
  { intros t rest a (Hok & Hseen & Hshow).
    pose proof (ordered_tail _ _ _ _ _ _ _ Hok) as Hok'.
    destruct Hok as [Hs Hf]. apply StronglySorted_inv in Hs as [_ Hlt].
    rewrite Forall_forall in Hlt.
    apply Forall_cons in Hf as [[Hge Hac] _].
    destruct (step_out _ _ _ _ _ Hstep t false a)
      as (t' & Ht' & _ & _ & _ & _ & Hal & _).
    unfold P.
    rewrite (step_index _ _ _ _ _ Hstep), (step_moved _ _ _ _ _ Hstep), Ht'.
    rewrite along_target_pos, Hac, Z.eqb_refl. simpl.
    rewrite !orb_false_r.
    split; [eapply ordered_weaken; [|exact Hok']; lia|]. split.
    - intros x Hx. destruct (Hseen x Hx) as [[->|?]%elem_of_cons|[?|Hm]].
      + destruct (Z.eqb_spec (pos low along t) (targetIndex a)) as [->|?].
        * right. left. lia.
        * right. right. by rewrite orb_true_r.
      + by left.
      + right. left. lia.
      + right. right. by rewrite Hm.
    - intros Hm. apply orb_true_iff in Hm as [Hm|Hm].
      + destruct (Hshow Hm) as (u & Hu & Hprop). exists u.
        split; [apply elem_of_app; by left|done].
      + apply negb_true_iff, Z.eqb_neq in Hm.
        destruct (line_moved a) eqn:Ema.
        { destruct (Hshow eq_refl) as (u & Hu & Hprop). exists u.
          split; [apply elem_of_app; by left|done]. }
        exists t'. split; [apply elem_of_app; right; by left|]. right.
        intros x Hx. rewrite Hal, along_target_pos_iff.
        destruct (Hseen x Hx) as [[->|Hr]%elem_of_cons|[?|?]]; [lia| |lia|done].
        specialize (Hlt x Hr). lia. }
  apply (scan_rule step P).
  - intros t a HP. by apply Hkeep.
  - intros t n rest a (Hok & Hseen & Hshow) _.
    pose proof (ordered_tail _ _ _ _ _ _ _ Hok) as Hok'.
    pose proof (ordered_tail _ _ _ _ _ _ _ Hok') as Hok''.
    destruct Hok as [_ [[Hge _] _]%Forall_cons].
    destruct Hok' as [Hs' [[Hge' _] _]%Forall_cons].
    destruct (step_out _ _ _ _ _ Hstep t true a)
      as (t' & Ht' & _ & _ & Hj & _).
    unfold P.
    rewrite (step_index _ _ _ _ _ Hstep), (step_moved _ _ _ _ _ Hstep), Ht'.
    split; [eapply ordered_weaken; [|exact Hok'']; lia|]. split.
    + intros x _. right. right. by rewrite orb_true_r.
    + intros _. exists t'. split; [apply elem_of_app; right; by left|by left].
  - intros t n rest a HP _. by apply Hkeep.
  - split; [done|]. split; [|done]. intros x Hx. by left.
Qed.
End LineShow.

Section SweepShow.
Variables (along across : Tile → Z) (low : bool).
Variable step : Z → Tile → bool → Line → Line.
Variable cmp : Tile → Tile → Z.
Variable cell : Z → Z → Z * Z.
Variable g : gmap (Z * Z) Tile.
Variable ts : list Tile.
Hypothesis Hstep : ∀ idx, step_spec along across low idx (step idx).
Hypothesis Hcmp : ∀ a b, cmp a b <= 0 ↔ pos low along a <= pos low along b.
Hypothesis Hcell : ∀ t, coords t = cell (across t) (along t).
Hypothesis Hinj : ∀ i j i' j', cell i j = cell i' j' → i = i' ∧ j = j'.
Hypothesis Hboard : ∀ t, coords t ∈ cells → along t ∈ indices ∧ across t ∈ indices.
Hypothesis Hg : grid_fill ts ∅ = Some g.
Hypothesis Hocc : occupancy ts.

(** The tiles of a collapsed line fill the first slots of that line. *)
Lemma line_of_slots l idx u :
  u ∈ line_tiles (line_of step cmp l idx) →
  across u = idx ∧ 0 <= pos low along u
  ∧ ∀ j, 0 <= j < pos low along u →
      ∃ v, v ∈ line_tiles (line_of step cmp l idx)
           ∧ across v = idx ∧ pos low along v = j.
Proof.
  intros Hu.
  destruct (line_of_coords along across low step cmp cell Hstep Hcell l idx)
    as (k & _ & _ & _ & Hc).
  assert (∀ v, v ∈ line_tiles (line_of step cmp l idx) →
            across v = idx ∧ 0 <= pos low along v < k) as Hin.
  { intros v Hv. apply (list_elem_of_fmap_2 coords) in Hv. rewrite Hc in Hv.
    apply list_elem_of_fmap in Hv as (j & Hj & Hjk). apply elem_of_seqZ in Hjk.
    rewrite Hcell in Hj. apply Hinj in Hj as [? Hal]. split; [done|].
    apply along_target_pos_iff in Hal. lia. }
  destruct (Hin u Hu) as [Hac Hpu]. split; [done|]. split; [lia|].
  intros j Hj.
  assert (cell idx (target low j) ∈ coords <$> line_tiles (line_of step cmp l idx))
    as Hv.
  { rewrite Hc. apply (list_elem_of_fmap_2 (λ j, cell idx (target low j))).
    apply elem_of_seqZ. lia. }
  apply list_elem_of_fmap in Hv as (v & Hcv & Hv). exists v. split; [done|].
  rewrite Hcell in Hcv. symmetry in Hcv. apply Hinj in Hcv as [? Hal].
  split; [done|]. by apply along_target_pos_iff.
Qed.

Lemma sweep_tiles_elem u :
  u ∈ tiles (sweep (line_of step cmp) g cell)
  ↔ ∃ idx, idx ∈ indices
           ∧ u ∈ line_tiles (line_of step cmp (extract g cell idx) idx).
Proof.
  cut ((u ∈ tiles (sweep (line_of step cmp) g cell)
        ↔ ∃ idx, idx ∈ indices
                 ∧ u ∈ line_tiles (line_of step cmp (extract g cell idx) idx))
       ∧ ∀ i, i ∈ indices → i ∈ indices); [tauto|].
  apply (sweep_rule (line_of step cmp) g cell
    (λ seen acc,
       (u ∈ tiles acc
        ↔ ∃ idx, idx ∈ seen
                 ∧ u ∈ line_tiles (line_of step cmp (extract g cell idx) idx))
       ∧ ∀ i, i ∈ seen → i ∈ indices)).
  { split; [|by intros i Hi%elem_of_nil].
    split; [by intros H%elem_of_nil|]. by intros (i & Hi%elem_of_nil & _). }
  intros seen idx acc Hidx [IH Hseen]. split.
  - unfold add_line. simpl tiles. rewrite elem_of_app, IH. split.
    + intros [(i & Hi & Hu)|Hu].
      * exists i. split; [apply elem_of_app; by left|done].
      * exists idx. split; [apply elem_of_app; right; by left|done].
    + intros (i & [Hi|Hi]%elem_of_app & Hu).
      * left. by exists i.
      * apply list_elem_of_singleton in Hi. subst. by right.
  - intros i [Hi|Hi]%elem_of_app; [by apply Hseen|].
    apply list_elem_of_singleton in Hi. by subst.
Qed.

(** After the lines are collapsed, every slot between a tile and the edge
    its line was pushed to is taken. *)
Lemma sweep_packed u :
  u ∈ tiles (sweep (line_of step cmp) g cell) →
  0 <= pos low along u
  ∧ ∀ j, 0 <= j < pos low along u →
      ∃ v, v ∈ tiles (sweep (line_of step cmp) g cell)
           ∧ across v = across u ∧ pos low along v = j.
Proof.
  intros (idx & Hidx & Hu)%sweep_tiles_elem.
  destruct (line_of_slots _ _ _ Hu) as (Hac & Hpos & Hall).
  split; [done|]. intros j Hj.
  destruct (Hall j Hj) as (v & Hv & Hav & Hpv). exists v.
  split; [apply sweep_tiles_elem; by exists idx|]. split; [congruence|done].
Qed.

(** A reported move returns a merged tile or a tile in a cell that was
    empty. *)
Lemma sweep_moved_shows :
  moved (sweep (line_of step cmp) g cell) = true →
  ∃ u, u ∈ tiles (sweep (line_of step cmp) g cell)
       ∧ (justMerged u = true ∨ coords u ∉ coords <$> ts).
Proof.
  pose proof (grid_fill_ok _ _ Hg) as Hok.
  apply (sweep_rule (line_of step cmp) g cell
    (λ _ acc, moved acc = true →
       ∃ u, u ∈ tiles acc ∧ (justMerged u = true ∨ coords u ∉ coords <$> ts)));
    [done|].
  intros _ idx acc Hidx IH. unfold add_line. simpl moved. simpl tiles.
  intros [Hm|Hm]%orb_true_iff.
  - destruct (IH Hm) as (u & Hu & Hprop). exists u.
    split; [apply elem_of_app; by left|done].
  - assert (ordered along across low idx 0 (sort_by cmp (extract g cell idx)))
      as Ho by (by apply (extract_ordered along across low step)).
    destruct (scan_moved_shows along across low idx (step idx) (Hstep idx) _ Ho Hm)
      as (u & Hu & Hprop).
    fold (line_of step cmp (extract g cell idx) idx) in Hu.
    exists u. split; [apply elem_of_app; by right|].
    destruct Hprop as [?|Hfree]; [by left|right].
    destruct (line_of_slots _ _ _ Hu) as (Hac & _).
    intros (x & Hcx & Hx)%list_elem_of_fmap.
    rewrite !Hcell in Hcx. apply Hinj in Hcx as [Hax Hlx].
    apply (Hfree x); [|done].
    rewrite (sort_by_perm cmp).
    apply (extract_elem along across cell g ts Hcell Hinj Hboard Hg Hocc);
      [done|]. split; [done|congruence].
Qed.
End SweepShow.

Lemma move_lines_packed g d u :
  u ∈ tiles (move_lines g d) →
  at_edge d u ∨ ∃ v, v ∈ tiles (move_lines g d) ∧ coords v = toward d u.
Proof.
  unfold move_lines.
  destruct d; simpl is_horizontal; cbv iota.
  - rewrite move_columns_line_of. intros Hu.
    destruct (sweep_packed row col (is_up up) _ _ column_cell g
                ltac:(line_side) ltac:(line_side) ltac:(line_side) u Hu)
      as [Hpos Hall].
    unfold pos, at_edge, toward, BOARD_SIZE in *. simpl in *.
    destruct (decide (row u = 0)) as [?|Hne]; [by left|right].
    destruct (Hall (row u - 1)) as (v & Hv & Hc & Hr); [lia|].
    exists v. split; [done|]. unfold coords. f_equal; lia.
  - rewrite move_columns_line_of. intros Hu.
    destruct (sweep_packed row col (is_up down) _ _ column_cell g
                ltac:(line_side) ltac:(line_side) ltac:(line_side) u Hu)
      as [Hpos Hall].
    unfold pos, at_edge, toward, BOARD_SIZE in *. simpl in *.
    destruct (decide (row u = 3)) as [?|Hne]; [left; lia|right].
    destruct (Hall (4 - 1 - row u - 1)) as (v & Hv & Hc & Hr); [lia|].
    exists v. split; [done|]. unfold coords. f_equal; lia.
  - rewrite move_rows_line_of. intros Hu.
    destruct (sweep_packed col row (is_left left) _ _ row_cell g
                ltac:(line_side) ltac:(line_side) ltac:(line_side) u Hu)
      as [Hpos Hall].
    unfold pos, at_edge, toward, BOARD_SIZE in *. simpl in *.
    destruct (decide (col u = 0)) as [?|Hne]; [by left|right].
    destruct (Hall (col u - 1)) as (v & Hv & Hc & Hr); [lia|].
    exists v. split; [done|]. unfold coords. f_equal; lia.
  - rewrite move_rows_line_of. intros Hu.
    destruct (sweep_packed col row (is_left right) _ _ row_cell g
                ltac:(line_side) ltac:(line_side) ltac:(line_side) u Hu)
      as [Hpos Hall].
    unfold pos, at_edge, toward, BOARD_SIZE in *. simpl in *.
    destruct (decide (col u = 3)) as [?|Hne]; [left; lia|right].
    destruct (Hall (4 - 1 - col u - 1)) as (v & Hv & Hc & Hr); [lia|].
    exists v. split; [done|]. unfold coords. f_equal; lia.
Qed.

Lemma move_lines_shows (ts : list Tile) g d :
  grid_fill ts ∅ = Some g → occupancy ts →
  moved (move_lines g d) = true →
  ∃ u, u ∈ tiles (move_lines g d)
       ∧ (justMerged u = true ∨ coords u ∉ coords <$> ts).
Proof.
  intros Hg Hocc. unfold move_lines.
  destruct (is_horizontal d).
  - rewrite move_rows_line_of.
    apply (sweep_moved_shows col row (is_left d) _ _ row_cell g ts);
      [line_side|line_side|line_side|line_side|apply row_board|done|done].
  - rewrite move_columns_line_of.
    apply (sweep_moved_shows row col (is_up d) _ _ column_cell g ts);
      [line_side|line_side|line_side|line_side|apply column_board|done|done].
Qed.

(** X21 — A move packs every line against the edge it goes to: in the board
    that [moveTiles] returns for a board with at most one tile per cell, each
    tile is on that edge or the next cell on that side holds a tile. *)
Theorem moveTiles_leaves_no_gap (ts : list Tile) (d : Direction) (mr : MoveResult) :
  occupancy ts → moveTiles ts d = Some mr →
  ∀ t, t ∈ tiles mr →
    at_edge d t ∨ ∃ u, u ∈ tiles mr ∧ coords u = toward d t.
Proof.
  intros Hocc Hmove t Ht.
  pose proof (moveTiles_stuck ts d mr Hocc Hmove) as Hstuck.
  destruct (moveTiles_moved _ _ _ Hmove) as (g & Hg & _ & Hyes & Hno).
  destruct (moved mr).
  - destruct (Hyes eq_refl) as [Hp _]. rewrite Hp in Ht.
    destruct (move_lines_packed g d t Ht) as [?|(u & Hu & Hc)]; [by left|right].
    exists u. by rewrite Hp.
  - destruct (Hno eq_refl) as [Heq _]. rewrite Heq in Ht |- *.
    apply list_elem_of_fmap in Ht as (t' & -> & Ht').
    destruct (proj1 Hstuck eq_refl t' Ht') as [He|(u & Hu & Hc & _)].
    + left. by destruct d.
    + right. exists (clear_flags u). split; [by apply list_elem_of_fmap_2|].
      by destruct d.
Qed.

Lemma moveTiles_leaves_no_gap_witness :
  occupancy [mkTile 1 2 0 1 false false; mkTile 2 4 0 3 false false]
  ∧ moveTiles [mkTile 1 2 0 1 false false; mkTile 2 4 0 3 false false] left
    = Some (mkMoveResult [mkTile 1 2 0 0 false false; mkTile 2 4 0 1 false false]
                         true 0)
  ∧ ∀ t, t ∈ [mkTile 1 2 0 0 false false; mkTile 2 4 0 1 false false] →
      at_edge left t
      ∨ ∃ u, u ∈ [mkTile 1 2 0 0 false false; mkTile 2 4 0 1 false false]
             ∧ coords u = toward left t.
Proof.
  assert (occupancy [mkTile 1 2 0 1 false false; mkTile 2 4 0 3 false false]) as Hocc.
  { split; [by repeat constructor|]. apply (bool_decide_unpack _). by vm_compute. }
  assert (moveTiles [mkTile 1 2 0 1 false false; mkTile 2 4 0 3 false false] left
          = Some (mkMoveResult
                    [mkTile 1 2 0 0 false false; mkTile 2 4 0 1 false false] true 0))
    as Hm by reflexivity.
  split; [exact Hocc|]. split; [exact Hm|].
  exact (moveTiles_leaves_no_gap _ _ _ Hocc Hm).
Defined.

(** X22 — [moveTiles] reports a move exactly when the board it returns
    shows one: some returned tile is the result of a merge or stands in a
    cell that was empty before the move. *)
Theorem moveTiles_moved_iff_visible (ts : list Tile) (d : Direction) (mr : MoveResult) :
  occupancy ts → moveTiles ts d = Some mr →
  moved mr = true
  ↔ ∃ u, u ∈ tiles mr ∧ (justMerged u = true ∨ coords u ∉ coords <$> ts).
Proof.
  intros Hocc Hmove.
  destruct (moveTiles_moved _ _ _ Hmove) as (g & Hg & Hm & Hyes & Hno).
  split.
  - intros Ht. destruct (Hyes Ht) as [Hp _]. rewrite Hm in Ht.
    destruct (move_lines_shows (clear_flags <$> ts) g d Hg
                (proj2 (occupancy_clear _) Hocc) Ht) as (u & Hu & Hprop).
    exists u. rewrite Hp. split; [done|]. by rewrite coords_clear_list in Hprop.
  - intros (u & Hu & Hprop). destruct (moved mr); [done|].
    destruct (Hno eq_refl) as [Heq _]. rewrite Heq in Hu.
    apply list_elem_of_fmap in Hu as (t & -> & Ht).
    destruct Hprop as [Hj|Hfree]; [done|].
    destruct Hfree. apply (list_elem_of_fmap_2 coords) in Ht. exact Ht.
Qed.

Lemma moveTiles_moved_iff_visible_witness :
  occupancy [mkTile 1 2 0 1 false false; mkTile 2 4 0 3 false false]
  ∧ moveTiles [mkTile 1 2 0 1 false false; mkTile 2 4 0 3 false false] left
    = Some (mkMoveResult [mkTile 1 2 0 0 false false; mkTile 2 4 0 1 false false]
                         true 0)
  ∧ ∃ u, u ∈ [mkTile 1 2 0 0 false false; mkTile 2 4 0 1 false false]
         ∧ (justMerged u = true
            ∨ coords u ∉ coords <$> [mkTile 1 2 0 1 false false;
                                     mkTile 2 4 0 3 false false]).
Proof.
  assert (occupancy [mkTile 1 2 0 1 false false; mkTile 2 4 0 3 false false]) as Hocc.
  { split; [by repeat constructor|]. apply (bool_decide_unpack _). by vm_compute. }
  assert (moveTiles [mkTile 1 2 0 1 false false; mkTile 2 4 0 3 false false] left
          = Some (mkMoveResult
                    [mkTile 1 2 0 0 false false; mkTile 2 4 0 1 false false] true 0))
    as Hm by reflexivity.
  split; [exact Hocc|]. split; [exact Hm|].
  exact (proj1 (moveTiles_moved_iff_visible _ _ _ Hocc Hm) eq_refl).
Defined.

(** X23 — Spawning at the boundary.  On a board satisfying the occupancy
    invariant [addRandomTile] returns the board as it is and takes no id
    when all 16 cells are taken; otherwise, for a draw within the empty
    cells, it keeps every tile in place and appends one tile flagged new,
    with the next id and value 2 or 4, in a cell that was empty, and the
    new board satisfies the invariant. *)
Theorem addRandomTile_full_or_one_more (ts : list Tile) (counter : Z) (d : Draw) :
  occupancy ts →
  (length ts = 16%nat → addRandomTile ts counter d = Some (ts, counter))
  ∧ ((pick d < 16 - length ts)%nat →
     ∃ k, k ∈ cells ∧ (k ∉ coords <$> ts)
          ∧ addRandomTile ts counter d
            = Some (ts ++ [mkTile (counter + 1) (spawn_value d) k.1 k.2 true false],
                    counter + 1)
          ∧ (spawn_value d = 2 ∨ spawn_value d = 4)
          ∧ occupancy (ts ++ [mkTile (counter + 1) (spawn_value d) k.1 k.2 true false])).
Proof.
  intros Hocc.
  destruct (getEmptyPositions_free ts Hocc) as (es & Hes & _ & Hspec & Hlen).
  unfold addRandomTile. rewrite Hes. split.
  - intros H16. destruct es as [|e es]; [done|]. simpl in Hlen. lia.
  - intros Hpick.
    destruct (lookup_lt_is_Some_2 es (pick d)) as [k Hk]; [lia|].
    destruct es as [|e es]; [done|]. rewrite Hk.
    apply list_elem_of_lookup_2, Hspec in Hk as [Hcell Hfree].
    exists k. do 3 (split; [done|]). split.
    + unfold spawn_value. destruct (small d); [by left|by right].
    + apply (occupancy_snoc ts (spawned counter d k) Hocc);
        by rewrite spawned_cell.
Qed.

Lemma addRandomTile_full_or_one_more_witness :
  occupancy [mkTile 1 2 0 0 false false]
  ∧ ∃ k, addRandomTile [mkTile 1 2 0 0 false false] 1 (mkDraw 0 true)
         = Some ([mkTile 1 2 0 0 false false; mkTile 2 2 k.1 k.2 true false], 2).
Proof.
  assert (occupancy [mkTile 1 2 0 0 false false]) as Hocc.
  { split; [by repeat constructor|]. apply (bool_decide_unpack _). by vm_compute. }
  split; [exact Hocc|].
  destruct (proj2 (addRandomTile_full_or_one_more _ 1 (mkDraw 0 true) Hocc))
    as (k & _ & _ & Hadd & _); [simpl; lia|].
  by exists k.
Defined.

(** ** The order of the input and what the tiles have earned *)

Lemma grid_fill_perm (ts ts' : list Tile) g :
  NoDup (coords <$> ts) → ts ≡ₚ ts' →
  grid_fill ts ∅ = Some g → grid_fill ts' ∅ = Some g.
Proof.
  intros Hnd Hp Hg.
  assert (NoDup (coords <$> ts')) as Hnd' by (by rewrite <- Hp).
  assert (is_Some (grid_fill ts' ∅)) as [g' Hg'].
  { apply grid_fill_total. rewrite <- Hp.
    apply (grid_fill_total ts ∅). by eexists. }
  rewrite Hg'. f_equal. apply map_eq. intros k.
  destruct (g' !! k) as [t|] eqn:E'.
  - destruct (grid_fill_lookup _ _ _ _ _ Hg' E') as [[Hin <-]|Hl];
      [|by rewrite lookup_empty in Hl].
    symmetry. apply (grid_fill_elem ts ∅ g t Hg Hnd). by rewrite Hp.
  - destruct (g !! k) as [t|] eqn:E; [|done].
    destruct (grid_fill_lookup _ _ _ _ _ Hg E) as [[Hin <-]|Hl];
      [|by rewrite lookup_empty in Hl].
    rewrite Hp in Hin.
    rewrite (grid_fill_elem ts' ∅ g' t Hg' Hnd' Hin) in E'. done.
Qed.

(** X24 — The order of the input list does not matter.  On a board with
    at most one tile per cell, a reordering of the list gives the same
    [moved] and [scoreGained], and for a reported move the very same list
    of tiles; for a no-op the input comes back in its own order. *)
Theorem moveTiles_order_independent
    (ts ts' : list Tile) (d : Direction) (mr : MoveResult) :
  occupancy ts → ts ≡ₚ ts' → moveTiles ts d = Some mr →
  ∃ mr', moveTiles ts' d = Some mr'
         ∧ moved mr' = moved mr ∧ scoreGained mr' = scoreGained mr
         ∧ (moved mr = true → tiles mr' = tiles mr)
         ∧ (moved mr = false → tiles mr' = clear_flags <$> ts').
Proof.
  intros Hocc Hp. rewrite !moveTiles_unfold.
  destruct (grid_fill (clear_flags <$> ts) ∅) as [g|] eqn:Hg; [|done].
  rewrite (grid_fill_perm (clear_flags <$> ts) (clear_flags <$> ts') g);
    [|rewrite coords_clear_list; apply Hocc|by apply fmap_Permutation|done].
  destruct (moved (move_lines g d)); intros [= <-]; eexists; (split; [done|]);
    simpl; by repeat split.
Qed.

Lemma moveTiles_order_independent_witness :
  ∃ mr', moveTiles [mkTile 2 4 0 3 false false; mkTile 1 2 0 1 false false] left
         = Some mr'
         ∧ tiles mr' = [mkTile 1 2 0 0 false false; mkTile 2 4 0 1 false false].
Proof.
  assert (occupancy [mkTile 1 2 0 1 false false; mkTile 2 4 0 3 false false]) as Hocc.
  { split; [by repeat constructor|]. apply (bool_decide_unpack _). by vm_compute. }
  destruct (moveTiles_order_independent
              [mkTile 1 2 0 1 false false; mkTile 2 4 0 3 false false]
              [mkTile 2 4 0 3 false false; mkTile 1 2 0 1 false false] left
              (mkMoveResult [mkTile 1 2 0 0 false false; mkTile 2 4 0 1 false false]
                            true 0)
              Hocc (Permutation_swap _ _ _) eq_refl)
    as (mr' & Hm & _ & _ & Ht & _).
  exists mr'. split; [exact Hm|]. exact (Ht eq_refl).
Defined.

Lemma earned_sum_app l k : earned_sum (l ++ k) = earned_sum l + earned_sum k.
Proof. induction l as [|x l IH]; simpl; [done|]. rewrite IH. lia. Qed.

Lemma earned_sum_perm l k : l ≡ₚ k → earned_sum l = earned_sum k.
Proof. induction 1; simpl; lia. Qed.

Lemma earned_sum_clear l : earned_sum (clear_flags <$> l) = earned_sum l.
Proof. induction l as [|x l IH]; simpl; [done|]. f_equal. exact IH. Qed.

Lemma earned_double v : 0 < v → earned (v * 2) = earned v + earned v + v * 2.
Proof.
  intros Hv. unfold earned. rewrite (Z.mul_comm v 2), Z.log2_double by done. lia.
Qed.

Lemma earned_nonneg v : 0 < v → v ≠ 1 → 0 <= earned v.
Proof.
  intros Hv Hne. unfold earned.
  assert (1 <= Z.log2 v) by (apply Z.log2_le_pow2; simpl; lia). nia.
Qed.

(** A collapsed line has earned what its tiles had, and the merges on
    top. *)
Lemma collapsed_earned l out :
  collapsed l out → Forall (λ t, 0 < value t) l →
  earned_sum out = earned_sum l + merged_sum out.
Proof.
  induction 1 as [|pre outs t t' _ IH _ Hv Hj|pre outs t n t' _ IH _ Hn Hv Hj];
    intros Hpos.
  - done.
  - apply Forall_app in Hpos as [Hpos _].
    rewrite !earned_sum_app, merged_sum_app, (IH Hpos). unfold merged_sum. simpl.
    rewrite filter_cons_False, filter_nil by (simpl; congruence).
    simpl. rewrite Hv. lia.
  - apply Forall_app in Hpos as [Hpos [Ht _]%Forall_cons].
    rewrite !earned_sum_app, merged_sum_app, (IH Hpos). unfold merged_sum. simpl.
    rewrite filter_cons_True, filter_nil by done.
    simpl. rewrite Hv, Hn, earned_double by done. lia.
Qed.

Section SweepEarned.
Variables (along across : Tile → Z) (low : bool).
Variable step : Z → Tile → bool → Line → Line.
Variable cmp : Tile → Tile → Z.
Variable cell : Z → Z → Z * Z.
Variable g : gmap (Z * Z) Tile.
Hypothesis Hstep : ∀ idx, step_spec along across low idx (step idx).
Hypothesis Hpos : ∀ k t, g !! k = Some t → 0 < value t.

Lemma sweep_earned :
  earned_sum (tiles (sweep (line_of step cmp) g cell))
  = earned_sum (omap (λ k, g !! k) (keys_of cell indices))
    + merged_sum (tiles (sweep (line_of step cmp) g cell)).
Proof.
  apply (sweep_rule (line_of step cmp) g cell
    (λ seen acc, earned_sum (tiles acc)
                 = earned_sum (omap (λ k, g !! k) (keys_of cell seen))
                   + merged_sum (tiles acc))); [done|].
  intros seen idx acc _ IH. unfold add_line, keys_of in *. simpl tiles.
  rewrite bind_app, omap_app, !earned_sum_app, merged_sum_app, IH.
  rewrite bind_one, <- extract_keys.
  rewrite (collapsed_earned _ _
             (line_of_collapsed along across low step cmp Hstep
                (extract g cell idx) idx)).
  - rewrite (earned_sum_perm _ _ (sort_by_perm cmp (extract g cell idx))). lia.
  - rewrite (sort_by_perm cmp). apply Forall_forall. intros t Ht.
    unfold extract in Ht. apply list_elem_of_omap in Ht as (j & _ & E). eauto.
Qed.
End SweepEarned.

Lemma move_lines_earned (ts : list Tile) g d :
  grid_fill ts ∅ = Some g → occupancy ts → Forall (λ t, 0 < value t) ts →
  earned_sum (tiles (move_lines g d))
  = earned_sum ts + scoreGained (move_lines g d).
Proof.
  intros Hg Hocc Hpos. rewrite move_lines_score_merged.
  assert (∀ k t, g !! k = Some t → 0 < value t) as Hgpos.
  { intros k t E.
    destruct (grid_fill_lookup _ _ _ _ _ Hg E) as [[Hin _]|Hl];
      [|by rewrite lookup_empty in Hl].
    rewrite Forall_forall in Hpos. by apply Hpos. }
  pose proof (grid_read_lines ts g d Hg Hocc) as Hread.
  unfold move_lines in *. destruct (is_horizontal d).
  - rewrite move_rows_line_of.
    rewrite (sweep_earned col row (is_left d) _ (row_cmp d) row_cell g
               (λ r, slideRow_step_spec r d) Hgpos).
    by rewrite (earned_sum_perm _ _ Hread).
  - rewrite move_columns_line_of.
    rewrite (sweep_earned row col (is_up d) _ (column_cmp d) column_cell g
               (λ c, slideColumn_step_spec c d) Hgpos).
    by rewrite (earned_sum_perm _ _ Hread).
Qed.

Lemma moveTiles_earned_sum (ts : list Tile) (d : Direction) (mr : MoveResult) :
  occupancy ts → Forall (λ t, 0 < value t) ts → moveTiles ts d = Some mr →
  earned_sum (tiles mr) = earned_sum ts + scoreGained mr.
Proof.
  intros Hocc Hpos Hmove.
  destruct (moveTiles_moved _ _ _ Hmove) as (g & Hg & _ & Hyes & Hno).
  destruct (moved mr).
  - destruct (Hyes eq_refl) as [Hp ->]. rewrite (earned_sum_perm _ _ Hp).
    rewrite (move_lines_earned (clear_flags <$> ts) g d Hg).
    + by rewrite earned_sum_clear.
    + by apply occupancy_clear.
    + by rewrite Forall_fmap.
  - destruct (Hno eq_refl) as [-> ->]. rewrite earned_sum_clear. lia.
Qed.

(** X25 — What a move pays.  Give every tile of value [v] the worth
    [v * (log2 v - 1)].  On a board with at most one tile per cell and
    positive values the score that [moveTiles] reports is exactly the worth
    gained by the board: worth after = worth before + [scoreGained]. *)
Theorem moveTiles_score_is_worth_gained
    (ts : list Tile) (d : Direction) (mr : MoveResult) :
  occupancy ts → Forall (λ t, 0 < value t) ts → moveTiles ts d = Some mr →
  earned_sum (tiles mr) = earned_sum ts + scoreGained mr.
Proof.
  intros Hocc Hpos Hmove. by apply (moveTiles_earned_sum ts d mr).
Qed.

Lemma moveTiles_score_is_worth_gained_witness :
  earned_sum [mkTile 1 8 2 0 false true; mkTile 3 2 2 1 false false]
  = earned_sum [mkTile 1 4 2 0 false false; mkTile 2 4 2 2 false false;
                mkTile 3 2 2 3 false false] + 8.
Proof.
  assert (occupancy [mkTile 1 4 2 0 false false; mkTile 2 4 2 2 false false;
                     mkTile 3 2 2 3 false false]) as Hocc.
  { split; [by repeat constructor|]. apply (bool_decide_unpack _). by vm_compute. }
  assert (Forall (λ t, 0 < value t)
            [mkTile 1 4 2 0 false false; mkTile 2 4 2 2 false false;
             mkTile 3 2 2 3 false false]) as Hpos
    by (by repeat constructor).
  exact (moveTiles_score_is_worth_gained _ left
           (mkMoveResult [mkTile 1 8 2 0 false true; mkTile 3 2 2 1 false false]
                         true 8)
           Hocc Hpos eq_refl).
Defined.

Lemma earned_spawn d : earned (spawn_value d) = if small d then 0 else 4.
Proof. unfold spawn_value. by destruct (small d). Qed.

Lemma earned_new_board draws ts counter' :
  generateInitialTiles 0 draws = Some (ts, counter') →
  ∃ n : nat, earned_sum ts = 4 * Z.of_nat n.
Proof.
  intros Hgen.
  destruct (generateInitialTiles_spec _ _ _ _ Hgen)
    as (_ & k1 & k2 & _ & _ & _ & ->).
  unfold earned_sum, spawned. simpl. rewrite !earned_spawn.
  destruct (small (draws 0%nat)), (small (draws 1%nat));
    [by exists 0%nat|by exists 1%nat|by exists 1%nat|by exists 2%nat].
Qed.

(** X26 — The score and the board.  In every session that the game can be
    in, the worth of the board, [v * (log2 v - 1)] summed over the tiles,
    is the score plus a multiple of 4 (a spawned 4 is worth 4 and has scored
    nothing): the score never exceeds the worth of the board. *)
Theorem session_score_is_board_worth (s : Session) :
  reachable_session s →
  ∃ n : nat, earned_sum (s_tiles s) = score s + 4 * Z.of_nat n.
Proof.
  induction 1 as [draws s Hi|s d dr s' Hr IH Hm|s draws s' _ _ Hn].
  - unfold initialSession in Hi.
    destruct (generateInitialTiles 0 draws) as [[ts c]|] eqn:E; [|done].
    injection Hi as <-. simpl. by eapply earned_new_board.
  - destruct IH as [n IH].
    pose proof (reachable_session_occupancy s Hr) as Hocc.
    pose proof (reachable_session_positive s Hr) as Hpos.
    apply handleMove_cases in Hm
      as [[_ ->]|(_ & mr & Hmr & [[_ ->]|(_ & w & c & a & Ha & _ & ->)])];
      [by exists n|by exists n|]. simpl.
    pose proof (moveTiles_earned_sum _ _ _ Hocc Hpos Hmr) as Hgain.
    apply addRandomTile_cases in Ha
      as [(_ & -> & _)|(es & choice & _ & _ & -> & _)].
    + exists n. lia.
    + rewrite earned_sum_app. unfold spawned, earned_sum at 2. simpl.
      rewrite earned_spawn. destruct (small dr); [exists n|exists (S n)]; lia.
  - unfold handleNewGame in Hn.
    destruct (generateInitialTiles 0 draws) as [[ts c]|] eqn:E; [|done].
    injection Hn as <-. simpl. by eapply earned_new_board.
Qed.

Lemma session_score_is_board_worth_witness :
  ∃ n : nat, earned_sum (s_tiles sample_session) = score sample_session + 4 * Z.of_nat n.
Proof. exact (session_score_is_board_worth _ sample_session_reachable). Defined.

(** ** Symmetry *)

Lemma insert_by_fmap (f : Tile → Tile) cmpA cmpB x l :
  (∀ a b, cmpB (f a) (f b) = cmpA a b) →
  insert_by cmpB (f x) (f <$> l) = f <$> insert_by cmpA x l.
Proof.
  intros Hcmp. induction l as [|y l IH]; [done|].
  rewrite fmap_cons. simpl. rewrite Hcmp.
  destruct (cmpA x y <=? 0); [done|]. rewrite fmap_cons. f_equal. exact IH.
Qed.

Lemma sort_by_fmap (f : Tile → Tile) cmpA cmpB l :
  (∀ a b, cmpB (f a) (f b) = cmpA a b) →
  sort_by cmpB (f <$> l) = f <$> sort_by cmpA l.
Proof.
  intros Hcmp. induction l as [|x l IH]; [done|].
  rewrite fmap_cons. unfold sort_by in *. simpl. rewrite IH.
  by apply insert_by_fmap.
Qed.

Lemma strict_keys_NoDup (key : Tile → Z) l :
  StronglySorted (λ a b, key a < key b) l → NoDup (key <$> l).
Proof.
  induction 1 as [|x l _ IH Hx]; [constructor|].
  rewrite fmap_cons. constructor; [|done].
  intros (y & Hk & Hy)%list_elem_of_fmap.
  rewrite Forall_forall in Hx. specialize (Hx y Hy). lia.
Qed.

(** Two arrangements of the same tiles with distinct keys sort alike. *)
Lemma sort_by_unique cmp (key : Tile → Z) l l' :
  (∀ a b, cmp a b <= 0 ↔ key a <= key b) →
  NoDup (key <$> l) → l' ≡ₚ l → sort_by cmp l' = sort_by cmp l.
Proof.
  intros Hcmp Hnd Hp.
  apply (StronglySorted_unique_strong (λ a b, key a < key b)).
  - intros; lia.
  - apply (sort_by_strict cmp key Hcmp). by rewrite Hp.
  - by apply (sort_by_strict cmp key Hcmp).
  - by rewrite !(sort_by_perm cmp).
Qed.

Lemma scan_map (f : Tile → Tile) stepA stepB l acc :
  (∀ t, value (f t) = value t) →
  (∀ t m a, stepB (f t) m (map_line f a) = map_line f (stepA t m a)) →
  scan stepB (f <$> l) (map_line f acc) = map_line f (scan stepA l acc).
Proof.
  intros Hv Hs.
  remember (length l) as k eqn:Hk. revert l acc Hk.
  induction (lt_wf k) as [k _ IH]. intros [|t [|n rest]] acc Hk.
  - done.
  - simpl. by rewrite Hs.
  - rewrite !fmap_cons, !scan_cons2, !Hv, !Hs.
    destruct (value n =? value t).
    + apply (IH (length rest)); [subst k; simpl; lia|done].
    + rewrite <- fmap_cons.
      apply (IH (length (n :: rest))); [subst k; simpl; lia|done].
Qed.

Lemma add_line_map (f : Tile → Tile) acc l :
  add_line (map_result f acc) (map_line f l) = map_result f (add_line acc l).
Proof. unfold add_line, map_result. simpl. by rewrite fmap_app. Qed.

Lemma sweep_map (f : Tile → Tile) lineA lineB gA gB cellA cellB :
  (∀ idx, idx ∈ indices →
     lineB (extract gB cellB idx) idx = map_line f (lineA (extract gA cellA idx) idx)) →
  sweep lineB gB cellB = map_result f (sweep lineA gA cellA).
Proof.
  intros Hline. unfold sweep.
  change move_start with (map_result f move_start) at 1.
  generalize move_start.
  assert (∀ i, i ∈ indices → i ∈ indices) as Hin by done. revert Hin.
  generalize indices at 1 3 4. intros todo.
  induction todo as [|i todo IH]; intros Hin acc; [done|].
  simpl. rewrite Hline by (apply Hin; by left). rewrite add_line_map.
  apply IH. intros j Hj. apply Hin. by right.
Qed.

Lemma grid_fill_map (f : Tile → Tile) (kf : Z * Z → Z * Z)
    (ts : list Tile) (gA0 gA gB0 : gmap (Z * Z) Tile) :
  (∀ t, coords (f t) = kf (coords t)) → (∀ k k', kf k = kf k' → k = k') →
  Forall (λ t, in_board (row (f t)) = true) ts →
  grid_fill ts gA0 = Some gA →
  (∀ k, gB0 !! kf k = f <$> gA0 !! k) →
  ∃ gB, grid_fill (f <$> ts) gB0 = Some gB ∧ ∀ k, gB !! kf k = f <$> gA !! k.
Proof.
  intros Hc Hinj. revert gA0 gB0.
  induction ts as [|t ts IH]; intros gA0 gB0 Hrows HgA Hrel.
  - simpl in HgA. injection HgA as <-. by exists gB0.
  - apply Forall_cons in Hrows as [Hr Hrows].
    rewrite grid_fill_cons in HgA. destruct (in_board (row t)); [|done].
    rewrite fmap_cons, grid_fill_cons, Hr.
    apply (IH _ _ Hrows HgA). intros k. rewrite Hc.
    destruct (decide (k = coords t)) as [->|Hne].
    + by rewrite !lookup_insert_eq.
    + rewrite !lookup_insert_ne; [done|congruence|].
      intros Heq. apply Hinj in Heq. congruence.
Qed.

Lemma omap_fmap_in {A B} (f : A → option B) (h : Z → A) (l : list Z) :
  omap f (h <$> l) = omap (λ j, f (h j)) l.
Proof.
  induction l as [|x l IH]; [done|]. rewrite fmap_cons. simpl.
  destruct (f (h x)); simpl; [f_equal|]; exact IH.
Qed.

Section Symmetry.
Variables (f : Tile → Tile) (kf : Z * Z → Z * Z) (rf : Z → Z).
Variables (along across : Tile → Z) (low : bool).
Variables stepA stepB : Z → Tile → bool → Line → Line.
Variables cmpA cmpB : Tile → Tile → Z.
Variables cellA cellB : Z → Z → Z * Z.
Variables gA gB : gmap (Z * Z) Tile.
Hypothesis Hvalue : ∀ t, value (f t) = value t.
Hypothesis HstepA : ∀ idx, step_spec along across low idx (stepA idx).
Hypothesis HcmpA : ∀ a b, cmpA a b <= 0 ↔ pos low along a <= pos low along b.
Hypothesis HcellA : ∀ t, coords t = cellA (across t) (along t).
Hypothesis HinjA : ∀ i j i' j', cellA i j = cellA i' j' → i = i' ∧ j = j'.
Hypothesis Hcells : ∀ idx j, cellB idx j = kf (cellA idx (rf j)).
Hypothesis Hrf : rf <$> indices ≡ₚ indices.
Hypothesis Hcmp : ∀ a b, cmpB (f a) (f b) = cmpA a b.
Hypothesis Hsteps : ∀ idx t m a,
  stepB idx (f t) m (map_line f a) = map_line f (stepA idx t m a).
Hypothesis HgA : grid_ok gA.
Hypothesis Hgrids : ∀ k, gB !! kf k = f <$> gA !! k.

Lemma extract_symmetry idx :
  ∃ l', l' ≡ₚ extract gA cellA idx ∧ extract gB cellB idx = f <$> l'.
Proof.
  exists (omap (λ k, gA !! k) (cellA idx <$> (rf <$> indices))). split.
  - rewrite Hrf. by rewrite <- extract_keys.
  - unfold extract. rewrite list_fmap_omap, !omap_fmap_in.
    apply list_omap_ext, Forall2_same_length_lookup_2; [done|].
    intros i x y Hx Hy. rewrite Hx in Hy. injection Hy as <-.
    by rewrite Hcells, Hgrids.
Qed.

Lemma line_symmetry idx :
  line_of stepB cmpB (extract gB cellB idx) idx
  = map_line f (line_of stepA cmpA (extract gA cellA idx) idx).
Proof.
  destruct (extract_symmetry idx) as (l' & Hp & ->).
  assert (NoDup (pos low along <$> extract gA cellA idx)) as Hnd.
  { rewrite <- (sort_by_perm cmpA). apply strict_keys_NoDup.
    by apply (extract_ordered along across low stepA cmpA cellA gA
                HstepA HcmpA HcellA HinjA idx). }
  unfold line_of. rewrite (sort_by_fmap f cmpA cmpB) by done.
  rewrite (sort_by_unique cmpA (pos low along) (extract gA cellA idx) l' HcmpA Hnd Hp).
  by apply (scan_map f _ _ _ line_start).
Qed.

Lemma sweep_symmetry :
  sweep (line_of stepB cmpB) gB cellB
  = map_result f (sweep (line_of stepA cmpA) gA cellA).
Proof. apply sweep_map. intros idx _. apply line_symmetry. Qed.
End Symmetry.

Lemma move_rows_mirror d gA gB :
  is_horizontal d = true → grid_ok gA →
  (∀ k, gB !! (k.1, BOARD_SIZE - 1 - k.2) = mirror <$> gA !! k) →
  move_rows gB (opposite d) = map_result mirror (move_rows gA d).
Proof.
  intros Hd HgA Hrel. rewrite !move_rows_line_of.
  apply (sweep_symmetry mirror (λ k, (k.1, BOARD_SIZE - 1 - k.2))
           (λ j, BOARD_SIZE - 1 - j) col row (is_left d)
           (λ r, slideRow_step r d) (λ r, slideRow_step r (opposite d))
           (row_cmp d) (row_cmp (opposite d)) row_cell row_cell gA gB);
    try done.
  - intros idx. apply slideRow_step_spec.
  - apply row_cmp_key.
  - apply row_cell_inj.
  - intros idx j. unfold row_cell, BOARD_SIZE. simpl. f_equal. lia.
  - apply (bool_decide_unpack _). by vm_compute.
  - intros a b. unfold row_cmp, mirror, BOARD_SIZE.
    destruct d; try discriminate; simpl; lia.
  - intros idx t m a. unfold slideRow_step, map_line, mirror, BOARD_SIZE.
    destruct d; try discriminate; simpl; rewrite fmap_app; simpl.
    + f_equal. do 2 f_equal.
      destruct (Z.eqb_spec (4 - 1 - col t) (4 - 1 - targetIndex a)),
        (Z.eqb_spec (col t) (targetIndex a)); (done || lia).
    + f_equal.
      * do 2 f_equal. unfold mirror, BOARD_SIZE. simpl. f_equal. lia.
      * do 2 f_equal.
        destruct (Z.eqb_spec (4 - 1 - col t) (targetIndex a)),
          (Z.eqb_spec (col t) (4 - 1 - targetIndex a)); (done || lia).
Qed.

Lemma move_lines_transpose d gA gB :
  grid_ok gA → (∀ k, gB !! (k.2, k.1) = transpose <$> gA !! k) →
  move_lines gB (turn d) = map_result transpose (move_lines gA d).
Proof.
  intros HgA Hrel. unfold move_lines.
  destruct (is_horizontal d) eqn:Hd.
  - replace (is_horizontal (turn d)) with false by (by destruct d).
    rewrite move_rows_line_of, move_columns_line_of.
    apply (sweep_symmetry transpose (λ k, (k.2, k.1)) (λ j, j)
             col row (is_left d)
             (λ r, slideRow_step r d) (λ c, slideColumn_step c (turn d))
             (row_cmp d) (column_cmp (turn d)) row_cell column_cell gA gB);
      try done.
    + intros idx. apply slideRow_step_spec.
    + apply row_cmp_key.
    + apply row_cell_inj.
    + intros a b. unfold row_cmp, column_cmp. by destruct d.
    + intros idx t m a. unfold slideRow_step, slideColumn_step, map_line.
      simpl. rewrite fmap_app. by destruct d.
  - replace (is_horizontal (turn d)) with true by (by destruct d).
    rewrite move_rows_line_of, move_columns_line_of.
    apply (sweep_symmetry transpose (λ k, (k.2, k.1)) (λ j, j)
             row col (is_up d)
             (λ c, slideColumn_step c d) (λ r, slideRow_step r (turn d))
             (column_cmp d) (row_cmp (turn d)) column_cell row_cell gA gB);
      try done.
    + intros idx. apply slideColumn_step_spec.
    + apply column_cmp_key.
    + apply column_cell_inj.
    + intros a b. unfold row_cmp, column_cmp. by destruct d.
    + intros idx t m a. unfold slideRow_step, slideColumn_step, map_line.
      simpl. rewrite fmap_app. by destruct d.
Qed.

Lemma moveTiles_map (f : Tile → Tile) (kf : Z * Z → Z * Z)
    (ts : list Tile) (dA dB : Direction) (mr : MoveResult) :
  (∀ t, f (clear_flags t) = clear_flags (f t)) →
  (∀ t, coords (f t) = kf (coords t)) → (∀ k k', kf k = kf k' → k = k') →
  Forall (λ t, in_board (row (f t)) = true) ts →
  (∀ gA gB, grid_ok gA → (∀ k, gB !! kf k = f <$> gA !! k) →
     move_lines gB dB = map_result f (move_lines gA dA)) →
  moveTiles ts dA = Some mr →
  ∃ mr', moveTiles (f <$> ts) dB = Some mr'
         ∧ moved mr' = moved mr ∧ scoreGained mr' = scoreGained mr
         ∧ tiles mr' ≡ₚ f <$> tiles mr.
Proof.
  intros Hclear Hc Hinj Hrows Hlines. rewrite !moveTiles_unfold.
  destruct (grid_fill (clear_flags <$> ts) ∅) as [gA|] eqn:HgA; [|done].
  assert (clear_flags <$> (f <$> ts) = f <$> (clear_flags <$> ts)) as ->.
  { rewrite <- !list_fmap_compose. apply list_fmap_ext. intros _ t _. simpl.
    by rewrite Hclear. }
  destruct (grid_fill_map f kf (clear_flags <$> ts) ∅ gA ∅ Hc Hinj) as (gB & -> & Hrel).
  { rewrite Forall_fmap. eapply Forall_impl; [exact Hrows|]. simpl.
    intros t Ht. by rewrite Hclear. }
  { done. }
  { intros k. by rewrite !lookup_empty. }
  rewrite (Hlines gA gB (grid_fill_ok _ _ HgA) Hrel). simpl.
  destruct (moved (move_lines gA dA)); intros [= <-]; eexists; (split; [done|]);
    simpl; repeat split; try done.
  by rewrite !(sort_by_perm canonical).
Qed.

(** X27 — Left and right are mirror images.  Reversing the columns of a
    board and moving the opposite way gives the mirror image of the move:
    same [moved], same [scoreGained], and the mirrored tiles (ids, values
    and flags kept) up to the order of the list.  This holds for every
    board on which [moveTiles] returns. *)
Theorem moveTiles_mirror (ts : list Tile) (d : Direction) (mr : MoveResult) :
  is_horizontal d = true → moveTiles ts d = Some mr →
  ∃ mr', moveTiles (mirror <$> ts) (opposite d) = Some mr'
         ∧ moved mr' = moved mr ∧ scoreGained mr' = scoreGained mr
         ∧ tiles mr' ≡ₚ mirror <$> tiles mr.
Proof.
  intros Hd Hmove.
  apply (moveTiles_map mirror (λ k, (k.1, BOARD_SIZE - 1 - k.2)) ts d (opposite d) mr);
    try done.
  - intros [r c] [r' c'] [= -> ?]. f_equal. lia.
  - apply (moveTiles_total ts d). by eexists.
  - intros gA gB HgA Hrel. unfold move_lines. rewrite Hd.
    replace (is_horizontal (opposite d)) with true by (by destruct d).
    by apply move_rows_mirror.
Qed.

Lemma moveTiles_mirror_witness :
  ∃ mr', moveTiles [mkTile 1 2 0 2 false false; mkTile 2 4 0 0 false false] right
         = Some mr'
         ∧ moved mr' = true ∧ scoreGained mr' = 0
         ∧ tiles mr' ≡ₚ [mkTile 1 2 0 3 false false; mkTile 2 4 0 2 false false].
Proof.
  exact (moveTiles_mirror
           [mkTile 1 2 0 1 false false; mkTile 2 4 0 3 false false] left
           (mkMoveResult [mkTile 1 2 0 0 false false; mkTile 2 4 0 1 false false]
                         true 0)
           eq_refl eq_refl).
Defined.

(** X28 — Rows and columns are treated alike.  Exchanging rows and columns
    of a board with at most one tile per cell and moving in the exchanged
    direction (up for left, down for right, and back) gives the exchanged
    result: same [moved], same [scoreGained], and the transposed tiles up
    to the order of the list.  So [slideColumn] does to a column what
    [slideRow] does to a row. *)
Theorem moveTiles_transpose (ts : list Tile) (d : Direction) (mr : MoveResult) :
  occupancy ts → moveTiles ts d = Some mr →
  ∃ mr', moveTiles (transpose <$> ts) (turn d) = Some mr'
         ∧ moved mr' = moved mr ∧ scoreGained mr' = scoreGained mr
         ∧ tiles mr' ≡ₚ transpose <$> tiles mr.
Proof.
  intros [Hin _] Hmove.
  apply (moveTiles_map transpose (λ k, (k.2, k.1)) ts d (turn d) mr); try done.
  - by intros [r c] [r' c'] [= -> ->].
  - eapply Forall_impl; [exact Hin|]. simpl. tauto.
  - intros gA gB HgA Hrel. by apply move_lines_transpose.
Qed.

Lemma moveTiles_transpose_witness :
  ∃ mr', moveTiles [mkTile 1 2 1 0 false false; mkTile 2 4 3 0 false false] up
         = Some mr'
         ∧ moved mr' = true ∧ scoreGained mr' = 0
         ∧ tiles mr' ≡ₚ [mkTile 1 2 0 0 false false; mkTile 2 4 1 0 false false].
Proof.
  assert (occupancy [mkTile 1 2 0 1 false false; mkTile 2 4 0 3 false false]) as Hocc.
  { split; [by repeat constructor|]. apply (bool_decide_unpack _). by vm_compute. }
  exact (moveTiles_transpose
           [mkTile 1 2 0 1 false false; mkTile 2 4 0 3 false false] left
           (mkMoveResult [mkTile 1 2 0 0 false false; mkTile 2 4 0 1 false false]
                         true 0)
           Hocc eq_refl).
Defined.

(** * The merge step, the spawn after a move and the survivor of a merge *)

Section MergeStep.
Variables (along across : Tile → Z) (low : bool) (idx : Z).
Variable step : Tile → bool → Line → Line.
Hypothesis Hstep : step_spec along across low idx step.

(** A scan only appends to the tiles emitted so far. *)
Lemma scan_extends l acc :
  ∃ out, line_tiles (scan step l acc) = line_tiles acc ++ out
         ∧ (id <$> out) `sublist_of` (id <$> l).
Proof.
  cut (∃ pre o, l = pre ++ []
         ∧ line_tiles (scan step l acc) = line_tiles acc ++ o
         ∧ (id <$> o) `sublist_of` (id <$> pre)).
  { intros (pre & o & E & ? & ?). rewrite app_nil_r in E. subst pre. by exists o. }
  apply (scan_rule step (λ k a, ∃ pre o, l = pre ++ k
           ∧ line_tiles a = line_tiles acc ++ o
           ∧ (id <$> o) `sublist_of` (id <$> pre))).
  - intros t a (p & o & -> & Ha & Hsub).
    destruct (step_out _ _ _ _ _ Hstep t false a) as (t' & -> & Hi & _).
    exists (p ++ [t]), (o ++ [t']). split; [by rewrite app_nil_r|].
    rewrite Ha, app_assoc. split; [done|]. rewrite !fmap_app.
    apply sublist_app; [done|]. simpl. by rewrite Hi.
  - intros t n rest a (p & o & -> & Ha & Hsub) _.
    destruct (step_out _ _ _ _ _ Hstep t true a) as (t' & -> & Hi & _).
    exists (p ++ [t; n]), (o ++ [t']). split; [by rewrite <- app_assoc|].
    rewrite Ha, app_assoc. split; [done|]. rewrite !fmap_app.
    apply sublist_app; [done|]. simpl. rewrite Hi.
    apply sublist_skip, sublist_cons, sublist_nil_l.
  - intros t n rest a (p & o & -> & Ha & Hsub) _.
    destruct (step_out _ _ _ _ _ Hstep t false a) as (t' & -> & Hi & _).
    exists (p ++ [t]), (o ++ [t']). split; [by rewrite <- app_assoc|].
    rewrite Ha, app_assoc. split; [done|]. rewrite !fmap_app.
    apply sublist_app; [done|]. simpl. by rewrite Hi.
  - exists [], []. split; [done|]. by rewrite app_nil_r.
Qed.

Lemma scan_moved_mono l acc :
  line_moved acc = true → line_moved (scan step l acc) = true.
Proof.
  intros Hm.
  apply (scan_rule step (λ _ a, line_moved a = true)); [| | |done].
  - intros t a Ha. by rewrite (step_moved _ _ _ _ _ Hstep), Ha.
  - intros t n rest a Ha _. by rewrite (step_moved _ _ _ _ _ Hstep), Ha.
  - intros t n rest a Ha _. by rewrite (step_moved _ _ _ _ _ Hstep), Ha.
Qed.

(** Where the scan stands, the tiles before that point are dealt with and
    the next slot is the number of tiles emitted. *)
Lemma scan_stands sorted k :
  stands_at sorted k →
  ∃ acc p, scan step sorted line_start = scan step k acc
           ∧ sorted = p ++ k
           ∧ (id <$> line_tiles acc) `sublist_of` (id <$> p)
           ∧ targetIndex acc = Z.of_nat (length (line_tiles acc)).
Proof.
  induction 1 as [|t n rest _ IH Hv|t rest _ IH Hv].
  - exists line_start, []. by repeat split.
  - destruct IH as (acc & p & Hscan & -> & Hsub & Hti).
    destruct (step_out _ _ _ _ _ Hstep t true acc) as (t' & Ht' & Hi & _).
    exists (step t true acc), (p ++ [t; n]). split; [|split; [|split]].
    + by rewrite Hscan, scan_cons2, Hv, Z.eqb_refl.
    + by rewrite <- app_assoc.
    + rewrite Ht', !fmap_app. apply sublist_app; [done|]. simpl. rewrite Hi.
      apply sublist_skip, sublist_cons, sublist_nil_l.
    + rewrite (step_index _ _ _ _ _ Hstep), Ht', length_app, Hti. simpl. lia.
  - destruct IH as (acc & p & Hscan & -> & Hsub & Hti).
    destruct (step_out _ _ _ _ _ Hstep t false acc) as (t' & Ht' & Hi & _).
    exists (step t false acc), (p ++ [t]). split; [|split; [|split]].
    + rewrite Hscan. destruct rest as [|n rest']; [done|].
      rewrite scan_cons2.
      destruct (Z.eqb_spec (value n) (value t)) as [Heq|_]; [|done].
      by destruct (Hv n rest' eq_refl).
    + by rewrite <- app_assoc.
    + rewrite Ht', !fmap_app. apply sublist_app; [done|]. simpl. by rewrite Hi.
    + rewrite (step_index _ _ _ _ _ Hstep), Ht', length_app, Hti. simpl. lia.
Qed.

(** The merge step, seen in the result of the line. *)
Lemma merge_step_result sorted tile nextTile rest :
  stands_at sorted (tile :: nextTile :: rest) → value nextTile = value tile →
  ∃ before m after,
    line_tiles (scan step sorted line_start) = before ++ m :: after
    ∧ (id m = id tile ∧ value m = value tile * 2 ∧ justMerged m = true
       ∧ isNew m = isNew tile
       ∧ along m = target low (Z.of_nat (length before)) ∧ across m = idx)
    ∧ line_moved (scan step sorted line_start) = true
    ∧ line_score (scan step sorted line_start)
      = merged_sum before + value tile * 2 + merged_sum after
    ∧ (NoDup (id <$> sorted) →
       id nextTile ∉ id <$> line_tiles (scan step sorted line_start)).
Proof.
  intros Hst Hv.
  destruct (scan_stands _ _ Hst) as (acc & p & Hscan & Hp & Hsub & Hti).
  destruct (step_out _ _ _ _ _ Hstep tile true acc)
    as (m & Hm & Hi & Hval & Hj & Hn & Hal & Hac).
  assert (scan step sorted line_start = scan step rest (step tile true acc)) as Hres
    by (by rewrite Hscan, scan_cons2, Hv, Z.eqb_refl).
  destruct (scan_extends rest (step tile true acc)) as (after & Hout & Hsub').
  rewrite Hm, <- app_assoc in Hout. simpl in Hout.
  pose proof (scan_score_merged along across low idx step Hstep sorted line_start)
    as Hscore.
  rewrite Hres in *. exists (line_tiles acc), m, after.
  split; [done|]. split; [by rewrite Hal, Hti|]. split; [|split].
  - apply scan_moved_mono. rewrite (step_moved _ _ _ _ _ Hstep).
    by destruct (line_moved acc).
  - rewrite Hout, merged_sum_app in Hscore. simpl in Hscore.
    unfold merged_sum at 2 in Hscore.
    rewrite filter_cons_True in Hscore by done.
    simpl in Hscore. fold (merged_sum after) in Hscore.
    change (merged_sum []) with 0 in Hscore. lia.
  - intros Hnd. rewrite Hp, fmap_app in Hnd.
    apply NoDup_app in Hnd as (_ & Hcross & Hnd).
    rewrite !fmap_cons in Hnd, Hcross.
    apply NoDup_cons in Hnd as [Htile Hnd]. apply NoDup_cons in Hnd as [Hnext _].
    rewrite Hout, fmap_app, fmap_cons, elem_of_app, elem_of_cons.
    intros [Hin|[Heq|Hin]].
    + apply (Hcross (id nextTile)); [by eapply elem_of_sublist|].
      right. by left.
    + apply Htile. rewrite <- Hi, <- Heq. by left.
    + apply Hnext. by eapply elem_of_sublist.
Qed.
End MergeStep.

Lemma slideRow_sorted_perm d l : slideRow_sorted d l ≡ₚ l.
Proof. unfold slideRow_sorted. destruct (is_left d); apply sort_by_perm. Qed.

Lemma slideColumn_sorted_perm d l : slideColumn_sorted d l ≡ₚ l.
Proof. unfold slideColumn_sorted. destruct (is_up d); apply sort_by_perm. Qed.

(** C1 — Line collapse, merge step.  Take any line given to [slideRow] or
    [slideColumn] and any point of its scan at which the current tile is
    followed, in sorted order, by a tile of the same value.  Then the
    result of the line contains the current tile with its value doubled and
    [justMerged] set, at the slot that follows the tiles emitted before it;
    the score of the line is the sum of the doubled values of its merges,
    this one among them; the line reports a move; and the following tile is
    consumed: when the ids of the line are distinct its id is absent from
    the result.  The iteration itself emits that tile, adds the doubled
    value to the score and resumes after the successor.  In particular
    [moveTiles] to the left on two tiles of value 2 at (0,0) and (0,1)
    returns the single tile of value 4 at (0,0) with [justMerged],
    [moved = true] and [scoreGained = 4]. *)
Theorem line_collapse_merge_step
    (tile nextTile : Tile) (rest : list Tile)
    (Hsame : value nextTile = value tile) :
  (∀ rowTiles idx d,
     stands_at (slideRow_sorted d rowTiles) (tile :: nextTile :: rest) →
     ∃ before after,
       line_tiles (slideRow rowTiles idx d)
       = before ++ mkTile (id tile) (value tile * 2) idx
                     (target (is_left d) (Z.of_nat (length before)))
                     (isNew tile) true :: after
       ∧ line_moved (slideRow rowTiles idx d) = true
       ∧ line_score (slideRow rowTiles idx d)
         = merged_sum before + value tile * 2 + merged_sum after
       ∧ (NoDup (id <$> rowTiles) →
          id nextTile ∉ id <$> line_tiles (slideRow rowTiles idx d)))
  ∧ (∀ columnTiles idx d,
       stands_at (slideColumn_sorted d columnTiles) (tile :: nextTile :: rest) →
       ∃ before after,
         line_tiles (slideColumn columnTiles idx d)
         = before ++ mkTile (id tile) (value tile * 2)
                       (target (is_up d) (Z.of_nat (length before))) idx
                       (isNew tile) true :: after
         ∧ line_moved (slideColumn columnTiles idx d) = true
         ∧ line_score (slideColumn columnTiles idx d)
           = merged_sum before + value tile * 2 + merged_sum after
         ∧ (NoDup (id <$> columnTiles) →
            id nextTile ∉ id <$> line_tiles (slideColumn columnTiles idx d)))
  ∧ (∀ idx d acc,
       slideRow_loop idx d (tile :: nextTile :: rest) acc
       = slideRow_loop idx d rest
           (mkLine (line_tiles acc
                      ++ [mkTile (id tile) (value tile * 2) idx
                            (target (is_left d) (targetIndex acc)) (isNew tile) true])
                   true (line_score acc + value tile * 2) (targetIndex acc + 1))
       ∧ slideColumn_loop idx d (tile :: nextTile :: rest) acc
         = slideColumn_loop idx d rest
             (mkLine (line_tiles acc
                        ++ [mkTile (id tile) (value tile * 2)
                              (target (is_up d) (targetIndex acc)) idx
                              (isNew tile) true])
                     true (line_score acc + value tile * 2) (targetIndex acc + 1)))
  ∧ ∀ id1 id2 new1 new2 merged1 merged2,
      moveTiles [mkTile id1 2 0 0 new1 merged1; mkTile id2 2 0 1 new2 merged2] left
      = Some (mkMoveResult [mkTile id1 4 0 0 false true] true 4).
Proof.
  split; [|split; [|split]].
  - intros rowTiles idx d Hst.
    destruct (merge_step_result col row (is_left d) idx (slideRow_step idx d)
                (slideRow_step_spec idx d) _ _ _ _ Hst Hsame)
      as (before & m & after & Hout & (Hi & Hv & Hj & Hn & Hal & Hac)
          & Hmoved & Hscore & Habsent).
    unfold slideRow. rewrite slideRow_loop_scan.
    exists before, after. split; [|split; [done|split; [done|]]].
    + rewrite Hout. destruct m. simpl in *. by subst.
    + intros Hnd. apply Habsent. by rewrite slideRow_sorted_perm.
  - intros columnTiles idx d Hst.
    destruct (merge_step_result row col (is_up d) idx (slideColumn_step idx d)
                (slideColumn_step_spec idx d) _ _ _ _ Hst Hsame)
      as (before & m & after & Hout & (Hi & Hv & Hj & Hn & Hal & Hac)
          & Hmoved & Hscore & Habsent).
    unfold slideColumn. rewrite slideColumn_loop_scan.
    exists before, after. split; [|split; [done|split; [done|]]].
    + rewrite Hout. destruct m. simpl in *. by subst.
    + intros Hnd. apply Habsent. by rewrite slideColumn_sorted_perm.
  - intros idx d acc. split.
    + rewrite slideRow_loop_cons2, Hsame, Z.eqb_refl.
      unfold slideRow_step, target. simpl. by rewrite orb_true_r.
    + rewrite slideColumn_loop_cons2, Hsame, Z.eqb_refl.
      unfold slideColumn_step, target. simpl. by rewrite orb_true_r.
  - intros. by vm_compute.
Qed.

Lemma line_collapse_merge_step_witness :
  value (mkTile 3 2 0 3 false false) = value (mkTile 2 2 0 2 false false)
  ∧ stands_at
      (slideRow_sorted left
         [mkTile 3 2 0 3 false false; mkTile 1 8 0 0 false false;
          mkTile 2 2 0 2 false false])
      [mkTile 2 2 0 2 false false; mkTile 3 2 0 3 false false]
  ∧ ∃ before after,
      line_tiles (slideRow [mkTile 3 2 0 3 false false; mkTile 1 8 0 0 false false;
                            mkTile 2 2 0 2 false false] 0 left)
      = before ++ mkTile 2 4 0 (target true (Z.of_nat (length before))) false true
                  :: after
      ∧ line_moved (slideRow [mkTile 3 2 0 3 false false; mkTile 1 8 0 0 false false;
                              mkTile 2 2 0 2 false false] 0 left) = true
      ∧ line_score (slideRow [mkTile 3 2 0 3 false false; mkTile 1 8 0 0 false false;
                              mkTile 2 2 0 2 false false] 0 left)
        = merged_sum before + 2 * 2 + merged_sum after.
Proof.
  assert (value (mkTile 3 2 0 3 false false) = value (mkTile 2 2 0 2 false false))
    as Hsame by reflexivity.
  assert (stands_at
            (slideRow_sorted left
               [mkTile 3 2 0 3 false false; mkTile 1 8 0 0 false false;
                mkTile 2 2 0 2 false false])
            [mkTile 2 2 0 2 false false; mkTile 3 2 0 3 false false]) as Hst.
  { apply (stands_after_keep _ (mkTile 1 8 0 0 false false)).
    - exact (stands_first _).
    - intros n rest' [= <- _]. simpl. lia. }
  split; [exact Hsame|]. split; [exact Hst|].
  destruct (proj1 (line_collapse_merge_step _ _ [] Hsame) _ 0 left Hst)
    as (before & after & Hout & Hmoved & Hscore & _).
  by exists before, after.
Defined.

(** C7 — Spawn precondition safety.  After a move that [moveTiles] reports
    as made on a board satisfying the occupancy invariant, the returned
    board has fewer than 16 tiles and a cell of the board that holds none.
    [getEmptyPositions] returns exactly these cells, a non-empty list, so
    [addRandomTile] never takes its branch for a full board: for any draw
    in range it appends a new tile, and whenever it returns the board has
    one tile more and an id was taken. *)
Theorem spawn_precondition_safety (ts : list Tile) (d : Direction) (mr : MoveResult)
    (Hocc : occupancy ts) (Hmove : moveTiles ts d = Some mr)
    (Hmoved : moved mr = true) :
  (length (tiles mr) < 16)%nat
  ∧ (∃ k, k ∈ cells ∧ k ∉ coords <$> tiles mr)
  ∧ ∃ es, getEmptyPositions (tiles mr) = Some es ∧ es ≠ []
        ∧ (∀ k, k ∈ es ↔ k ∈ cells ∧ k ∉ coords <$> tiles mr)
        ∧ (length es + length (tiles mr) = 16)%nat
        ∧ (∀ counter dr, (pick dr < length es)%nat →
            ∃ choice, es !! pick dr = Some choice
              ∧ addRandomTile (tiles mr) counter dr
                = Some (tiles mr ++ [spawned counter dr choice], counter + 1))
        ∧ (∀ counter dr board counter',
            addRandomTile (tiles mr) counter dr = Some (board, counter') →
            length board = S (length (tiles mr)) ∧ counter' = counter + 1).
Proof.
  pose proof (moveTiles_occupancy ts d mr Hocc Hmove) as Hocc'.
  pose proof (moveTiles_room ts d mr Hmove Hmoved) as Hlen.
  destruct (getEmptyPositions_free (tiles mr) Hocc')
    as (es & Hes & _ & Hspec & Hsum).
  assert (es ≠ []) as Hne by (intros ->; simpl in Hsum; lia).
  split; [done|]. split.
  { destruct es as [|k es]; [done|]. exists k. apply Hspec. by left. }
  exists es. do 4 (split; [done|]). split.
  - intros counter dr Hpick.
    destruct (lookup_lt_is_Some_2 es (pick dr) Hpick) as [choice Hc].
    exists choice. split; [done|]. unfold addRandomTile. rewrite Hes.
    destruct es as [|e es]; [done|]. by rewrite Hc.
  - intros counter dr board counter' Hadd.
    apply addRandomTile_cases in Hadd
      as [(Hnil & _)|(es' & choice & _ & _ & -> & ->)].
    + rewrite Hes in Hnil. by injection Hnil as ->.
    + rewrite length_app. simpl. split; [lia|done].
Qed.

Lemma spawn_precondition_safety_witness :
  occupancy [mkTile 1 2 0 3 false false; mkTile 2 2 1 1 false false]
  ∧ moveTiles [mkTile 1 2 0 3 false false; mkTile 2 2 1 1 false false] left
    = Some (mkMoveResult [mkTile 1 2 0 0 false false; mkTile 2 2 1 0 false false]
                         true 0)
  ∧ (∃ k, k ∈ cells
          ∧ k ∉ coords <$> [mkTile 1 2 0 0 false false; mkTile 2 2 1 0 false false])
  ∧ ∃ es, getEmptyPositions [mkTile 1 2 0 0 false false; mkTile 2 2 1 0 false false]
          = Some es ∧ es ≠ [] ∧ (length es + 2 = 16)%nat.
Proof.
  assert (occupancy [mkTile 1 2 0 3 false false; mkTile 2 2 1 1 false false]) as Hocc.
  { split; [by repeat constructor|]. apply (bool_decide_unpack _). by vm_compute. }
  assert (moveTiles [mkTile 1 2 0 3 false false; mkTile 2 2 1 1 false false] left
          = Some (mkMoveResult
                    [mkTile 1 2 0 0 false false; mkTile 2 2 1 0 false false] true 0))
    as Hmove by reflexivity.
  split; [exact Hocc|]. split; [exact Hmove|].
  destruct (spawn_precondition_safety _ left _ Hocc Hmove eq_refl)
    as (_ & Hcell & es & Hes & Hne & _ & Hsum & _).
  split; [exact Hcell|]. exists es. by repeat split.
Defined.

Lemma sorted_neighbours (key : Tile → Z) pre t n post :
  StronglySorted (λ a b, key a <= key b) (pre ++ t :: n :: post) →
  key t <= key n
  ∧ ∀ x, x ∈ pre ++ t :: n :: post → key x <= key t ∨ key n <= key x.
Proof.
  intros Hs. apply StronglySorted_app in Hs as (Hcross & _ & Hs).
  apply StronglySorted_inv in Hs as [Hs Ht].
  apply StronglySorted_inv in Hs as [_ Hn].
  rewrite Forall_forall in Ht, Hn.
  split; [apply Ht; by left|].
  intros x [Hx|[->|[->|Hx]%elem_of_cons]%elem_of_cons]%elem_of_app.
  - left. apply Hcross; [done|by left].
  - left. lia.
  - right. lia.
  - right. by apply Hn.
Qed.

Lemma neighbours_distinct (key : Tile → Z) pre t n post :
  NoDup (key <$> pre ++ t :: n :: post) → key t ≠ key n.
Proof.
  rewrite fmap_app, !fmap_cons. intros (_ & _ & Hnd)%NoDup_app.
  apply NoDup_cons in Hnd as [Ht _]. intros Heq. apply Ht. rewrite Heq. by left.
Qed.

(** C10 — Merge survivor identity.  In [slideRow] and in [slideColumn]
    the ids of the output are ids of the sorted line, in the same order: no
    id is new.  Every [justMerged] output tile comes from two tiles of the
    line that have the same value and are neighbours in sorted order, with
    no tile of the line between them.  It carries the id of the one nearer
    the destination edge (the smaller column for a move to the left, the
    larger one to the right; the smaller row up, the larger one down) and
    twice its value, and when the ids of the line are distinct the id of
    the other one does not occur in the output.  Two tiles of value 2 side
    by side show it through [moveTiles] in all four directions. *)
Theorem merge_survivor_identity (ts : list Tile) (idx : Z) (d : Direction) :
  ((id <$> line_tiles (slideRow ts idx d)) `sublist_of` (id <$> slideRow_sorted d ts)
   ∧ ∀ t', t' ∈ line_tiles (slideRow ts idx d) → justMerged t' = true →
       ∃ pre t n post, slideRow_sorted d ts = pre ++ t :: n :: post
         ∧ t ∈ ts ∧ n ∈ ts
         ∧ value n = value t ∧ id t' = id t ∧ value t' = value t * 2
         ∧ (if is_left d then col t <= col n else col n <= col t)
         ∧ (∀ x, x ∈ ts →
              if is_left d then col x <= col t ∨ col n <= col x
              else col t <= col x ∨ col x <= col n)
         ∧ (NoDup (col <$> ts) → col t ≠ col n)
         ∧ (NoDup (id <$> ts) → id n ∉ id <$> line_tiles (slideRow ts idx d)))
  ∧ ((id <$> line_tiles (slideColumn ts idx d))
       `sublist_of` (id <$> slideColumn_sorted d ts)
     ∧ ∀ t', t' ∈ line_tiles (slideColumn ts idx d) → justMerged t' = true →
         ∃ pre t n post, slideColumn_sorted d ts = pre ++ t :: n :: post
           ∧ t ∈ ts ∧ n ∈ ts
           ∧ value n = value t ∧ id t' = id t ∧ value t' = value t * 2
           ∧ (if is_up d then row t <= row n else row n <= row t)
           ∧ (∀ x, x ∈ ts →
                if is_up d then row x <= row t ∨ row n <= row x
                else row t <= row x ∨ row x <= row n)
           ∧ (NoDup (row <$> ts) → row t ≠ row n)
           ∧ (NoDup (id <$> ts) → id n ∉ id <$> line_tiles (slideColumn ts idx d)))
  ∧ ∀ id1 id2,
      moveTiles [mkTile id1 2 0 0 false false; mkTile id2 2 0 1 false false] left
      = Some (mkMoveResult [mkTile id1 4 0 0 false true] true 4)
      ∧ moveTiles [mkTile id1 2 0 0 false false; mkTile id2 2 0 1 false false] right
        = Some (mkMoveResult [mkTile id2 4 0 3 false true] true 4)
      ∧ moveTiles [mkTile id1 2 0 0 false false; mkTile id2 2 1 0 false false] up
        = Some (mkMoveResult [mkTile id1 4 0 0 false true] true 4)
      ∧ moveTiles [mkTile id1 2 0 0 false false; mkTile id2 2 1 0 false false] down
        = Some (mkMoveResult [mkTile id2 4 3 0 false true] true 4).
Proof.
  destruct (slide_collapsed ts idx d) as [Hr Hc].
  split; [|split].
  - split; [by apply collapsed_ids|]. intros t' Ht' Hj.
    destruct (collapsed_merged _ _ Hr t' Ht' Hj) as (p & t & n & q & E & ? & ? & ? & Hn).
    pose proof (slideRow_sorted_perm d ts) as Hp.
    assert (StronglySorted
              (λ a b, pos (is_left d) col a <= pos (is_left d) col b)
              (p ++ t :: n :: q)) as Hs.
    { rewrite <- E. unfold slideRow_sorted.
      pose proof (sort_by_sorted (row_cmp d) (pos (is_left d) col) (row_cmp_key d) ts)
        as Hsorted.
      unfold row_cmp in Hsorted. by destruct (is_left d). }
    destruct (sorted_neighbours _ _ _ _ _ Hs) as [Hle Hbetween].
    exists p, t, n, q. split; [done|].
    split; [rewrite <- Hp, E, elem_of_app; right; by left|].
    split; [rewrite <- Hp, E, elem_of_app; right; right; by left|].
    do 3 (split; [done|]). unfold pos, BOARD_SIZE in *.
    split; [destruct (is_left d); lia|]. split; [|split].
    + intros x Hx. rewrite <- Hp, E in Hx. specialize (Hbetween x Hx).
      destruct (is_left d); lia.
    + intros Hnd. rewrite <- Hp, E in Hnd. by apply neighbours_distinct in Hnd.
    + intros Hnd. apply Hn. by rewrite Hp.
  - split; [by apply collapsed_ids|]. intros t' Ht' Hj.
    destruct (collapsed_merged _ _ Hc t' Ht' Hj) as (p & t & n & q & E & ? & ? & ? & Hn).
    pose proof (slideColumn_sorted_perm d ts) as Hp.
    assert (StronglySorted
              (λ a b, pos (is_up d) row a <= pos (is_up d) row b)
              (p ++ t :: n :: q)) as Hs.
    { rewrite <- E. unfold slideColumn_sorted.
      pose proof (sort_by_sorted (column_cmp d) (pos (is_up d) row)
                    (column_cmp_key d) ts) as Hsorted.
      unfold column_cmp in Hsorted. by destruct (is_up d). }
    destruct (sorted_neighbours _ _ _ _ _ Hs) as [Hle Hbetween].
    exists p, t, n, q. split; [done|].
    split; [rewrite <- Hp, E, elem_of_app; right; by left|].
    split; [rewrite <- Hp, E, elem_of_app; right; right; by left|].
    do 3 (split; [done|]). unfold pos, BOARD_SIZE in *.
    split; [destruct (is_up d); lia|]. split; [|split].
    + intros x Hx. rewrite <- Hp, E in Hx. specialize (Hbetween x Hx).
      destruct (is_up d); lia.
    + intros Hnd. rewrite <- Hp, E in Hnd. by apply neighbours_distinct in Hnd.
    + intros Hnd. apply Hn. by rewrite Hp.
  - intros id1 id2. repeat split; by vm_compute.
Qed.

Lemma merge_survivor_identity_witness :
  ∃ pre t n post,
    slideRow_sorted right [mkTile 1 2 0 0 false false; mkTile 2 2 0 1 false false]
    = pre ++ t :: n :: post
    ∧ value n = value t ∧ id (mkTile 2 4 0 3 false true) = id t
    ∧ value (mkTile 2 4 0 3 false true) = value t * 2
    ∧ col n <= col t
    ∧ (NoDup (id <$> [mkTile 1 2 0 0 false false; mkTile 2 2 0 1 false false]) →
       id n ∉ id <$> line_tiles
                       (slideRow [mkTile 1 2 0 0 false false; mkTile 2 2 0 1 false false]
                                 0 right)).
Proof.
  destruct (proj2 (proj1 (merge_survivor_identity
                            [mkTile 1 2 0 0 false false; mkTile 2 2 0 1 false false]
                            0 right)) (mkTile 2 4 0 3 false true))
    as (pre & t & n & post & E & _ & _ & Hv & Hi & Hd & Hle & _ & _ & Habs);
    [left|reflexivity|].
  by exists pre, t, n, post.
Defined.
